(** * Retrospective screening metrics of OpenPharmacophore

    A shallow embedding of
    [openpharmacophore/screening/retrospective.py]
    (class [RetrospectiveScreening]) and the properties of its metrics.

    Conventions of the embedding.
    - Python and numpy floating-point scores are exact rationals ([Q]);
      rounding is not represented.  The result of a numpy true division
      is a [np_float], which keeps the non-finite outcomes of a division
      by zero apart from the finite ones.
    - [np.argsort] is called with numpy's default kind, which is not a
      stable sort: the order it gives to equal entries is not decided
      by the code.  It is a parameter of the development, the class
      [Numpy], known by its contract only.
    - numpy integers and Python counters are [Z].
    - A method that mutates [self] takes the session and returns the
      new session next to its outcome; a method that only reads [self]
      returns a [result].
    - Calls into rdkit are parameters of the development, collected in
      the class [Toolkit]: they are not code of this repository. *)

From Stdlib Require Import String.
From Stdlib Require Import List ZArith QArith Qabs Lia Lqa Bool.
From Stdlib Require Import Permutation Sorted.
Import ListNotations.

Local Open Scope Z_scope.

(** * Exceptions and results *)

Inductive exn : Type :=
| TypeError
| AttributeError
| IndexError
| AssertionError
| BadShapeError
| OpenPharmacophoreValueError
| MissingParameters
| ZeroDivisionError.

Inductive result (A : Type) : Type :=
| Ok (a : A)
| Raise (e : exn).

Arguments Ok {A} a.
Arguments Raise {A} e.

Definition bind {A B : Type} (r : result A) (k : A -> result B) : result B :=
  match r with
  | Ok a => k a
  | Raise e => Raise e
  end.

Notation "x <- r ;; k" := (bind r (fun x => k))
  (at level 61, r at next level, right associativity).
Notation "' p <- r ;; k" := (bind r (fun x => let p := x in k))
  (at level 61, p pattern, r at next level, right associativity).

(** * Numbers *)

(** Comparisons of Python floats (no NaN among the scores). *)
Definition py_gt (a b : Q) : bool := negb (Qle_bool a b).
Definition py_le (a b : Q) : bool := Qle_bool a b.
Definition py_lt (a b : Q) : bool := negb (Qle_bool b a).
Definition py_ne (a b : Q) : bool := negb (Qeq_bool a b).

(** A numpy [float64] as produced by a true division: numpy does not
    raise on a zero divisor, it warns and returns [nan] or an infinity. *)
Inductive np_float : Type :=
| Finite (q : Q)
| Inf (negative : bool)
| NaN.

Definition true_divide (a b : Q) : np_float :=
  if Qeq_bool b 0 then
    if Qeq_bool a 0 then NaN else Inf (py_lt a 0)
  else Finite (a / b).

Definition np_ge (x : np_float) (c : Q) : bool :=
  match x with
  | Finite q => Qle_bool c q
  | Inf negative => negb negative
  | NaN => false
  end.

Definition np_le (x : np_float) (c : Q) : bool :=
  match x with
  | Finite q => Qle_bool q c
  | Inf negative => negative
  | NaN => false
  end.

Definition np_mul (x : np_float) (c : Q) : np_float :=
  match x with
  | Finite q => Finite (q * c)
  | Inf negative =>
      if Qeq_bool c 0 then NaN else Inf (xorb negative (py_lt c 0))
  | NaN => NaN
  end.

Definition is_finite (x : np_float) : bool :=
  match x with
  | Finite _ => true
  | _ => false
  end.

(** [np.sum] of an integer array.  numpy adds 64-bit integers; on the
    0/1 labels that the docstring asks for the sum is the number of
    ones, which cannot wrap around. *)
Definition np_sum (a : list Z) : Z := fold_right Z.add 0 a.

(** * Arrays and sorting *)

(** [for i in range(n)], and equally [i = 0; while i < n: ...; i += 1]. *)
Definition for_range {St : Type} (n : nat) (body : nat -> St -> St) (st : St) : St :=
  fold_left (fun st i => body i st) (seq 0 n) st.

(** [mapM] over [result]. *)
Fixpoint traverse {A B : Type} (f : A -> result B) (l : list A) : result (list B) :=
  match l with
  | [] => Ok []
  | x :: l' => y <- f x ;; ys <- traverse f l' ;; Ok (y :: ys)
  end.

(** [a[i]] on the label array of the session.  The array is [None]
    until labels are loaded, and indexing [None] is a [TypeError]. *)
Definition getitem (a : option (list Z)) (i : nat) : result Z :=
  match a with
  | None => Raise TypeError
  | Some arr =>
      match nth_error arr i with
      | Some v => Ok v
      | None => Raise IndexError
      end
  end.

(** [a[indices]] with an integer index array. *)
Definition take (a : option (list Z)) (indices : list nat) : result (list Z) :=
  match a with
  | None => Raise TypeError
  | Some _ => traverse (getitem a) indices
  end.

(** [np.sort], ascending: the sorted values do not depend on the
    sorting algorithm. *)
Fixpoint insert (x : Q) (l : list Q) : list Q :=
  match l with
  | [] => [x]
  | y :: l' => if Qle_bool x y then x :: l else y :: insert x l'
  end.

Definition np_sort (a : list Q) : list Q := fold_right insert [] a.

(** [np.argsort], ascending, with the default kind.  Its contract: the
    result is a permutation of the positions of the array, and the
    array read at these positions is [np.sort] of the array.  Which of
    two equal entries comes first is left open. *)
Class Numpy : Type := {
  argsort : list Q -> list nat;
  argsort_permutation :
    forall a, Permutation (argsort a) (seq 0 (length a));
  argsort_sorts :
    forall a, Forall2 Qeq (map (fun i => nth i a 0%Q) (argsort a)) (np_sort a)
}.

(** [a[-1]] on an index array; an empty array has no last entry. *)
Definition last_index (a : list nat) : option nat :=
  match rev a with
  | [] => None
  | i :: _ => Some i
  end.

(** [min(enumerate(l), key=itemgetter(1))[0]]: the first index of a
    minimal entry. *)
Fixpoint min_from (i : nat) (best : nat * Q) (l : list Q) : nat * Q :=
  match l with
  | [] => best
  | x :: l' => min_from (S i) (if py_lt x (snd best) then (i, x) else best) l'
  end.

Definition argmin (l : list Q) : option nat :=
  match l with
  | [] => None
  | x :: l' => Some (fst (min_from 1 (0%nat, x) l'))
  end.

(** * The screening session *)

(** An rdkit molecule: only its content and its ["_Name"] property are
    of interest here.  The embeddings returned by rdkit are molecules
    too. *)
Record Mol : Type := {
  mol_block : string;
  prop_Name : string
}.

Definition SetProp_Name (m : Mol) (name : string) : Mol :=
  {| mol_block := mol_block m; prop_Name := name |}.

(** [namedtuple("MolScore", ["score", "id", "mol"])]. *)
Record MolScore : Type := {
  score : Q;
  id : string;
  mol : Mol
}.

Inductive metric : Type := SSD | Similarity.

Inductive similarity_kind : Type := tanimoto | dice.

(** The attributes of a [RetrospectiveScreening] object.
    [similarity_fn] only exists on fingerprint sessions. *)
Record session : Type := {
  scoring_metric : metric;
  similarity_fn : option similarity_kind;
  n_actives : Z;
  n_inactives : Z;
  bioactivities : option (list Z);
  molecules : list MolScore;
  n_molecules : Z
}.

(** What [__init__] distinguishes about its [pharmacophore] argument. *)
Inductive pharmacophore : Type :=
| Pharmacophore3D
| SparseBitVect
| OtherObject.

Definition __init__ (p : pharmacophore) (kind : similarity_kind) : result session :=
  match p with
  | Pharmacophore3D =>
      Ok {| scoring_metric := SSD; similarity_fn := None;
            n_actives := 0; n_inactives := 0; bioactivities := None;
            molecules := []; n_molecules := 0 |}
  | SparseBitVect =>
      Ok {| scoring_metric := Similarity; similarity_fn := Some kind;
            n_actives := 0; n_inactives := 0; bioactivities := None;
            molecules := []; n_molecules := 0 |}
  | OtherObject => Raise TypeError
  end.

(** * Metrics *)

(** ** Confusion matrix *)

(** The four counters of [confusion_matrix]. *)
Record tally : Type := {
  true_positives : Z;
  true_negatives : Z;
  false_positives : Z;
  false_negatives : Z
}.

Definition classify (label : Z) (s threshold : Q) (c : tally) : tally :=
  if (label =? 1) && py_gt s threshold then
    {| true_positives := true_positives c + 1; true_negatives := true_negatives c;
       false_positives := false_positives c; false_negatives := false_negatives c |}
  else if (label =? 1) && py_le s threshold then
    {| true_positives := true_positives c; true_negatives := true_negatives c;
       false_positives := false_positives c; false_negatives := false_negatives c + 1 |}
  else if (label =? 0) && py_gt s threshold then
    {| true_positives := true_positives c; true_negatives := true_negatives c;
       false_positives := false_positives c + 1; false_negatives := false_negatives c |}
  else if (label =? 0) && py_le s threshold then
    {| true_positives := true_positives c; true_negatives := true_negatives c + 1;
       false_positives := false_positives c; false_negatives := false_negatives c |}
  else c.

(** [for ii, mol in enumerate(self.molecules)]. *)
Fixpoint tally_loop (labels : option (list Z)) (threshold : Q) (ii : nat)
    (mols : list MolScore) (c : tally) : result tally :=
  match mols with
  | [] => Ok c
  | m :: rest =>
      label <- getitem labels ii ;;
      tally_loop labels threshold (S ii) rest (classify label (score m) threshold c)
  end.

(** [[TP, FP], [FN, TN]]. *)
Definition cf_matrix : Type := (Z * Z) * (Z * Z).

Definition matrix_of (c : tally) : cf_matrix :=
  ((true_positives c, false_positives c), (false_negatives c, true_negatives c)).

Definition matrix_sum (m : cf_matrix) : Z :=
  fst (fst m) + snd (fst m) + fst (snd m) + snd (snd m).

Definition zero_tally : tally :=
  {| true_positives := 0; true_negatives := 0;
     false_positives := 0; false_negatives := 0 |}.

(** The loop, the matrix and the assertion of [confusion_matrix], once
    the threshold is settled. *)
Definition tally_and_check (self : session) (threshold : Q) : result cf_matrix :=
  c <- tally_loop (bioactivities self) threshold 0 (molecules self) zero_tally ;;
  let m := matrix_of c in
  if matrix_sum m =? n_molecules self then Ok m else Raise AssertionError.

Definition confusion_matrix (self : session) (threshold : option Q)
  : result cf_matrix :=
  match scoring_metric self, threshold with
  | Similarity, None => Raise MissingParameters
  | SSD, _ => tally_and_check self 0%Q
  | Similarity, Some t => tally_and_check self t
  end.

(** ** ROC sweep: AUC and ROC curve *)

Definition trapezoid_area (x1 x2 y1 y2 : Q) : Q :=
  let base := Qabs (x1 - x2) in
  let height := (Qabs (y1 + y2) / 2)%Q in
  (base * height)%Q.

(** The local variables of the loop in [AUC]. *)
Record sweep : Type := {
  sw_false_positives : Z;
  sw_true_positives : Z;
  false_pos_prev : Z;
  true_pos_prev : Z;
  area : Q;
  score_prev : Q
}.

Definition sweep_start : sweep :=
  {| sw_false_positives := 0; sw_true_positives := 0;
     false_pos_prev := 0; true_pos_prev := 0;
     area := 0; score_prev := (-10000000)%Q |}.

(** One iteration of the [while] loop of [AUC] on [scores[i]], [labels[i]]. *)
Definition auc_step (s : Q) (label : Z) (st : sweep) : sweep :=
  let st :=
    if py_ne s (score_prev st) then
      {| sw_false_positives := sw_false_positives st;
         sw_true_positives := sw_true_positives st;
         false_pos_prev := sw_false_positives st;
         true_pos_prev := sw_true_positives st;
         area := area st +
                 trapezoid_area (inject_Z (sw_false_positives st))
                                (inject_Z (false_pos_prev st))
                                (inject_Z (sw_true_positives st))
                                (inject_Z (true_pos_prev st));
         score_prev := s |}
    else st in
  if label =? 1 then
    {| sw_false_positives := sw_false_positives st;
       sw_true_positives := sw_true_positives st + 1;
       false_pos_prev := false_pos_prev st; true_pos_prev := true_pos_prev st;
       area := area st; score_prev := score_prev st |}
  else
    {| sw_false_positives := sw_false_positives st + 1;
       sw_true_positives := sw_true_positives st;
       false_pos_prev := false_pos_prev st; true_pos_prev := true_pos_prev st;
       area := area st; score_prev := score_prev st |}.

Section Metrics.

Context {numpy : Numpy}.

(** Scores and labels in descending score order, as the three curve
    computations prepare them. *)
Definition sorted_scores (self : session) : list Q :=
  rev (np_sort (map score (molecules self))).

Definition sorted_indices (self : session) : list nat :=
  rev (argsort (map score (molecules self))).

Definition sorted_labels (self : session) : result (list Z) :=
  take (bioactivities self) (sorted_indices self).

Definition AUC (self : session) : result np_float :=
  let scores := sorted_scores self in
  labels <- sorted_labels self ;;
  let n_positives := n_actives self in
  let n_negatives := n_inactives self in
  let st := for_range (length labels)
              (fun i => auc_step (nth i scores 0%Q) (nth i labels 0))
              sweep_start in
  let area := (area st +
               trapezoid_area (inject_Z n_negatives) (inject_Z (false_pos_prev st))
                              (inject_Z n_positives) (inject_Z (true_pos_prev st)))%Q in
  let area := true_divide area (inject_Z (n_negatives * n_positives)) in
  if np_ge area 0 && np_le area 1 then Ok area else Raise AssertionError.

(** The local variables of the loop in [ROC_plot]. *)
Record roc_state : Type := {
  roc_false_positives : Z;
  roc_true_positives : Z;
  roc_x : list np_float;
  roc_y : list np_float;
  roc_score_prev : Q
}.

Definition roc_step (n_negatives n_positives : Z) (s : Q) (label : Z)
    (st : roc_state) : roc_state :=
  let st :=
    if py_ne s (roc_score_prev st) then
      {| roc_false_positives := roc_false_positives st;
         roc_true_positives := roc_true_positives st;
         roc_x := roc_x st ++
                  [true_divide (inject_Z (roc_false_positives st)) (inject_Z n_negatives)];
         roc_y := roc_y st ++
                  [true_divide (inject_Z (roc_true_positives st)) (inject_Z n_positives)];
         roc_score_prev := s |}
    else st in
  if label =? 1 then
    {| roc_false_positives := roc_false_positives st;
       roc_true_positives := roc_true_positives st + 1;
       roc_x := roc_x st; roc_y := roc_y st; roc_score_prev := roc_score_prev st |}
  else
    {| roc_false_positives := roc_false_positives st + 1;
       roc_true_positives := roc_true_positives st;
       roc_x := roc_x st; roc_y := roc_y st; roc_score_prev := roc_score_prev st |}.

(** [ROC_plot] up to the call of the plotting library: the two
    coordinate series handed to [ax.plot]. *)
Definition ROC_plot (self : session) : result (list np_float * list np_float) :=
  let scores := sorted_scores self in
  labels <- sorted_labels self ;;
  let n_positives := n_actives self in
  let n_negatives := n_inactives self in
  let st := for_range (length labels)
              (fun i => roc_step n_negatives n_positives (nth i scores 0%Q) (nth i labels 0))
              {| roc_false_positives := 0; roc_true_positives := 0;
                 roc_x := []; roc_y := []; roc_score_prev := (-10000000)%Q |} in
  Ok (roc_x st ++ [true_divide (inject_Z (roc_false_positives st)) (inject_Z n_negatives)],
      roc_y st ++ [true_divide (inject_Z (roc_true_positives st)) (inject_Z n_positives)]).

(** ** Enrichment *)

(** The local variables of the loop in [_enrichment_data]. *)
Record enrichment_state : Type := {
  percentage_actives_found : list np_float;
  screened_percentage : list Q;
  actives_counter : Z
}.

Definition enrichment_step (labels : list Z) (n_molecules : nat) (n_actives : Z)
    (ii : nat) (st : enrichment_state) : enrichment_state :=
  let actives_counter :=
    if nth ii labels 0 =? 1 then actives_counter st + 1 else actives_counter st in
  {| percentage_actives_found :=
       percentage_actives_found st ++
       [true_divide (inject_Z actives_counter) (inject_Z n_actives)];
     screened_percentage :=
       screened_percentage st ++
       [(inject_Z (Z.of_nat ii) / inject_Z (Z.of_nat n_molecules))%Q];
     actives_counter := actives_counter |}.

Definition _enrichment_data (self : session) : result (list Q * list np_float) :=
  labels <- sorted_labels self ;;
  let n_molecules := length labels in
  let n_actives := n_actives self in
  let st := for_range n_molecules (enrichment_step labels n_molecules n_actives)
              {| percentage_actives_found := [Finite 0];
                 screened_percentage := [0%Q];
                 actives_counter := 0 |} in
  Ok (screened_percentage st, percentage_actives_found st).

Definition enrichment_factor (self : session) (percentage : Q) : result np_float :=
  if py_lt percentage 0 || py_gt percentage 100 then
    Raise OpenPharmacophoreValueError
  else
    '(screened_percentage, percentage_actives_found) <- _enrichment_data self ;;
    let indices_screen_per := fun x => py_le x (percentage / 100) in
    let selected := filter indices_screen_per screened_percentage in
    match last_index (argsort selected) with
    | None => Raise IndexError
    | Some max_enrichment_idx =>
        match nth_error percentage_actives_found max_enrichment_idx with
        | Some v => Ok (np_mul v 100)
        | None => Raise IndexError
        end
    end.

End Metrics.

(** * Scoring *)

(** The calls the scoring stage makes outside of this module, each
    taken for the pharmacophore of the session at hand.
    - [MolFromSmiles] is [None] on a SMILES that rdkit cannot parse.
    - [TanimotoSimilarity] and [DiceSimilarity] compare the fingerprint
      of the session with the Gobbi 2D fingerprint of a molecule.
    - [MatchPharmacophoreToMol] is the [can_match] flag and
      [MatchPharmacophore] the [failed] flag of the rdkit functions of
      these names.
    - [EmbedPharmacophore] is the list of embeddings, or [None] when
      adding hydrogens or embedding raises. *)
Class Toolkit : Type := {
  MolFromSmiles : string -> option Mol;
  TanimotoSimilarity : Mol -> Q;
  DiceSimilarity : Mol -> Q;
  MatchPharmacophoreToMol : Mol -> bool;
  MatchPharmacophore : Mol -> bool;
  EmbedPharmacophore : Mol -> option (list Mol);
  SSD_of : Mol -> Q
}.

(** The [activity] argument: a numpy array of rank 1, or of a higher
    rank (whose content is never read). *)
Inductive ndarray : Type :=
| Rank1 (data : list Z)
| HigherRank.

Definition append (self : session) (r : MolScore) : session :=
  {| scoring_metric := scoring_metric self;
     similarity_fn := similarity_fn self;
     n_actives := n_actives self;
     n_inactives := n_inactives self;
     bioactivities := bioactivities self;
     molecules := molecules self ++ [r];
     n_molecules := n_molecules self |}.

Definition set_n_molecules (self : session) (n : Z) : session :=
  {| scoring_metric := scoring_metric self;
     similarity_fn := similarity_fn self;
     n_actives := n_actives self;
     n_inactives := n_inactives self;
     bioactivities := bioactivities self;
     molecules := molecules self;
     n_molecules := n |}.

Definition set_labels (self : session) (labels : list Z) : session :=
  {| scoring_metric := scoring_metric self;
     similarity_fn := similarity_fn self;
     n_actives := np_sum labels;
     n_inactives := Z.of_nat (length labels) - np_sum labels;
     bioactivities := Some labels;
     molecules := molecules self;
     n_molecules := n_molecules self |}.

Section Scoring.

Context {T : Toolkit}.

(** Modelled from the spec: [transform_embeddings] of
    [openpharmacophore.screening.alignment], which is not among the
    sources; the spec gives the aligner [score(embedding) -> float SSD],
    one SSD per embedding. *)
Definition transform_embeddings (embeddings : list Mol) : list Q :=
  map SSD_of embeddings.

(** [MolScore(0.0, mol.GetProp("_Name"), mol)]. *)
Definition unmatched (m : Mol) : MolScore :=
  {| score := 0; id := prop_Name m; mol := m |}.

(** The body of the loop of [_align_molecules] for one molecule: the
    record to append, or [None] where the body runs into [continue]
    without appending.  [1 / SSDs[best_fit_index]] divides Python
    floats: a zero SSD raises [ZeroDivisionError], outside of the
    [try]. *)
Definition align (m : Mol) : result (option MolScore) :=
  if MatchPharmacophoreToMol m then
    if MatchPharmacophore m then Ok (Some (unmatched m))
    else
      match EmbedPharmacophore m with
      | None => Ok None
      | Some embeddings =>
          let SSDs := transform_embeddings embeddings in
          match argmin SSDs with
          | None => Ok (Some (unmatched m))
          | Some best_fit_index =>
              match nth_error SSDs best_fit_index,
                    nth_error embeddings best_fit_index with
              | Some ssd, Some e =>
                  if Qeq_bool ssd 0 then Raise ZeroDivisionError
                  else Ok (Some {| score := 1 / ssd; id := prop_Name m; mol := e |})
              | _, _ => Raise IndexError
              end
          end
      end
  else Ok (Some (unmatched m)).

Fixpoint align_loop (mols : list Mol) (self : session) : result unit * session :=
  match mols with
  | [] => (Ok tt, self)
  | m :: rest =>
      match align m with
      | Raise e => (Raise e, self)
      | Ok None => align_loop rest self
      | Ok (Some matched_mol) => align_loop rest (append self matched_mol)
      end
  end.

Definition _align_molecules (mols : list Mol) (self : session)
  : result unit * session :=
  let self := set_n_molecules self (n_molecules self + Z.of_nat (length mols)) in
  align_loop mols self.

Definition _fingerprint_similarity (mols : list Mol) (self : session)
  : result unit * session :=
  match similarity_fn self with
  | None => (Raise AttributeError, self)
  | Some kind =>
      let similarity :=
        match kind with
        | tanimoto => TanimotoSimilarity
        | dice => DiceSimilarity
        end in
      let self := set_n_molecules self (Z.of_nat (length mols)) in
      (Ok tt,
       fold_left
         (fun self m =>
            append self {| score := similarity m; id := prop_Name m; mol := m |})
         mols self)
  end.

(** [Chem.MolFromSmiles(smi)] followed by [mol.SetProp("_Name", str(id))];
    the latter is an [AttributeError] on the [None] of a failed parse. *)
Definition parse (entry : string * string) : result Mol :=
  match MolFromSmiles (snd entry) with
  | Some m => Ok (SetProp_Name m (fst entry))
  | None => Raise AttributeError
  end.

(** The last branch of the source, [raise NotImplementedError], needs a
    third value of [scoring_metric], which [__init__] never sets. *)
Definition from_bioactivity_data (smiles : list (string * string))
    (activity : ndarray) (self : session) : result unit * session :=
  match activity with
  | HigherRank => (Raise BadShapeError, self)
  | Rank1 labels =>
      if negb (length smiles =? length labels)%nat then
        (Raise OpenPharmacophoreValueError, self)
      else
        let self := set_labels self labels in
        match traverse parse smiles with
        | Raise e => (Raise e, self)
        | Ok mols =>
            match scoring_metric self with
            | Similarity => _fingerprint_similarity mols self
            | SSD => _align_molecules mols self
            end
        end
  end.

End Scoring.

(** * Sessions of interest *)

Definition binary (labels : list Z) : Prop :=
  Forall (fun b => b = 0 \/ b = 1) labels.

(** A session as [__init__] leaves it. *)
Definition fresh (s : session) : Prop :=
  exists p kind, __init__ p kind = Ok s.

(** A session after one successful [from_bioactivity_data] on a fresh
    session, with 0/1 labels as the docstring asks. *)
Definition populated (s : session) : Prop :=
  exists (T : Toolkit) s0 smiles labels,
    fresh s0 /\ binary labels /\
    from_bioactivity_data smiles (Rank1 labels) s0 = (Ok tt, s).

(** * Further metrics *)

(** [c / x] with a Python number over a numpy [float64]. *)
Definition np_rdiv (c : Q) (x : np_float) : np_float :=
  match x with
  | Finite r => true_divide c r
  | Inf _ => Finite 0
  | NaN => NaN
  end.

(** [self.bioactivities.shape[0]]; [None] has no [shape]. *)
Definition shape0 (a : option (list Z)) : result nat :=
  match a with
  | None => Raise AttributeError
  | Some arr => Ok (length arr)
  end.

Definition ideal_enrichment_factor (self : session) (percentage : Q)
  : result np_float :=
  let percentage := (percentage / 100)%Q in
  n_molecules <- shape0 (bioactivities self) ;;
  let ratio_actives :=
    true_divide (inject_Z (n_actives self)) (inject_Z (Z.of_nat n_molecules)) in
  if np_ge ratio_actives percentage then
    Ok (np_mul (np_rdiv 100 ratio_actives) percentage)
  else Ok (Finite 100).

(** * Notions used in the statements *)

(** One sort that meets the contract of [np.argsort]: the insertion
    sort on (value, position) pairs, which keeps equal values in input
    order. *)
Fixpoint insert_key (x : Q * nat) (l : list (Q * nat)) : list (Q * nat) :=
  match l with
  | [] => [x]
  | y :: l' => if Qle_bool (fst x) (fst y) then x :: l else y :: insert_key x l'
  end.

Definition sort_keyed (l : list (Q * nat)) : list (Q * nat) :=
  fold_right insert_key [] l.

Definition enumerate (a : list Q) : list (Q * nat) :=
  combine a (seq 0 (length a)).

Definition stable_argsort (a : list Q) : list nat :=
  map snd (sort_keyed (enumerate a)).

(** Another one: it differs from [stable_argsort] on arrays of two
    equal entries, which it returns in the other order. *)
Definition swapping_argsort (a : list Q) : list nat :=
  match a with
  | [x; y] => if Qeq_bool x y then [1; 0]%nat else stable_argsort a
  | _ => stable_argsort a
  end.

(** The insertion sort as the sort of numpy. *)
Definition insertion_numpy : Numpy.
Proof.
  assert (Hins : forall x l, Permutation (insert_key x l) (x :: l)).
  { intros x l. induction l as [|y l IH]; simpl; [reflexivity|].
    destruct (Qle_bool (fst x) (fst y)); [reflexivity|].
    rewrite IH. apply perm_swap. }
  assert (Hsort : forall l, Permutation (sort_keyed l) l).
  { induction l as [|x l IH]; simpl; [constructor|].
    rewrite Hins. now constructor. }
  refine {| argsort := stable_argsort |}; intros a; unfold stable_argsort.
  - rewrite (Permutation_map snd (Hsort (enumerate a))). unfold enumerate.
    generalize 0%nat. induction a as [|x a IH]; intros k; simpl; [reflexivity|].
    now rewrite IH.
  - assert (Hfst : forall l, map fst (sort_keyed l) = np_sort (map fst l)).
    { induction l as [|x l IH]; simpl; [reflexivity|]. rewrite <- IH.
      generalize (sort_keyed l). intros l'.
      induction l' as [|y l' IH']; simpl; [reflexivity|].
      destruct (Qle_bool (fst x) (fst y)); simpl; congruence. }
    assert (Hin : forall (b : list Q) k q i,
              In (q, i) (combine b (seq k (length b))) ->
              (k <= i)%nat /\ nth (i - k) b 0%Q = q).
    { induction b as [|x b IH]; intros k q i; simpl; [tauto|].
      intros [E | H].
      - inversion E; subst. rewrite Nat.sub_diag. now split.
      - apply IH in H. destruct H as [Hk Hn]. split; [lia|].
        replace (i - k)%nat with (S (i - S k)) by lia. exact Hn. }
    assert (E : map (fun i => nth i a 0%Q) (map snd (sort_keyed (enumerate a)))
                = np_sort a).
    { rewrite map_map.
      rewrite (map_ext_in _ fst).
      - rewrite Hfst. unfold enumerate. f_equal.
        generalize 0%nat. induction a as [|x a IH]; intros k; simpl; [reflexivity|].
        now rewrite IH.
      - intros [q i] H. apply (Permutation_in _ (Hsort _)) in H.
        apply Hin in H. destruct H as [_ H]. now rewrite Nat.sub_0_r in H. }
    rewrite E. generalize (np_sort a). intros l.
    induction l; constructor; [reflexivity | assumption].
Defined.

(** The sort that swaps tied pairs as the sort of numpy. *)
Definition swapping_numpy : Numpy.
Proof.
  refine {| argsort := swapping_argsort |}; intros a; unfold swapping_argsort.
  - destruct a as [|x [|y [|z a]]];
      try apply (@argsort_permutation insertion_numpy).
    destruct (Qeq_bool x y);
      [apply perm_swap | apply (@argsort_permutation insertion_numpy)].
  - destruct a as [|x [|y [|z a]]];
      try apply (@argsort_sorts insertion_numpy).
    destruct (Qeq_bool x y) eqn:E; [|apply (@argsort_sorts insertion_numpy)].
    apply Qeq_bool_iff in E.
    cbn [map nth np_sort fold_right insert].
    assert (Hle : Qle_bool x y = true)
      by (apply Qle_bool_iff; rewrite E; apply Qle_refl).
    rewrite Hle. repeat constructor; [now symmetry | assumption].
Defined.

(** The (score, label) pairs of the records in the order in which the
    sweeps of [AUC], [ROC_plot] and [_enrichment_data] visit them. *)
Definition ranked {numpy : Numpy} (scores : list Q) (labels : list Z) : list (Q * Z) :=
  map (fun i => (nth i scores 0%Q, nth i labels 0)) (rev (argsort scores)).

(** Two lists of (score, label) pairs with, position by position,
    equal scores and the same label. *)
Definition same_pairs (l l' : list (Q * Z)) : Prop :=
  Forall2 (fun p q => (fst p == fst q)%Q /\ snd p = snd q) l l'.

(** The loop of [AUC] run over a list of (score, label) pairs. *)
Definition sweep_over (l : list (Q * Z)) (st : sweep) : sweep :=
  fold_left (fun st p => auc_step (fst p) (snd p) st) l st.

(** Two states of the sweep of [AUC] that agree, the score seen last
    being the same number. *)
Definition sweep_eq (st st' : sweep) : Prop :=
  sw_false_positives st = sw_false_positives st' /\
  sw_true_positives st = sw_true_positives st' /\
  false_pos_prev st = false_pos_prev st' /\
  true_pos_prev st = true_pos_prev st' /\
  area st = area st' /\
  (score_prev st == score_prev st')%Q.

Definition scores_of (s : session) : list Q := map score (molecules s).

(** What one [from_bioactivity_data] on a fresh session establishes:
    the labels are stored with their totals, and the store holds at
    most one record per label. *)
Definition labelled (s : session) (labels : list Z) : Prop :=
  bioactivities s = Some labels /\
  binary labels /\
  n_actives s = np_sum labels /\
  n_inactives s = Z.of_nat (length labels) - np_sum labels /\
  (length (molecules s) <= length labels)%nat.

(** Counts over (score, label) pairs: [1] is active, anything else is
    counted as inactive, as the sweeps do. *)
Fixpoint positives (l : list (Q * Z)) : Z :=
  match l with
  | [] => 0
  | p :: l' => (if snd p =? 1 then 1 else 0) + positives l'
  end.

Fixpoint negatives (l : list (Q * Z)) : Z :=
  match l with
  | [] => 0
  | p :: l' => (if snd p =? 1 then 0 else 1) + negatives l'
  end.

(** The weight of an (active, inactive) pair of scores: 2 when the
    active is ranked above the inactive, 1 on a tie, 0 otherwise. *)
Definition weight (a b : Q) : Z :=
  if py_gt a b then 2 else if Qeq_bool a b then 1 else 0.

Fixpoint row (a : Q) (B : list (Q * Z)) : Z :=
  match B with
  | [] => 0
  | b :: B' => (if snd b =? 1 then 0 else weight a (fst b)) + row a B'
  end.

(** The total weight of the pairs of an active of [A] and an inactive
    of [B]; [cross l l] is twice the Mann-Whitney statistic of [l]. *)
Fixpoint cross (A B : list (Q * Z)) : Z :=
  match A with
  | [] => 0
  | a :: A' => (if snd a =? 1 then row (fst a) B else 0) + cross A' B
  end.

(** The state of the sweep of [AUC] after the pairs [P]: [B] are the
    pairs before the current run of equal scores, [G] is that run. *)
Definition sweep_inv (P : list (Q * Z)) (st : sweep) : Prop :=
  exists B G,
    P = B ++ G /\
    (G = [] -> B = []) /\
    sw_false_positives st = negatives P /\
    sw_true_positives st = positives P /\
    false_pos_prev st = negatives B /\
    true_pos_prev st = positives B /\
    (2 * area st == inject_Z (cross B B))%Q /\
    Forall (fun g => (fst g == score_prev st)%Q) G /\
    Forall (fun b => (score_prev st < fst b)%Q) B.

(** The area [AUC] divides: what the loop accumulated plus the closing
    trapezoid to the totals of the session. *)
Definition final_area (s : session) (st : sweep) : Q :=
  (area st +
   trapezoid_area (inject_Z (n_inactives s)) (inject_Z (false_pos_prev st))
                  (inject_Z (n_actives s)) (inject_Z (true_pos_prev st)))%Q.

(** Every active has a score, every inactive has a score, and the two
    scores are related by [R]. *)
Definition actives_vs_inactives (R : Q -> Q -> Prop) (s : session) : Prop :=
  forall labels i j,
    bioactivities s = Some labels ->
    nth_error labels i = Some 1 ->
    nth_error labels j = Some 0 ->
    exists ri rj,
      nth_error (molecules s) i = Some ri /\
      nth_error (molecules s) j = Some rj /\
      R (score ri) (score rj).

Definition perfect_ranking : session -> Prop :=
  actives_vs_inactives (fun a b => (b < a)%Q).

Definition inverted_ranking : session -> Prop :=
  actives_vs_inactives (fun a b => (a < b)%Q).

Definition all_scores_equal (s : session) : Prop :=
  forall r1 r2, In r1 (molecules s) -> In r2 (molecules s) ->
                (score r1 == score r2)%Q.

(** The number of actives among some labels. *)
Fixpoint actives_in (labels : list Z) : Z :=
  match labels with
  | [] => 0
  | b :: rest => (if b =? 1 then 1 else 0) + actives_in rest
  end.

(** A molecule is predicted active when its score is strictly above
    the threshold. *)
Definition predicted_active (threshold : Q) (r : MolScore) : bool :=
  if Qlt_le_dec threshold (score r) then true else false.

(** The number of (label, record) pairs with a given label and a given
    prediction. *)
Definition cell (label : Z) (predicted : bool) (threshold : Q)
    (l : list (Z * MolScore)) : Z :=
  Z.of_nat (length (filter
    (fun p => (fst p =? label) && Bool.eqb (predicted_active threshold (snd p)) predicted)
    l)).

(** The confusion matrix of the records paired by position with the
    labels. *)
Definition expected_matrix (labels : list Z) (store : list MolScore)
    (threshold : Q) : cf_matrix :=
  let l := combine labels store in
  ((cell 1 true threshold l, cell 0 true threshold l),
   (cell 1 false threshold l, cell 0 false threshold l)).

(** The threshold [confusion_matrix] compares with. *)
Definition effective_threshold (s : session) (threshold : Q) : Q :=
  match scoring_metric s with
  | SSD => 0%Q
  | Similarity => threshold
  end.

(** The order the spec asks of the sort: descending scores, equal
    scores in input order. *)
Definition spec_stable_descending (scores : list Q) (indices : list nat) : Prop :=
  StronglySorted
    (fun i j => (nth j scores 0 < nth i scores 0)%Q \/
                ((nth i scores 0 == nth j scores 0)%Q /\ (i < j)%nat))
    indices.

(** The order the code produces: descending scores, with nothing said
    about equal scores. *)
Definition descending (scores : list Q) (indices : list nat) : Prop :=
  StronglySorted (fun i j => (nth j scores 0 <= nth i scores 0)%Q) indices.

(** A coordinate of the ROC curve is a count divided by a total. *)
Definition ratio_over (total : Z) (x : np_float) : Prop :=
  exists k : Z, x = true_divide (inject_Z k) (inject_Z total).

(** A labelled session whose store has one record per label. *)
Definition fully_scored (s : session) (labels : list Z) : Prop :=
  labelled s labels /\ length (molecules s) = length labels.

(** The (score, label) pairs of a session, in input order. *)
Definition pairs_of (s : session) (labels : list Z) : list (Q * Z) :=
  combine (scores_of s) labels.

(** The other label. *)
Definition flip_label (b : Z) : Z := 1 - b.

Definition flip_pairs (l : list (Q * Z)) : list (Q * Z) :=
  map (fun p => (fst p, flip_label (snd p))) l.

(** The loop of [ROC_plot] run over a list of (score, label) pairs. *)
Definition roc_start : roc_state :=
  {| roc_false_positives := 0; roc_true_positives := 0;
     roc_x := []; roc_y := []; roc_score_prev := (-10000000)%Q |}.

Definition roc_over (N Pn : Z) (l : list (Q * Z)) (st : roc_state) : roc_state :=
  fold_left (fun st p => roc_step N Pn (fst p) (snd p) st) l st.

(** Two states of the loop of [ROC_plot] that agree, the score seen
    last being the same number. *)
Definition roc_eq (st st' : roc_state) : Prop :=
  roc_false_positives st = roc_false_positives st' /\
  roc_true_positives st = roc_true_positives st' /\
  roc_x st = roc_x st' /\
  roc_y st = roc_y st' /\
  (roc_score_prev st == roc_score_prev st')%Q.

(** A count over a total, as [ROC_plot] computes its coordinates. *)
Definition ratio (total k : Z) : np_float :=
  true_divide (inject_Z k) (inject_Z total).

(** The state of the loop of [ROC_plot] after the pairs [P]: the
    coordinates emitted so far are ratios of two non-decreasing
    sequences of counts. *)
Definition roc_inv (N Pn : Z) (P : list (Q * Z)) (st : roc_state) : Prop :=
  exists kx ky,
    roc_x st = map (ratio N) kx /\
    roc_y st = map (ratio Pn) ky /\
    length kx = length ky /\
    StronglySorted Z.le kx /\
    StronglySorted Z.le ky /\
    Forall (fun k => 0 <= k <= negatives P) kx /\
    Forall (fun k => 0 <= k <= positives P) ky /\
    roc_false_positives st = negatives P /\
    roc_true_positives st = positives P.

Section ScoringNotions.

Context {T : Toolkit}.

(** The record the fingerprint strategy stores for a molecule. *)
Definition fingerprint_record (kind : similarity_kind) (m : Mol) : MolScore :=
  {| score := match kind with
              | tanimoto => TanimotoSimilarity m
              | dice => DiceSimilarity m
              end;
     id := prop_Name m; mol := m |}.

(** Whether the geometric strategy stores a record for a molecule, and
    whether it leaves the molecule out. *)
Definition is_scored (m : Mol) : bool :=
  match align m with
  | Ok (Some _) => true
  | _ => false
  end.

Definition is_skipped (m : Mol) : bool :=
  match align m with
  | Ok None => true
  | _ => false
  end.

(** The molecules at which the geometric strategy divides by zero:
    the pharmacophore is matched and embedded, and the smallest SSD of
    the embeddings is 0. *)
Definition zero_fit (m : Mol) : Prop :=
  MatchPharmacophoreToMol m = true /\
  MatchPharmacophore m = false /\
  exists embeddings e,
    EmbedPharmacophore m = Some embeddings /\
    In e embeddings /\
    (SSD_of e == 0)%Q /\
    Forall (fun e' => (SSD_of e <= SSD_of e')%Q) embeddings.

(** The records the geometric strategy stores for a list of molecules. *)
Definition aligned_records (mols : list Mol) : list MolScore :=
  flat_map (fun m => match align m with
                     | Ok (Some r) => [r]
                     | _ => []
                     end) mols.

(** The records a scoring run on the session [s] stores for a list of
    molecules. *)
Definition scored_records (s : session) (mols : list Mol) : list MolScore :=
  match scoring_metric s with
  | SSD => aligned_records mols
  | Similarity =>
      match similarity_fn s with
      | Some kind => map (fingerprint_record kind) mols
      | None => []
      end
  end.

End ScoringNotions.

(** A session whose attributes are as [__init__] sets them together:
    a fingerprint session has a similarity function. *)
Definition well_formed (s : session) : Prop :=
  scoring_metric s = Similarity -> exists kind, similarity_fn s = Some kind.

(** The number of (label, record) pairs with a given label. *)
Definition labelled_as (label : Z) (l : list (Z * MolScore)) : Z :=
  Z.of_nat (length (filter (fun p => fst p =? label) l)).

(** Descending order of (score, label) pairs. *)
Definition descending_pairs (l : list (Q * Z)) : Prop :=
  StronglySorted (fun x y => (fst y <= fst x)%Q) l.

(** The pairs [A] visited so far end in a pair of score [prev]. *)
Definition last_score (A : list (Q * Z)) (prev : Q) : Prop :=
  A = [] \/ exists A' q, A = A' ++ [q] /\ (fst q == prev)%Q.

(** The states of two runs of the loop of [ROC_plot] over the same
    scores, after the pairs [A1] and [A2]: the series agree. *)
Definition roc_together (A1 A2 : list (Q * Z)) (st1 st2 : roc_state) : Prop :=
  roc_x st1 = roc_x st2 /\
  roc_y st1 = roc_y st2 /\
  (roc_score_prev st1 == roc_score_prev st2)%Q /\
  roc_false_positives st1 = negatives A1 /\
  roc_true_positives st1 = positives A1 /\
  roc_false_positives st2 = negatives A2 /\
  roc_true_positives st2 = positives A2 /\
  last_score A1 (roc_score_prev st1) /\
  last_score A2 (roc_score_prev st2).

(** The same for two runs of the loop of [AUC]: area and previous
    counts agree. *)
Definition sweep_together (A1 A2 : list (Q * Z)) (st1 st2 : sweep) : Prop :=
  area st1 = area st2 /\
  false_pos_prev st1 = false_pos_prev st2 /\
  true_pos_prev st1 = true_pos_prev st2 /\
  (score_prev st1 == score_prev st2)%Q /\
  sw_false_positives st1 = negatives A1 /\
  sw_true_positives st1 = positives A1 /\
  sw_false_positives st2 = negatives A2 /\
  sw_true_positives st2 = positives A2 /\
  last_score A1 (score_prev st1) /\
  last_score A2 (score_prev st2).

(** * Example data *)

Local Open Scope string_scope.

(** A toolkit for the examples.  The similarity of a molecule is the
    inverse of the length of its SMILES; ["O"] does not match the
    pharmacophore, the match of ["N"] fails, embedding ["C"] raises,
    ["CC"] has no embedding, and every other molecule has two
    embeddings, the second one with the smaller SSD. *)
Definition example_toolkit : Toolkit := {|
  MolFromSmiles := fun smi =>
    if String.eqb smi EmptyString then None
    else Some {| mol_block := smi; prop_Name := EmptyString |};
  TanimotoSimilarity := fun m => (1 # Pos.of_nat (String.length (mol_block m)))%Q;
  DiceSimilarity := fun m => (2 # Pos.of_nat (S (String.length (mol_block m))))%Q;
  MatchPharmacophoreToMol := fun m => negb (String.eqb (mol_block m) "O");
  MatchPharmacophore := fun m => String.eqb (mol_block m) "N";
  EmbedPharmacophore := fun m =>
    if String.eqb (mol_block m) "C" then None
    else if String.eqb (mol_block m) "CC" then Some []
    else Some [ {| mol_block := mol_block m ++ " a"; prop_Name := prop_Name m |};
                {| mol_block := mol_block m ++ " b"; prop_Name := prop_Name m |} ];
  SSD_of := fun e =>
    if String.eqb (mol_block e) "CCO b" then (1 # 4)%Q else (1 # 2)%Q
|}.

Definition fresh_ssd : session :=
  {| scoring_metric := SSD; similarity_fn := None;
     n_actives := 0; n_inactives := 0; bioactivities := None;
     molecules := []; n_molecules := 0 |}.

Definition fresh_similarity : session :=
  {| scoring_metric := Similarity; similarity_fn := Some tanimoto;
     n_actives := 0; n_inactives := 0; bioactivities := None;
     molecules := []; n_molecules := 0 |}.

(** Three molecules with similarities [1/2], [1/2] and [1]; the first
    one is inactive. *)
Definition example_screen : session :=
  snd (@from_bioactivity_data example_toolkit
         [("a", "CC"); ("b", "NN"); ("c", "C")] (Rank1 [0; 1; 1])
         fresh_similarity).

(** Two molecules with the same similarity, the inactive one first. *)
Definition example_tied : session :=
  snd (@from_bioactivity_data example_toolkit
         [("a", "CC"); ("b", "NN")] (Rank1 [0; 1]) fresh_similarity).

(** One active molecule. *)
Definition example_single : session :=
  snd (@from_bioactivity_data example_toolkit
         [("a", "CC")] (Rank1 [1]) fresh_similarity).

(** One active molecule whose embedding raises, under the geometric
    strategy. *)
Definition example_skipped : session :=
  snd (@from_bioactivity_data example_toolkit
         [("a", "C")] (Rank1 [1]) fresh_ssd).

(** Under the geometric strategy, an inactive molecule whose embedding
    raises, followed by an active molecule that is embedded. *)
Definition example_misaligned : session :=
  snd (@from_bioactivity_data example_toolkit
         [("a", "C"); ("b", "CCO")] (Rank1 [0; 1]) fresh_ssd).

Local Close Scope string_scope.

(** The labels of [example_screen]. *)
Definition example_labels : list Z := [0; 1; 1].

(** The molecules of [example_tied] supplied in the other order. *)
Definition example_tied_swapped : session :=
  snd (@from_bioactivity_data example_toolkit
         [("b", "NN"); ("a", "CC")]%string (Rank1 [1; 0]) fresh_similarity).

(** [example_screen] with every score raised by one. *)
Definition example_screen_shifted : session :=
  {| scoring_metric := Similarity; similarity_fn := Some tanimoto;
     n_actives := 2; n_inactives := 1; bioactivities := Some example_labels;
     molecules := map (fun r => {| score := score r + 1; id := id r; mol := mol r |})
                      (molecules example_screen);
     n_molecules := 3 |}.

(** Under the geometric strategy, one active molecule that is
    embedded, and then a second call with the two molecules of
    [example_misaligned] on the same session. *)
Definition example_first_call : session :=
  snd (@from_bioactivity_data example_toolkit
         [("b", "CCO")]%string (Rank1 [1]) fresh_ssd).

Definition example_second_call : session :=
  snd (@from_bioactivity_data example_toolkit
         [("a", "C"); ("b", "CCO")]%string (Rank1 [0; 1]) example_first_call).

(** The toolkit of the examples with an aligner that fits every
    embedding exactly: every SSD is 0. *)
Definition exact_fit_toolkit : Toolkit := {|
  MolFromSmiles := @MolFromSmiles example_toolkit;
  TanimotoSimilarity := @TanimotoSimilarity example_toolkit;
  DiceSimilarity := @DiceSimilarity example_toolkit;
  MatchPharmacophoreToMol := @MatchPharmacophoreToMol example_toolkit;
  MatchPharmacophore := @MatchPharmacophore example_toolkit;
  EmbedPharmacophore := @EmbedPharmacophore example_toolkit;
  SSD_of := fun _ => 0%Q
|}.

(** * Facts about the sorting model *)

Lemma py_gt_iff a b : py_gt a b = true <-> (b < a)%Q.
Proof.
  unfold py_gt. rewrite negb_true_iff, <- not_true_iff_false, Qle_bool_iff.
  split; [apply Qnot_le_lt | apply Qlt_not_le].
Qed.

Lemma py_lt_iff a b : py_lt a b = true <-> (a < b)%Q.
Proof. apply (py_gt_iff b a). Qed.

Lemma py_le_iff a b : py_le a b = true <-> (a <= b)%Q.
Proof. apply Qle_bool_iff. Qed.

Lemma py_ne_false a b : py_ne a b = false <-> (a == b)%Q.
Proof.
  unfold py_ne. rewrite negb_false_iff. apply Qeq_bool_iff.
Qed.

Lemma py_ne_true a b : py_ne a b = true <-> ~ (a == b)%Q.
Proof.
  unfold py_ne. rewrite negb_true_iff, <- not_true_iff_false, Qeq_bool_iff.
  tauto.
Qed.

Lemma py_gt_le a b : py_gt a b = negb (py_le a b).
Proof. reflexivity. Qed.

Lemma insert_perm x l : Permutation (insert x l) (x :: l).
Proof.
  induction l as [|y l IH]; simpl; [reflexivity|].
  destruct (Qle_bool x y); [reflexivity|].
  rewrite IH. apply perm_swap.
Qed.

Lemma np_sort_perm a : Permutation (np_sort a) a.
Proof.
  induction a as [|x a IH]; simpl; [constructor|].
  rewrite insert_perm. now constructor.
Qed.

Lemma insert_sorted x l :
  StronglySorted Qle l -> StronglySorted Qle (insert x l).
Proof.
  induction 1 as [|y l Hs IH Hy]; simpl; [repeat constructor|].
  destruct (Qle_bool x y) eqn:E.
  - apply Qle_bool_iff in E. constructor; [now constructor|].
    constructor; [assumption|].
    eapply Forall_impl; [|exact Hy]. intros z Hz. now apply Qle_trans with y.
  - constructor; [assumption|].
    rewrite Forall_forall in *. intros z Hz.
    apply (Permutation_in _ (insert_perm x l)) in Hz.
    destruct Hz as [<- | Hz]; [|now apply Hy].
    apply Qlt_le_weak. apply (py_gt_iff x y). unfold py_gt. now rewrite E.
Qed.

Lemma np_sort_sorted a : StronglySorted Qle (np_sort a).
Proof.
  induction a as [|x a IH]; simpl; [constructor | now apply insert_sorted].
Qed.

Lemma Forall2_rev {A B} (R : A -> B -> Prop) l l' :
  Forall2 R l l' -> Forall2 R (rev l) (rev l').
Proof.
  induction 1 as [|x y l l' Hxy _ IH]; simpl; [constructor|].
  apply Forall2_app; [assumption | now repeat constructor].
Qed.

Lemma Forall2_sorted (u v : list Q) :
  Forall2 Qeq u v -> StronglySorted Qle v -> StronglySorted Qle u.
Proof.
  induction 1 as [|x y u v Hxy Huv IH]; intros Hs; [constructor|].
  inversion Hs as [|? ? Hs' Hy]; subst. constructor; [now apply IH|].
  clear IH Hs Hs'. induction Huv as [|x' y' u v Hxy' _ IH]; [constructor|].
  inversion Hy as [|? ? Hyy' Hy']; subst.
  constructor; [now rewrite Hxy, Hxy' | now apply IH].
Qed.

Lemma StronglySorted_map_inv {A B} (f : A -> B) (R : B -> B -> Prop) l :
  StronglySorted R (map f l) -> StronglySorted (fun x y => R (f x) (f y)) l.
Proof.
  induction l as [|a l IH]; simpl; intros H; [constructor|].
  inversion H as [|? ? Hs Ha]; subst. constructor; [now apply IH|].
  rewrite Forall_forall in *. intros y Hy. apply Ha. now apply in_map.
Qed.

Lemma StronglySorted_app {A} (R : A -> A -> Prop) l1 l2 :
  StronglySorted R l1 -> StronglySorted R l2 ->
  (forall x y, In x l1 -> In y l2 -> R x y) ->
  StronglySorted R (l1 ++ l2).
Proof.
  induction l1 as [|a l1 IH]; simpl; intros H1 H2 H12; [assumption|].
  inversion H1 as [|? ? H1' Ha]; subst. constructor.
  - apply IH; auto.
  - apply Forall_app. split; [assumption|].
    rewrite Forall_forall. intros y Hy. apply H12; auto.
Qed.

Lemma StronglySorted_rev {A} (R : A -> A -> Prop) l :
  StronglySorted R l -> StronglySorted (fun x y => R y x) (rev l).
Proof.
  induction 1 as [|a l Hs IH Ha]; simpl; [constructor|].
  apply StronglySorted_app; [assumption | repeat constructor |].
  intros x y Hx [<- | []]. rewrite Forall_forall in Ha.
  apply Ha. now apply in_rev.
Qed.

Lemma StronglySorted_map {A B} (f : A -> B) (R : B -> B -> Prop) l :
  StronglySorted (fun x y => R (f x) (f y)) l -> StronglySorted R (map f l).
Proof.
  induction 1 as [|a l Hs IH Ha]; simpl; constructor; [assumption|].
  rewrite Forall_forall in *. intros y Hy.
  apply in_map_iff in Hy. destruct Hy as [x [<- Hx]]. now apply Ha.
Qed.

Lemma StronglySorted_weaken {A} (R R' : A -> A -> Prop) l :
  (forall x y, In x l -> In y l -> R x y -> R' x y) ->
  StronglySorted R l -> StronglySorted R' l.
Proof.
  intros HR Hs. induction Hs as [|a l Hs IH Ha]; constructor.
  - apply IH. intros x y Hx Hy. apply HR; now right.
  - rewrite Forall_forall in *. intros y Hy.
    apply HR; [now left | now right | now apply Ha].
Qed.

Lemma StronglySorted_app_elim {A} (R : A -> A -> Prop) l1 l2 :
  StronglySorted R (l1 ++ l2) ->
  forall x y, In x l1 -> In y l2 -> R x y.
Proof.
  induction l1 as [|a l1 IH]; simpl; intros H x y Hx Hy; [tauto|].
  inversion H as [|? ? Hs Ha]; subst.
  destruct Hx as [<- | Hx].
  - rewrite Forall_forall in Ha. apply Ha. apply in_or_app. now right.
  - now apply IH.
Qed.

Section Argsort.

Context {numpy : Numpy}.

Lemma argsort_perm a : Permutation (argsort a) (seq 0 (length a)).
Proof. apply argsort_permutation. Qed.

Lemma argsort_length a : length (argsort a) = length a.
Proof.
  rewrite (Permutation_length (argsort_perm a)). apply length_seq.
Qed.

(** The indices come by ascending value. *)
Lemma argsort_ascending a :
  StronglySorted (fun i j => (nth i a 0 <= nth j a 0)%Q) (argsort a).
Proof.
  apply (StronglySorted_map_inv (fun i => nth i a 0%Q) Qle).
  apply (Forall2_sorted _ (np_sort a)); [apply argsort_sorts | apply np_sort_sorted].
Qed.

(** The last index of [np.argsort] is the index of a maximal entry. *)
Lemma argsort_last a k :
  last_index (argsort a) = Some k ->
  (k < length a)%nat /\
  forall i, (i < length a)%nat -> (nth i a 0 <= nth k a 0)%Q.
Proof.
  unfold last_index. intros H.
  destruct (rev (argsort a)) as [|k' l] eqn:E; [discriminate|].
  injection H as ->.
  assert (Ea : argsort a = rev l ++ [k]).
  { rewrite <- (rev_involutive (argsort a)), E. reflexivity. }
  assert (Hin : forall i, (i < length a)%nat -> In i (argsort a)).
  { intros i Hi. apply (Permutation_in _ (Permutation_sym (argsort_perm a))).
    apply in_seq. lia. }
  split.
  - assert (Hk : In k (argsort a)) by (rewrite Ea; apply in_or_app; right; now left).
    apply (Permutation_in _ (argsort_perm a)) in Hk. apply in_seq in Hk. lia.
  - intros i Hi. specialize (Hin i Hi). rewrite Ea in Hin.
    apply in_app_or in Hin. destruct Hin as [Hin | [<- | []]]; [|apply Qle_refl].
    pose proof (argsort_ascending a) as Hs. rewrite Ea in Hs.
    apply (StronglySorted_app_elim _ _ _ Hs); [assumption | now left].
Qed.

Lemma argsort_nonempty a : a <> [] -> exists k, last_index (argsort a) = Some k.
Proof.
  intros Ha. unfold last_index.
  destruct (rev (argsort a)) as [|k l] eqn:E; [|now exists k].
  apply (f_equal (@length nat)) in E. rewrite length_rev, argsort_length in E.
  destruct a; [contradiction | discriminate].
Qed.

End Argsort.


(** * From indexed loops to folds over the ranked pairs *)

Lemma fold_left_ext_in {A B} (f g : A -> B -> A) l a :
  (forall a x, In x l -> f a x = g a x) -> fold_left f l a = fold_left g l a.
Proof.
  revert a. induction l as [|x l IH]; intros a H; simpl; [reflexivity|].
  rewrite H by now left. apply IH. intros; apply H; now right.
Qed.

Lemma fold_seq_nth {A St} (g : A -> St -> St) (d : A) l k st :
  fold_left (fun st i => g (nth (i - k) l d) st) (seq k (length l)) st
  = fold_left (fun st x => g x st) l st.
Proof.
  revert k st. induction l as [|x l IH]; intros k st; simpl; [reflexivity|].
  rewrite Nat.sub_diag. rewrite <- (IH (S k)).
  apply fold_left_ext_in. intros a i Hi. apply in_seq in Hi.
  replace (i - k)%nat with (S (i - S k)) by lia. reflexivity.
Qed.

Lemma for_range_combine {St} (f : Q -> Z -> St -> St) xs ys st :
  length xs = length ys ->
  for_range (length ys) (fun i => f (nth i xs 0%Q) (nth i ys 0)) st
  = fold_left (fun st p => f (fst p) (snd p) st) (combine xs ys) st.
Proof.
  intros Hlen. unfold for_range.
  rewrite <- (fold_seq_nth (fun p st => f (fst p) (snd p) st) (0%Q, 0) (combine xs ys) 0).
  rewrite length_combine, Hlen, Nat.min_id.
  apply fold_left_ext_in. intros a i _.
  rewrite Nat.sub_0_r, combine_nth by assumption. reflexivity.
Qed.

Lemma for_range_nth {St} (f : Z -> St -> St) ys st :
  for_range (length ys) (fun i => f (nth i ys 0)) st
  = fold_left (fun st y => f y st) ys st.
Proof.
  unfold for_range. rewrite <- (fold_seq_nth f 0 ys 0).
  apply fold_left_ext_in. intros a i _. now rewrite Nat.sub_0_r.
Qed.

Lemma traverse_getitem labels idx :
  Forall (fun i => (i < length labels)%nat) idx ->
  traverse (getitem (Some labels)) idx = Ok (map (fun i => nth i labels 0) idx).
Proof.
  induction 1 as [|i idx Hi _ IH]; simpl; [reflexivity|].
  rewrite IH. destruct (nth_error labels i) eqn:E.
  - simpl. now rewrite (nth_error_nth _ _ 0 E).
  - apply nth_error_None in E. lia.
Qed.

Lemma traverse_length {A B} (f : A -> result B) l r :
  traverse f l = Ok r -> length r = length l.
Proof.
  revert r. induction l as [|x l IH]; simpl; intros r H.
  - now inversion H.
  - destruct (f x); simpl in H; [|discriminate].
    destruct (traverse f l); simpl in H; [|discriminate].
    inversion H; subst. simpl. now rewrite (IH _ eq_refl).
Qed.

Lemma filter_all {A} (f : A -> bool) l :
  Forall (fun x => f x = true) l -> filter f l = l.
Proof.
  induction 1 as [|x l Hx _ IH]; cbn [filter]; [reflexivity|].
  now rewrite Hx, IH.
Qed.

Lemma filter_none {A} (f : A -> bool) l :
  Forall (fun x => f x = false) l -> filter f l = [].
Proof.
  induction 1 as [|x l Hx _ IH]; cbn [filter]; [reflexivity|]. now rewrite Hx.
Qed.

Lemma Forall2_Qeq_sym (u v : list Q) : Forall2 Qeq u v -> Forall2 Qeq v u.
Proof.
  induction 1; constructor; [now symmetry | assumption].
Qed.

Lemma map_nth_seq (a : list Q) (b : list Z) :
  (length a <= length b)%nat ->
  map (fun i => (nth i a 0%Q, nth i b 0)) (seq 0 (length a)) = combine a b.
Proof.
  revert b. induction a as [|x a IH]; intros b Hlen; [reflexivity|].
  destruct b as [|y b]; [simpl in Hlen; lia|].
  cbn [length seq map nth combine]. f_equal.
  rewrite <- seq_shift, map_map. cbn [nth].
  apply IH. simpl in Hlen. lia.
Qed.

Lemma skipn_nth_cons {A} (d : A) l k :
  (k < length l)%nat -> skipn k l = nth k l d :: skipn (S k) l.
Proof.
  revert k. induction l as [|x l IH]; intros k Hk; simpl in Hk; [lia|].
  destruct k as [|k]; [reflexivity|].
  simpl. apply IH. lia.
Qed.

Lemma Qeq_bool_compat a a' b b' :
  (a == a')%Q -> (b == b')%Q -> Qeq_bool a b = Qeq_bool a' b'.
Proof.
  intros Ha Hb.
  destruct (Qeq_bool a b) eqn:E, (Qeq_bool a' b') eqn:E'; try reflexivity.
  - apply Qeq_bool_iff in E. rewrite Ha, Hb in E. apply Qeq_bool_iff in E. congruence.
  - apply Qeq_bool_iff in E'. rewrite <- Ha, <- Hb in E'. apply Qeq_bool_iff in E'.
    congruence.
Qed.

Lemma auc_step_compat x x' l st st' :
  (x == x')%Q -> sweep_eq st st' -> sweep_eq (auc_step x l st) (auc_step x' l st').
Proof.
  intros Hx (H1 & H2 & H3 & H4 & H5 & H6). unfold auc_step, py_ne.
  rewrite (Qeq_bool_compat x x' _ _ Hx H6).
  destruct (Qeq_bool x' (score_prev st')), (l =? 1); cbn [negb];
    unfold sweep_eq; cbn; rewrite ?H1, ?H2, ?H3, ?H4, ?H5;
    repeat split; try assumption; try reflexivity.
Qed.

Lemma sweep_over_compat P P' st st' :
  same_pairs P P' -> sweep_eq st st' ->
  sweep_eq (sweep_over P st) (sweep_over P' st').
Proof.
  intros HP. revert st st'.
  induction HP as [|p q P P' [Hf Hs] _ IH]; intros st st' Hst; [assumption|].
  cbn [sweep_over fold_left]. apply IH. rewrite Hs.
  now apply auc_step_compat.
Qed.

Lemma sweep_eq_refl st : sweep_eq st st.
Proof. unfold sweep_eq. repeat split; reflexivity. Qed.

Lemma same_pairs_combine (S : list Q) (R : list (Q * Z)) :
  Forall2 Qeq S (map fst R) -> same_pairs (combine S (map snd R)) R.
Proof.
  revert S. induction R as [|r R IH]; intros S H.
  - inversion H; subst. constructor.
  - inversion H as [|x ? S' ? Hx HS]; subst.
    cbn [map combine]. constructor; [now split | now apply IH].
Qed.

Section Bridge.

Context {numpy : Numpy}.

Lemma sorted_indices_perm s :
  Permutation (sorted_indices s) (seq 0 (length (molecules s))).
Proof.
  unfold sorted_indices. rewrite <- Permutation_rev, argsort_perm.
  now rewrite length_map.
Qed.

Lemma sorted_indices_bound s :
  Forall (fun i => (i < length (molecules s))%nat) (sorted_indices s).
Proof.
  rewrite Forall_forall. intros i Hi.
  apply (Permutation_in _ (sorted_indices_perm s)) in Hi.
  apply in_seq in Hi. lia.
Qed.

Lemma sorted_labels_ranked s labels :
  bioactivities s = Some labels ->
  (length (molecules s) <= length labels)%nat ->
  sorted_labels s = Ok (map snd (ranked (scores_of s) labels)).
Proof.
  intros Hb Hlen. unfold sorted_labels, take. rewrite Hb.
  rewrite traverse_getitem.
  - f_equal. unfold ranked, sorted_indices, scores_of.
    rewrite map_map. reflexivity.
  - eapply Forall_impl; [|apply sorted_indices_bound]. simpl. intros; lia.
Qed.

(** The sorted scores are the scores of the records in the order of
    the sweep. *)
Lemma sorted_scores_ranked s labels :
  Forall2 Qeq (sorted_scores s) (map fst (ranked (scores_of s) labels)).
Proof.
  unfold sorted_scores, ranked. fold (scores_of s).
  rewrite map_map. cbn [fst]. rewrite map_rev.
  apply Forall2_rev, Forall2_Qeq_sym, argsort_sorts.
Qed.

Lemma ranked_perm scores labels :
  (length scores <= length labels)%nat ->
  Permutation (ranked scores labels) (combine scores labels).
Proof.
  intros Hlen. unfold ranked.
  rewrite <- (map_nth_seq scores labels Hlen).
  apply Permutation_map. rewrite <- Permutation_rev. apply argsort_perm.
Qed.

Lemma ranked_length scores labels : length (ranked scores labels) = length scores.
Proof.
  unfold ranked. now rewrite length_map, length_rev, argsort_length.
Qed.

(** The sweeps visit the records by descending score. *)
Lemma ranked_descending scores labels :
  StronglySorted (fun x y => (fst y <= fst x)%Q) (ranked scores labels).
Proof.
  unfold ranked. apply StronglySorted_map. cbn [fst].
  apply (StronglySorted_rev (fun i j => (nth i scores 0 <= nth j scores 0)%Q)).
  apply argsort_ascending.
Qed.

(** The loop of [AUC] over the sorted scores and labels ends as the
    sweep over the ranked pairs does. *)
Lemma sweep_ranked s labels :
  sweep_eq
    (sweep_over (combine (sorted_scores s) (map snd (ranked (scores_of s) labels)))
                sweep_start)
    (sweep_over (ranked (scores_of s) labels) sweep_start).
Proof.
  apply sweep_over_compat; [|apply sweep_eq_refl].
  apply same_pairs_combine, sorted_scores_ranked.
Qed.

End Bridge.

(** * Sessions after scoring *)

Section Sessions.

Context {T : Toolkit}.

Lemma fresh_fields s :
  fresh s ->
  molecules s = [] /\ n_molecules s = 0 /\ bioactivities s = None /\
  n_actives s = 0 /\ n_inactives s = 0 /\
  (scoring_metric s = Similarity -> exists k, similarity_fn s = Some k).
Proof.
  intros [p [kind H]]. destruct p; simpl in H; inversion H; subst; simpl;
    repeat split; try discriminate. intros _. now exists kind.
Qed.

Lemma similarity_loop_fields (f : Mol -> MolScore) mols s :
  let s' := fold_left (fun self m => append self (f m)) mols s in
  molecules s' = molecules s ++ map f mols /\
  scoring_metric s' = scoring_metric s /\
  similarity_fn s' = similarity_fn s /\
  n_actives s' = n_actives s /\
  n_inactives s' = n_inactives s /\
  bioactivities s' = bioactivities s /\
  n_molecules s' = n_molecules s.
Proof.
  revert s. induction mols as [|m mols IH]; intros s; simpl.
  - rewrite app_nil_r. repeat split.
  - destruct (IH (append s (f m))) as (H1 & H2 & H3 & H4 & H5 & H6 & H7).
    simpl in *. rewrite H1, <- app_assoc. repeat split; assumption.
Qed.

Lemma align_loop_fields mols s s' :
  align_loop mols s = (Ok tt, s') ->
  (exists recs, molecules s' = molecules s ++ recs /\
                (length recs <= length mols)%nat) /\
  scoring_metric s' = scoring_metric s /\
  similarity_fn s' = similarity_fn s /\
  n_actives s' = n_actives s /\
  n_inactives s' = n_inactives s /\
  bioactivities s' = bioactivities s /\
  n_molecules s' = n_molecules s.
Proof.
  revert s. induction mols as [|m mols IH]; intros s H; simpl in H.
  - inversion H; subst. split; [exists []; rewrite app_nil_r; split; simpl; auto|].
    repeat split.
  - destruct (align m) as [[r|]|e]; [| |discriminate].
    + apply IH in H. destruct H as ([recs [Hm Hl]] & H2 & H3 & H4 & H5 & H6 & H7).
      simpl in *. split; [|repeat split; assumption].
      exists (r :: recs). rewrite Hm, <- app_assoc. split; simpl; [reflexivity | lia].
    + apply IH in H. destruct H as ([recs [Hm Hl]] & Hrest).
      split; [|assumption]. exists recs. split; simpl; [assumption | lia].
Qed.

(** The outcome of loading labels and scoring on a fresh session. *)
Lemma from_bioactivity_data_fresh s0 smiles labels s :
  fresh s0 -> binary labels ->
  from_bioactivity_data smiles (Rank1 labels) s0 = (Ok tt, s) ->
  labelled s labels /\
  length smiles = length labels /\
  scoring_metric s = scoring_metric s0 /\
  n_molecules s = Z.of_nat (length labels) /\
  (scoring_metric s = Similarity -> length (molecules s) = length labels).
Proof.
  intros Hf Hb H. apply fresh_fields in Hf.
  destruct Hf as (Hm & Hn & _ & _ & _ & Hk).
  unfold from_bioactivity_data in H.
  destruct (length smiles =? length labels)%nat eqn:El; simpl in H; [|discriminate].
  apply Nat.eqb_eq in El.
  destruct (traverse parse smiles) as [mols|e] eqn:Ep; [|discriminate].
  apply traverse_length in Ep.
  destruct (scoring_metric s0) eqn:Em.
  - unfold _align_molecules in H. apply align_loop_fields in H.
    destruct H as ([recs [Hr Hl]] & H2 & H3 & H4 & H5 & H6 & H7).
    simpl in *. rewrite Hm in Hr. simpl in Hr.
    unfold labelled. rewrite Hr, H4, H5, H6, H7, H2, Hn.
    repeat split; try assumption; try lia.
    intros; congruence.
  - unfold _fingerprint_similarity in H. simpl in H.
    destruct (Hk eq_refl) as [k Hk']. rewrite Hk' in H.
    inversion H as [Hs]. clear H.
    match goal with
    | |- context [fold_left ?f mols ?a] =>
        pose proof (similarity_loop_fields
          (fun m => {| score := match k with
                                | tanimoto => TanimotoSimilarity
                                | dice => DiceSimilarity
                                end m;
                       id := prop_Name m; mol := m |}) mols a) as F
    end.
    simpl in F. destruct F as (F1 & F2 & F3 & F4 & F5 & F6 & F7).
    unfold labelled. rewrite F1, F2, F4, F5, F6, F7, Hm. simpl.
    rewrite length_map.
    repeat split; try assumption; try lia.
Qed.

Lemma traverse_parse_names smiles mols :
  traverse parse smiles = Ok mols -> map prop_Name mols = map fst smiles.
Proof.
  revert mols. induction smiles as [|entry smiles IH]; intros mols H; simpl in H.
  - now inversion H.
  - unfold parse at 1 in H. destruct (MolFromSmiles (snd entry)); [|discriminate].
    cbn [bind] in H. destruct (traverse parse smiles) as [ms|]; [|discriminate].
    cbn [bind] in H. inversion H; subst. cbn [map SetProp_Name prop_Name].
    now rewrite (IH ms eq_refl).
Qed.

(** The outcome of a successful [from_bioactivity_data] on any session:
    the labels and their totals are replaced, the store is extended. *)
Lemma from_bioactivity_data_ok s smiles labels s' :
  from_bioactivity_data smiles (Rank1 labels) s = (Ok tt, s') ->
  length smiles = length labels /\
  bioactivities s' = Some labels /\
  n_actives s' = np_sum labels /\
  n_inactives s' = Z.of_nat (length labels) - np_sum labels /\
  scoring_metric s' = scoring_metric s /\
  similarity_fn s' = similarity_fn s /\
  exists recs,
    molecules s' = molecules s ++ recs /\
    match scoring_metric s with
    | Similarity =>
        n_molecules s' = Z.of_nat (length labels) /\
        map id recs = map fst smiles
    | SSD =>
        n_molecules s' = n_molecules s + Z.of_nat (length labels) /\
        (length recs <= length labels)%nat
    end.
Proof.
  intros H. unfold from_bioactivity_data in H.
  destruct (length smiles =? length labels)%nat eqn:El; simpl in H; [|discriminate].
  apply Nat.eqb_eq in El.
  destruct (traverse parse smiles) as [mols|e] eqn:Ep; [|discriminate].
  pose proof (traverse_length _ _ _ Ep) as Hlen.
  apply traverse_parse_names in Ep.
  destruct (scoring_metric s) eqn:Em.
  - unfold _align_molecules in H. apply align_loop_fields in H.
    destruct H as ([recs [Hr Hl]] & H2 & H3 & H4 & H5 & H6 & H7).
    simpl in *. repeat (split; [congruence|]).
    exists recs. split; [assumption|]. split; [lia | lia].
  - unfold _fingerprint_similarity in H. simpl in H.
    destruct (similarity_fn s) as [k|] eqn:Ek; [|discriminate].
    inversion H as [Hs]. clear H.
    match goal with
    | |- context [fold_left ?f mols ?a] =>
        pose proof (similarity_loop_fields
          (fun m => {| score := match k with
                                | tanimoto => TanimotoSimilarity
                                | dice => DiceSimilarity
                                end m;
                       id := prop_Name m; mol := m |}) mols a) as F
    end.
    simpl in F. destruct F as (F1 & F2 & F3 & F4 & F5 & F6 & F7).
    repeat (split; [congruence|]).
    eexists. split; [exact F1|]. split; [lia|].
    rewrite map_map. cbn [id]. exact Ep.
Qed.

(** Whether scoring succeeds does not depend on what the session
    already holds. *)
Lemma align_loop_outcome mols s s' :
  fst (align_loop mols s) = fst (align_loop mols s').
Proof.
  revert s s'. induction mols as [|m mols IH]; intros s s'; simpl; [reflexivity|].
  destruct (align m) as [[r|]|e]; [apply IH | apply IH | reflexivity].
Qed.

Lemma from_bioactivity_data_outcome smiles activity s s' :
  scoring_metric s = scoring_metric s' ->
  similarity_fn s = similarity_fn s' ->
  fst (from_bioactivity_data smiles activity s)
  = fst (from_bioactivity_data smiles activity s').
Proof.
  intros Hm Hk. unfold from_bioactivity_data.
  destruct activity as [labels|]; [|reflexivity].
  destruct (negb (length smiles =? length labels)%nat); [reflexivity|].
  destruct (traverse parse smiles) as [mols|e]; [|reflexivity].
  cbn [set_labels scoring_metric]. rewrite <- Hm.
  destruct (scoring_metric s).
  - unfold _align_molecules. apply align_loop_outcome.
  - unfold _fingerprint_similarity. cbn [set_labels similarity_fn].
    rewrite <- Hk. destruct (similarity_fn s); reflexivity.
Qed.

End Sessions.

Lemma populated_labelled s :
  populated s ->
  exists labels,
    labelled s labels /\
    n_molecules s = Z.of_nat (length labels) /\
    (scoring_metric s = Similarity -> length (molecules s) = length labels).
Proof.
  intros (T & s0 & smiles & labels & Hf & Hb & H).
  exists labels.
  destruct (from_bioactivity_data_fresh s0 smiles labels s Hf Hb H)
    as (H1 & _ & _ & H4 & H5).
  split; [assumption | split; assumption].
Qed.

(** * Counting actives, inactives and ranked pairs *)

Lemma positives_app l1 l2 : positives (l1 ++ l2) = positives l1 + positives l2.
Proof. induction l1 as [|p l1 IH]; simpl; [reflexivity | rewrite IH; lia]. Qed.

Lemma negatives_app l1 l2 : negatives (l1 ++ l2) = negatives l1 + negatives l2.
Proof. induction l1 as [|p l1 IH]; simpl; [reflexivity | rewrite IH; lia]. Qed.

Lemma positives_nonneg l : 0 <= positives l.
Proof. induction l as [|p l IH]; simpl; [lia | destruct (snd p =? 1); lia]. Qed.

Lemma negatives_nonneg l : 0 <= negatives l.
Proof. induction l as [|p l IH]; simpl; [lia | destruct (snd p =? 1); lia]. Qed.

Lemma positives_perm l1 l2 : Permutation l1 l2 -> positives l1 = positives l2.
Proof. induction 1; simpl; lia. Qed.

Lemma negatives_perm l1 l2 : Permutation l1 l2 -> negatives l1 = negatives l2.
Proof. induction 1; simpl; lia. Qed.

Lemma weight_bounds a b : 0 <= weight a b <= 2.
Proof. unfold weight. destruct (py_gt a b), (Qeq_bool a b); lia. Qed.

Lemma weight_above a b : (b < a)%Q -> weight a b = 2.
Proof. intros H. unfold weight. apply py_gt_iff in H. now rewrite H. Qed.

Lemma weight_tie a b : (a == b)%Q -> weight a b = 1.
Proof.
  intros H. unfold weight.
  destruct (py_gt a b) eqn:E.
  - apply py_gt_iff in E. rewrite H in E. now apply Qlt_irrefl in E.
  - apply Qeq_bool_iff in H. now rewrite H.
Qed.

Lemma weight_below a b : (a < b)%Q -> weight a b = 0.
Proof.
  intros H. unfold weight.
  destruct (py_gt a b) eqn:E.
  - apply py_gt_iff in E. exfalso. apply (Qlt_irrefl a).
    now apply Qlt_trans with b.
  - destruct (Qeq_bool a b) eqn:E'; [|reflexivity].
    apply Qeq_bool_iff in E'. rewrite E' in H. now apply Qlt_irrefl in H.
Qed.

Lemma row_app a B1 B2 : row a (B1 ++ B2) = row a B1 + row a B2.
Proof. induction B1 as [|b B1 IH]; simpl; [reflexivity | rewrite IH; lia]. Qed.

Lemma cross_app_l A1 A2 B : cross (A1 ++ A2) B = cross A1 B + cross A2 B.
Proof. induction A1 as [|a A1 IH]; simpl; [reflexivity | rewrite IH; lia]. Qed.

Lemma cross_app_r A B1 B2 : cross A (B1 ++ B2) = cross A B1 + cross A B2.
Proof.
  induction A as [|a A IH]; simpl; [reflexivity|].
  rewrite IH. destruct (snd a =? 1); [rewrite row_app|]; lia.
Qed.

Lemma cross_nil_r A : cross A [] = 0.
Proof. induction A as [|a A IH]; simpl; [reflexivity|]. destruct (snd a =? 1); lia. Qed.

Lemma row_perm a B1 B2 : Permutation B1 B2 -> row a B1 = row a B2.
Proof. induction 1; simpl; lia. Qed.

Lemma cross_perm_r A B1 B2 : Permutation B1 B2 -> cross A B1 = cross A B2.
Proof.
  intros H. induction A as [|a A IH]; simpl; [reflexivity|].
  rewrite IH, (row_perm _ _ _ H). reflexivity.
Qed.

Lemma cross_perm_l A1 A2 B : Permutation A1 A2 -> cross A1 B = cross A2 B.
Proof. induction 1; simpl; lia. Qed.

Lemma cross_perm l1 l2 : Permutation l1 l2 -> cross l1 l1 = cross l2 l2.
Proof.
  intros H. rewrite (cross_perm_l _ _ _ H). now apply cross_perm_r.
Qed.

(** When every (active, inactive) pair has the same weight, the total
    is that weight times the number of pairs. *)
Lemma row_const c a B :
  (forall b, In b B -> snd b <> 1 -> weight a (fst b) = c) ->
  row a B = c * negatives B.
Proof.
  induction B as [|b B IH]; intros H; simpl; [lia|].
  rewrite IH by (intros; apply H; [now right | assumption]).
  destruct (snd b =? 1) eqn:E; [lia|].
  rewrite (H b); [lia | now left | now apply Z.eqb_neq].
Qed.

Lemma cross_const c A B :
  (forall a b, In a A -> In b B -> snd a = 1 -> snd b <> 1 ->
               weight (fst a) (fst b) = c) ->
  cross A B = c * positives A * negatives B.
Proof.
  induction A as [|a A IH]; intros H; simpl; [lia|].
  rewrite IH by (intros; apply H; auto; now right).
  destruct (snd a =? 1) eqn:E; [|lia].
  rewrite (row_const c).
  - lia.
  - intros b Hb Hn. apply H; auto; [now left | now apply Z.eqb_eq].
Qed.

Lemma row_bounds a B : 0 <= row a B <= 2 * negatives B.
Proof.
  induction B as [|b B IH]; cbn [row negatives]; [lia|].
  pose proof (weight_bounds a (fst b)). destruct (snd b =? 1); lia.
Qed.

Lemma cross_bounds A B : 0 <= cross A B <= 2 * positives A * negatives B.
Proof.
  induction A as [|a A IH]; cbn [cross positives]; [lia|].
  pose proof (row_bounds (fst a) B). pose proof (negatives_nonneg B).
  destruct (snd a =? 1); nia.
Qed.

(** Labels and totals of a session. *)
Lemma binary_sum_bounds labels :
  binary labels -> 0 <= np_sum labels <= Z.of_nat (length labels).
Proof.
  induction 1 as [|b labels Hb _ IH]; [simpl; lia|].
  cbn [np_sum fold_right length]. fold (np_sum labels).
  rewrite Nat2Z.inj_succ. destruct Hb as [-> | ->]; lia.
Qed.

Lemma combine_totals (scores : list Q) labels :
  binary labels ->
  positives (combine scores labels) <= np_sum labels /\
  negatives (combine scores labels) <= Z.of_nat (length labels) - np_sum labels.
Proof.
  intros Hb. revert scores.
  induction Hb as [|b labels Hb Hbs IH]; intros scores.
  - destruct scores; simpl; lia.
  - pose proof (binary_sum_bounds labels Hbs) as Hs.
    destruct scores as [|q scores];
      cbn [combine positives negatives snd np_sum fold_right length];
      fold (np_sum labels); rewrite Nat2Z.inj_succ.
    + lia.
    + specialize (IH scores).
      destruct (b =? 1) eqn:E; [apply Z.eqb_eq in E | apply Z.eqb_neq in E]; lia.
Qed.

Lemma combine_totals_paired (scores : list Q) labels :
  binary labels -> length scores = length labels ->
  positives (combine scores labels) = np_sum labels /\
  negatives (combine scores labels) = Z.of_nat (length labels) - np_sum labels.
Proof.
  intros Hb. revert scores.
  induction Hb as [|b labels Hb Hbs IH]; intros scores Hlen.
  - destruct scores; simpl; [lia | discriminate].
  - destruct scores as [|q scores]; [discriminate|].
    injection Hlen as Hlen. specialize (IH scores Hlen).
    cbn [combine positives negatives snd np_sum fold_right length].
    fold (np_sum labels). rewrite Nat2Z.inj_succ.
    destruct (b =? 1) eqn:E; [apply Z.eqb_eq in E | apply Z.eqb_neq in E]; lia.
Qed.

(** * The sweep of [AUC] *)

Lemma trapezoid_counts a b c d :
  b <= a -> 0 <= c + d ->
  (2 * trapezoid_area (inject_Z a) (inject_Z b) (inject_Z c) (inject_Z d)
   == inject_Z ((a - b) * (c + d)))%Q.
Proof.
  intros Hab Hcd. unfold trapezoid_area.
  rewrite (Qabs_pos (inject_Z a - inject_Z b)).
  - rewrite (Qabs_pos (inject_Z c + inject_Z d)).
    + unfold Z.sub. rewrite inject_Z_mult, !inject_Z_plus, inject_Z_opp. field.
    + rewrite <- inject_Z_plus. change 0%Q with (inject_Z 0).
      rewrite <- Zle_Qle. assumption.
  - unfold Qminus. rewrite <- inject_Z_opp, <- inject_Z_plus.
    change 0%Q with (inject_Z 0). rewrite <- Zle_Qle. lia.
Qed.

(** The pairs of a prefix that ends in a run of equal scores. *)
Lemma cross_split B G sp :
  Forall (fun g => (fst g == sp)%Q) G ->
  Forall (fun b => (sp < fst b)%Q) B ->
  cross (B ++ G) (B ++ G)
  = cross B B + negatives G * (2 * positives B + positives G).
Proof.
  intros HG HB. rewrite Forall_forall in HG, HB.
  rewrite cross_app_l, !cross_app_r.
  rewrite (cross_const 2 B G), (cross_const 0 G B), (cross_const 1 G G).
  - lia.
  - intros a b Ha Hb _ _. apply weight_tie.
    rewrite (HG a Ha), (HG b Hb). reflexivity.
  - intros a b Ha Hb _ _. apply weight_below.
    rewrite (HG a Ha). now apply HB.
  - intros a b Ha Hb _ _. apply weight_above.
    rewrite (HG b Hb). now apply HB.
Qed.

Lemma sweep_inv_start : sweep_inv [] sweep_start.
Proof.
  exists [], []. simpl. repeat split; auto; reflexivity.
Qed.

Lemma sweep_inv_step P st x :
  sweep_inv P st ->
  Forall (fun p => (fst x <= fst p)%Q) P ->
  sweep_inv (P ++ [x]) (auc_step (fst x) (snd x) st).
Proof.
  intros (B & G & HP & HGB & Hfp & Htp & Hfpp & Htpp & Harea & HG & HB) Hx.
  assert (Hcount : negatives (P ++ [x]) =
                   negatives P + (if snd x =? 1 then 0 else 1) /\
                   positives (P ++ [x]) =
                   positives P + (if snd x =? 1 then 1 else 0)).
  { rewrite negatives_app, positives_app. cbn [negatives positives]. lia. }
  destruct Hcount as [Hn Hp].
  unfold auc_step. destruct (py_ne (fst x) (score_prev st)) eqn:E.
  - (* the score changes: the run [G] is closed *)
    apply py_ne_true in E.
    assert (Hlt : Forall (fun b => (fst x < fst b)%Q) P).
    { rewrite Forall_forall in *. intros p Hp'. subst P.
      apply in_app_or in Hp'.
      assert (HxG : forall g, In g G -> (fst x < fst g)%Q).
      { intros g Hg. pose proof (HG g Hg) as Hgs.
        assert (fst x <= fst g)%Q by (apply Hx, in_or_app; now right).
        apply Qle_lt_or_eq in H. destruct H as [H | H]; [assumption|].
        exfalso. apply E. rewrite H. assumption. }
      destruct Hp' as [Hb | Hg]; [|now apply HxG].
      destruct G as [|g G']; [rewrite (HGB eq_refl) in Hb; destruct Hb|].
      apply Qlt_trans with (fst g); [apply HxG; now left|].
      rewrite (HG g (or_introl eq_refl)). now apply HB. }
    exists P, [x].
    destruct (snd x =? 1); cbn [sw_false_positives sw_true_positives
      false_pos_prev true_pos_prev area score_prev];
      (split; [reflexivity|]); (split; [discriminate|]);
      (split; [lia|]); (split; [lia|]);
      (split; [assumption|]); (split; [assumption|]);
      (split; [|split; [repeat constructor; reflexivity | assumption]]).
    all: rewrite Qmult_plus_distr_r, Harea, trapezoid_counts;
      [ rewrite <- inject_Z_plus; apply inject_Z_injective;
        rewrite Hfp, Htp, Hfpp, Htpp; subst P;
        rewrite (cross_split B G (score_prev st) HG HB);
        rewrite negatives_app, positives_app; lia
      | rewrite Hfp, Hfpp; subst P; rewrite negatives_app;
        pose proof (negatives_nonneg G); lia
      | rewrite Htp, Htpp; pose proof (positives_nonneg P);
        pose proof (positives_nonneg B); lia ].
  - (* the score is that of the current run *)
    apply py_ne_false in E.
    exists B, (G ++ [x]).
    destruct (snd x =? 1); cbn [sw_false_positives sw_true_positives
      false_pos_prev true_pos_prev area score_prev];
      (split; [subst P; now rewrite app_assoc|]);
      (split; [intros HH; now apply app_eq_nil in HH|]);
      (split; [lia|]); (split; [lia|]);
      (split; [assumption|]); (split; [assumption|]);
      (split; [assumption|]);
      (split; [|assumption]);
      apply Forall_app; split; auto.
Qed.

Lemma sweep_over_inv L :
  forall P st,
    sweep_inv P st ->
    StronglySorted (fun x y => (fst y <= fst x)%Q) (P ++ L) ->
    sweep_inv (P ++ L) (sweep_over L st).
Proof.
  induction L as [|x L IH]; intros P st Hinv Hs.
  - now rewrite app_nil_r.
  - change (sweep_over (x :: L) st)
      with (sweep_over L (auc_step (fst x) (snd x) st)).
    replace (P ++ x :: L) with ((P ++ [x]) ++ L) in * by now rewrite <- app_assoc.
    apply IH; [|assumption].
    apply sweep_inv_step; [assumption|].
    rewrite Forall_forall. intros p Hp.
    rewrite <- app_assoc in Hs.
    apply (StronglySorted_app_elim _ _ _ Hs p x Hp). now left.
Qed.

Lemma sweep_final L :
  StronglySorted (fun x y => (fst y <= fst x)%Q) L ->
  sweep_inv L (sweep_over L sweep_start).
Proof.
  intros Hs. apply (sweep_over_inv L [] sweep_start sweep_inv_start Hs).
Qed.

(** * The value of [AUC] *)

Lemma combine_fst_snd {A B} (l : list (A * B)) : combine (map fst l) (map snd l) = l.
Proof.
  induction l as [|[a b] l IH]; simpl; [reflexivity | now rewrite IH].
Qed.

Lemma sorted_scores_length s : length (sorted_scores s) = length (molecules s).
Proof.
  unfold sorted_scores.
  rewrite length_rev, (Permutation_length (np_sort_perm _)). apply length_map.
Qed.

Lemma AUC_ranked {numpy : Numpy} s labels :
  labelled s labels ->
  AUC s =
  (let st := sweep_over (ranked (scores_of s) labels) sweep_start in
   let a := true_divide (final_area s st) (inject_Z (n_inactives s * n_actives s)) in
   if np_ge a 0 && np_le a 1 then Ok a else Raise AssertionError).
Proof.
  intros (Hb & _ & _ & _ & Hlen). unfold AUC.
  rewrite (sorted_labels_ranked s labels Hb Hlen). cbn [bind].
  rewrite for_range_combine
    by (rewrite sorted_scores_length, length_map, ranked_length;
        unfold scores_of; now rewrite length_map).
  match goal with
  | |- context [fold_left ?f ?l sweep_start] =>
      change (fold_left f l sweep_start) with (sweep_over l sweep_start)
  end.
  destruct (sweep_ranked s labels) as (_ & _ & H3 & H4 & H5 & _).
  cbv zeta. unfold final_area. rewrite H3, H4, H5. reflexivity.
Qed.

(** Twice the area before normalisation is an integer between [0]
    and twice the number of (active, inactive) pairs. *)
Lemma total_area L st N Pn :
  sweep_inv L st ->
  negatives L <= N -> positives L <= Pn ->
  exists t2 : Z,
    (2 * (area st +
          trapezoid_area (inject_Z N) (inject_Z (false_pos_prev st))
                         (inject_Z Pn) (inject_Z (true_pos_prev st)))
     == inject_Z t2)%Q /\
    0 <= t2 <= 2 * (N * Pn) /\
    (N = negatives L -> Pn = positives L -> t2 = cross L L) /\
    ((forall p q, In p L -> In q L -> (fst p == fst q)%Q) -> t2 = N * Pn).
Proof.
  intros (B & G & HP & HGB & Hfp & Htp & Hfpp & Htpp & Harea & HG & HB) HN HPn.
  pose proof (negatives_nonneg B) as HnB. pose proof (positives_nonneg B) as HpB.
  pose proof (negatives_nonneg G) as HnG. pose proof (positives_nonneg G) as HpG.
  pose proof (cross_bounds B B) as HcB.
  assert (HL : negatives L = negatives B + negatives G /\
               positives L = positives B + positives G).
  { subst L. now rewrite negatives_app, positives_app. }
  destruct HL as [HLn HLp].
  exists (cross B B + (N - negatives B) * (Pn + positives B)).
  split; [|split; [|split]].
  - rewrite Qmult_plus_distr_r, Harea, trapezoid_counts, Hfpp, Htpp by lia.
    now rewrite <- inject_Z_plus.
  - nia.
  - intros -> ->. subst L.
    rewrite (cross_split B G (score_prev st) HG HB).
    rewrite negatives_app, positives_app. lia.
  - intros Heq.
    assert (HBnil : B = []).
    { destruct B as [|b B']; [reflexivity|]. exfalso.
      destruct G as [|g G']; [now specialize (HGB eq_refl)|].
      rewrite Forall_forall in HG, HB.
      assert (Hb : (score_prev st < fst b)%Q) by (apply HB; now left).
      assert (Hg : (fst g == score_prev st)%Q) by (apply HG; now left).
      assert (Hbg : (fst b == fst g)%Q).
      { apply Heq; subst L; apply in_or_app; [left | right]; now left. }
      rewrite Hbg, Hg in Hb. now apply Qlt_irrefl in Hb. }
    subst B. simpl. lia.
Qed.

Lemma normalise A t2 N Pn :
  (2 * A == inject_Z t2)%Q ->
  1 <= N -> 1 <= Pn ->
  0 <= t2 <= 2 * (N * Pn) ->
  let D := inject_Z (N * Pn) in
  true_divide A D = Finite (A / D) /\
  (0 <= A / D)%Q /\ (A / D <= 1)%Q /\
  (t2 = 2 * (N * Pn) -> (A / D == 1)%Q) /\
  (t2 = 0 -> (A / D == 0)%Q) /\
  (t2 = N * Pn -> (A / D == 1 # 2)%Q).
Proof.
  intros HA HN HPn Ht D.
  assert (HD : (0 < D)%Q).
  { unfold D. change 0%Q with (inject_Z 0). rewrite <- Zlt_Qlt. nia. }
  assert (HD' : ~ (D == 0)%Q) by (intros E; rewrite E in HD; now apply Qlt_irrefl in HD).
  assert (Ht0 : (0 <= inject_Z t2)%Q).
  { change 0%Q with (inject_Z 0). rewrite <- Zle_Qle. lia. }
  assert (Ht1 : (inject_Z t2 <= 2 * D)%Q).
  { unfold D. change 2%Q with (inject_Z 2). rewrite <- inject_Z_mult, <- Zle_Qle. lia. }
  split; [|split; [|split; [|split; [|split]]]].
  - unfold true_divide. destruct (Qeq_bool D 0) eqn:E; [|reflexivity].
    apply Qeq_bool_iff in E. contradiction.
  - apply Qle_shift_div_l; [assumption|]. lra.
  - apply Qle_shift_div_r; [assumption|]. lra.
  - intros ->. rewrite inject_Z_mult in HA. fold D in HA.
    change (inject_Z 2) with 2%Q in HA.
    assert (A == D)%Q by lra. rewrite H. now field.
  - intros ->. change (inject_Z 0) with 0%Q in HA.
    assert (A == 0)%Q by lra. rewrite H. now field.
  - intros ->. fold D in HA.
    assert (A == D / 2)%Q by (apply Qmult_inj_l with 2%Q; [discriminate | rewrite HA; field]).
    rewrite H. now field.
Qed.

Lemma exists_active labels :
  binary labels -> 1 <= np_sum labels -> exists i, nth_error labels i = Some 1.
Proof.
  induction 1 as [|b labels Hb _ IH]; cbn [np_sum fold_right]; [lia|].
  fold (np_sum labels). intros Hs. destruct Hb as [-> | ->].
  - destruct IH as [i Hi]; [lia|]. now exists (S i).
  - now exists 0%nat.
Qed.

Lemma exists_inactive labels :
  binary labels -> 1 <= Z.of_nat (length labels) - np_sum labels ->
  exists j, nth_error labels j = Some 0.
Proof.
  induction 1 as [|b labels Hb _ IH]; cbn [np_sum fold_right length]; [lia|].
  fold (np_sum labels). rewrite Nat2Z.inj_succ. intros Hs. destruct Hb as [-> | ->].
  - now exists 0%nat.
  - destruct IH as [j Hj]; [lia|]. now exists (S j).
Qed.

Lemma In_combine_nth_error {A B} (l1 : list A) (l2 : list B) a b :
  In (a, b) (combine l1 l2) ->
  exists i, nth_error l1 i = Some a /\ nth_error l2 i = Some b.
Proof.
  revert l2. induction l1 as [|x l1 IH]; intros l2 H; [destruct H|].
  destruct l2 as [|y l2]; [destruct H|].
  destruct H as [E | H].
  - inversion E; subst. now exists 0%nat.
  - destruct (IH _ H) as [i Hi]. now exists (S i).
Qed.

(** When every active and every inactive has a score, the store and
    the labels have the same length. *)
Lemma scored_pairs_length R s labels :
  labelled s labels -> 1 <= n_actives s -> 1 <= n_inactives s ->
  actives_vs_inactives R s ->
  length (molecules s) = length labels.
Proof.
  intros (Hb & Hbin & Ha & Hi & Hlen) Hact Hinact HR.
  destruct (exists_active labels Hbin) as [i0 Hi0]; [lia|].
  destruct (exists_inactive labels Hbin) as [j0 Hj0]; [lia|].
  destruct (Nat.eq_dec (length labels) 0) as [E | E]; [lia|].
  assert (Hlast : (length labels - 1 < length labels)%nat) by lia.
  destruct (nth_error labels (length labels - 1)) as [b|] eqn:Eb;
    [|apply nth_error_None in Eb; lia].
  assert (Hbb : b = 0 \/ b = 1).
  { unfold binary in Hbin. rewrite Forall_forall in Hbin.
    apply Hbin. eapply nth_error_In; eassumption. }
  assert (Hrec : exists r, nth_error (molecules s) (length labels - 1) = Some r).
  { destruct Hbb as [-> | ->].
    - destruct (HR labels i0 _ Hb Hi0 Eb) as (ri & rj & _ & Hj & _). now exists rj.
    - destruct (HR labels _ j0 Hb Eb Hj0) as (ri & rj & Hi' & _ & _). now exists ri. }
  destruct Hrec as [r Hr].
  assert (length labels - 1 < length (molecules s))%nat
    by (apply nth_error_Some; rewrite Hr; discriminate).
  lia.
Qed.

(** With all molecules scored, the pairs that [AUC] weighs all carry
    the weight that [R] forces. *)
Lemma cross_ranking {numpy : Numpy} R c s labels :
  (forall a b, R a b -> weight a b = c) ->
  labelled s labels -> length (molecules s) = length labels ->
  actives_vs_inactives R s ->
  let L := ranked (scores_of s) labels in
  negatives L = n_inactives s /\ positives L = n_actives s /\
  cross L L = c * n_actives s * n_inactives s.
Proof.
  intros Hw (Hb & Hbin & Ha & Hi & Hlen) Heq HR L.
  assert (Hperm : Permutation L (combine (scores_of s) labels)).
  { apply ranked_perm. unfold scores_of. now rewrite length_map. }
  destruct (combine_totals_paired (scores_of s) labels Hbin) as [Hp Hn].
  { unfold scores_of. now rewrite length_map. }
  rewrite (negatives_perm _ _ Hperm), (positives_perm _ _ Hperm), (cross_perm _ _ Hperm).
  rewrite Hp, Hn, Ha, Hi. repeat split.
  rewrite (cross_const c); [rewrite Hp, Hn; reflexivity|].
  intros [qa la] [qb lb] HIa HIb Hla Hlb. simpl in *. subst la.
  apply In_combine_nth_error in HIa. destruct HIa as (i & Hsi & Hli).
  apply In_combine_nth_error in HIb. destruct HIb as (j & Hsj & Hlj).
  assert (lb = 0).
  { unfold binary in Hbin. rewrite Forall_forall in Hbin.
    destruct (Hbin lb); [eapply nth_error_In; eassumption | assumption | contradiction]. }
  subst lb.
  destruct (HR labels i j Hb Hli Hlj) as (ri & rj & Hri & Hrj & Hrel).
  unfold scores_of in Hsi, Hsj.
  rewrite nth_error_map, Hri in Hsi. rewrite nth_error_map, Hrj in Hsj.
  simpl in Hsi, Hsj. inversion Hsi; inversion Hsj; subst.
  now apply Hw.
Qed.

(** * The enrichment series *)

Lemma actives_in_app l1 l2 : actives_in (l1 ++ l2) = actives_in l1 + actives_in l2.
Proof. induction l1 as [|b l1 IH]; cbn [app actives_in]; [reflexivity | rewrite IH; lia]. Qed.

Lemma actives_in_perm l1 l2 : Permutation l1 l2 -> actives_in l1 = actives_in l2.
Proof. induction 1; cbn [actives_in]; lia. Qed.

Lemma actives_in_positives (l : list (Q * Z)) : actives_in (map snd l) = positives l.
Proof. induction l as [|p l IH]; cbn [map actives_in positives]; [reflexivity | now rewrite IH]. Qed.

Lemma firstn_S_nth {A} (d : A) l k :
  (k < length l)%nat -> firstn (S k) l = firstn k l ++ [nth k l d].
Proof.
  revert k. induction l as [|x l IH]; intros k Hk; simpl in Hk; [lia|].
  destruct k as [|k]; [reflexivity|].
  cbn [firstn nth app]. rewrite <- IH by lia. reflexivity.
Qed.

(** The loop of [_enrichment_data] after [k] iterations. *)
Lemma enrichment_loop labels n na k :
  (k <= length labels)%nat ->
  for_range k (enrichment_step labels n na)
    {| percentage_actives_found := [Finite 0];
       screened_percentage := [0%Q];
       actives_counter := 0 |}
  = {| percentage_actives_found :=
         Finite 0 ::
         map (fun i => true_divide (inject_Z (actives_in (firstn (S i) labels)))
                                   (inject_Z na))
             (seq 0 k);
       screened_percentage :=
         0%Q :: map (fun i => (inject_Z (Z.of_nat i) / inject_Z (Z.of_nat n))%Q)
                    (seq 0 k);
       actives_counter := actives_in (firstn k labels) |}.
Proof.
  unfold for_range. induction k as [|k IH]; intros Hk; [reflexivity|].
  rewrite seq_S, fold_left_app, IH by lia. cbn [fold_left Nat.add].
  unfold enrichment_step.
  cbn [percentage_actives_found screened_percentage actives_counter].
  rewrite !map_app. cbn [map app].
  assert (E : (if nth k labels 0 =? 1
               then actives_in (firstn k labels) + 1
               else actives_in (firstn k labels))
              = actives_in (firstn (S k) labels)).
  { rewrite (firstn_S_nth 0) by lia. rewrite actives_in_app.
    cbn [actives_in]. destruct (nth k labels 0 =? 1); lia. }
  rewrite E. reflexivity.
Qed.

(** What [_enrichment_data] returns: [n + 1] points; the first one is
    (0, 0); the point recorded after the molecule of rank [k] (counting
    from 1) pairs the fraction [(k - 1) / n] with the fraction of
    actives among the first [k] molecules. *)
Lemma enrichment_data_points {numpy : Numpy} s labels :
  labelled s labels ->
  exists L,
    sorted_labels s = Ok L /\
    length L = length (molecules s) /\
    let n := length L in
    _enrichment_data s =
    Ok (0%Q :: map (fun i => (inject_Z (Z.of_nat i) / inject_Z (Z.of_nat n))%Q) (seq 0 n),
        Finite 0 ::
        map (fun i => true_divide (inject_Z (actives_in (firstn (S i) L)))
                                  (inject_Z (n_actives s)))
            (seq 0 n)).
Proof.
  intros (Hb & _ & _ & _ & Hlen).
  exists (map snd (ranked (scores_of s) labels)).
  pose proof (sorted_labels_ranked s labels Hb Hlen) as HL.
  split; [exact HL|]. split.
  - rewrite length_map, ranked_length. unfold scores_of. apply length_map.
  - cbv zeta. unfold _enrichment_data. rewrite HL. cbn [bind].
    rewrite enrichment_loop by lia. reflexivity.
Qed.

(** * The geometric strategy *)

Section Align.

Context {T : Toolkit}.

Lemma min_from_spec l :
  forall i best,
    let r := min_from i best l in
    (r = best \/ exists k, nth_error l k = Some (snd r) /\ fst r = (i + k)%nat) /\
    (snd r <= snd best)%Q /\
    Forall (fun x => (snd r <= x)%Q) l.
Proof.
  induction l as [|x l IH]; intros i best; cbn [min_from].
  - split; [now left|]. split; [apply Qle_refl | constructor].
  - set (best' := if py_lt x (snd best) then (i, x) else best).
    destruct (IH (S i) best') as (Hsrc & Hle & Hall).
    assert (Hb' : (snd best' <= snd best)%Q /\ (snd best' <= x)%Q).
    { unfold best'. destruct (py_lt x (snd best)) eqn:E; cbn [snd].
      - apply py_lt_iff in E. split; [now apply Qlt_le_weak | apply Qle_refl].
      - split; [apply Qle_refl|].
        apply Qnot_lt_le. intros H. apply py_lt_iff in H. congruence. }
    destruct Hb' as [Hb1 Hb2].
    split; [|split].
    + destruct Hsrc as [-> | (k & Hk & Hf)].
      * unfold best'. destruct (py_lt x (snd best)); [|now left].
        right. exists 0%nat. cbn [nth_error snd fst]. split; [reflexivity | lia].
      * right. exists (S k). cbn [nth_error]. split; [assumption | lia].
    + now apply Qle_trans with (snd best').
    + constructor; [now apply Qle_trans with (snd best') | assumption].
Qed.

(** [argmin] returns an index of the list, and no entry is below the
    entry at that index. *)
Lemma argmin_spec l i :
  argmin l = Some i ->
  exists v, nth_error l i = Some v /\ Forall (fun x => (v <= x)%Q) l.
Proof.
  destruct l as [|x l]; cbn [argmin]; [discriminate|].
  intros H. inversion H as [Hi]. clear H.
  destruct (min_from_spec l 1 (0%nat, x)) as (Hsrc & Hle & Hall).
  exists (snd (min_from 1 (0%nat, x) l)). split.
  - destruct Hsrc as [-> | (k & Hk & Hf)]; [reflexivity|].
    rewrite Hf. exact Hk.
  - constructor; assumption.
Qed.

Lemma argmin_none l : argmin l = None <-> l = [].
Proof. destruct l; cbn [argmin]; split; intros; congruence. Qed.

(** What [align] does once the embeddings are there: with [e] an
    embedding of minimal SSD, it divides by the SSD of [e]. *)
Lemma align_best m embeddings :
  MatchPharmacophoreToMol m = true ->
  MatchPharmacophore m = false ->
  EmbedPharmacophore m = Some embeddings ->
  embeddings <> [] ->
  exists e,
    In e embeddings /\
    Forall (fun e' => (SSD_of e <= SSD_of e')%Q) embeddings /\
    align m =
    if Qeq_bool (SSD_of e) 0 then Raise ZeroDivisionError
    else Ok (Some {| score := 1 / SSD_of e; id := prop_Name m; mol := e |}).
Proof.
  intros Hc Hf He Hne. unfold align. rewrite Hc, Hf, He.
  destruct (argmin (transform_embeddings embeddings)) as [i|] eqn:Ea.
  - destruct (argmin_spec _ _ Ea) as (v & Hv & Hmin).
    unfold transform_embeddings in *. rewrite Hv.
    rewrite nth_error_map in Hv.
    destruct (nth_error embeddings i) as [e|] eqn:Ee; [|discriminate].
    cbn [option_map] in Hv. inversion Hv; subst v.
    exists e. split; [eapply nth_error_In; eassumption|].
    split; [|reflexivity].
    rewrite Forall_forall in *. intros e' He'. apply Hmin. now apply in_map.
  - apply argmin_none in Ea. unfold transform_embeddings in Ea.
    apply map_eq_nil in Ea. contradiction.
Qed.

(** The record [align] builds from a non-empty list of embeddings
    without a zero SSD. *)
Lemma align_embedded m embeddings :
  MatchPharmacophoreToMol m = true ->
  MatchPharmacophore m = false ->
  EmbedPharmacophore m = Some embeddings ->
  embeddings <> [] ->
  Forall (fun e => ~ (SSD_of e == 0)%Q) embeddings ->
  exists e,
    In e embeddings /\
    Forall (fun e' => (SSD_of e <= SSD_of e')%Q) embeddings /\
    align m = Ok (Some {| score := 1 / SSD_of e; id := prop_Name m; mol := e |}).
Proof.
  intros Hc Hf He Hne Hnz.
  destruct (align_best m embeddings Hc Hf He Hne) as (e & Hin & Hmin & Ha).
  exists e. split; [assumption|]. split; [assumption|].
  rewrite Ha. rewrite Forall_forall in Hnz.
  destruct (Qeq_bool (SSD_of e) 0) eqn:E; [|reflexivity].
  apply Qeq_bool_iff in E. now apply Hnz in E.
Qed.

(** Scoring a molecule raises in one case only: the division by a
    minimal SSD of zero. *)
Lemma align_outcome m :
  (zero_fit m /\ align m = Raise ZeroDivisionError) \/
  (~ zero_fit m /\ exists r, align m = Ok r).
Proof.
  destruct (MatchPharmacophoreToMol m) eqn:Hc.
  2: { right. split; [intros (H & _); congruence|].
       unfold align. rewrite Hc. eauto. }
  destruct (MatchPharmacophore m) eqn:Hf.
  { right. split; [intros (_ & H & _); congruence|].
    unfold align. rewrite Hc, Hf. eauto. }
  destruct (EmbedPharmacophore m) as [embeddings|] eqn:He.
  2: { right. split; [intros (_ & _ & embs & e & H & _); congruence|].
       unfold align. rewrite Hc, Hf, He. eauto. }
  destruct embeddings as [|e0 embeddings'].
  { right. split; [intros (_ & _ & embs & e & H & Hin & _)|].
    - rewrite He in H. injection H as <-. contradiction.
    - unfold align. rewrite Hc, Hf, He. cbn. eauto. }
  remember (e0 :: embeddings') as embeddings eqn:Eembs.
  assert (Hne : embeddings <> []) by (rewrite Eembs; discriminate).
  clear Eembs e0 embeddings'.
  destruct (align_best m embeddings Hc Hf He Hne) as (e & Hin & Hmin & Ha).
  destruct (Qeq_bool (SSD_of e) 0) eqn:E.
  - left. split; [|assumption]. apply Qeq_bool_iff in E.
    split; [exact Hc|]. split; [exact Hf|].
    exists embeddings, e. auto.
  - right. split; [|eauto].
    intros (_ & _ & embs & e' & H & Hin' & Hz & Hmin').
    rewrite He in H. injection H as <-.
    rewrite Forall_forall in Hmin, Hmin'.
    assert (Hee : (SSD_of e == 0)%Q).
    { apply Qle_antisym; [rewrite <- Hz; now apply Hmin | rewrite <- Hz; now apply Hmin']. }
    apply Qeq_bool_iff in Hee. congruence.
Qed.

End Align.

Section Stores.

Context {T : Toolkit}.

Lemma align_loop_records mols :
  forall s s', align_loop mols s = (Ok tt, s') ->
               molecules s' = molecules s ++ aligned_records mols.
Proof.
  induction mols as [|m mols IH]; intros s s' H; cbn [align_loop] in H.
  - inversion H; subst. cbn. now rewrite app_nil_r.
  - unfold aligned_records. cbn [flat_map]. fold (aligned_records mols).
    destruct (align m) as [[r|]|e]; [| |discriminate].
    + rewrite (IH _ _ H). cbn [append molecules]. now rewrite <- app_assoc.
    + now rewrite (IH _ _ H).
Qed.

Lemma align_loop_succeeds mols s s' :
  align_loop mols s = (Ok tt, s') -> Forall (fun m => ~ zero_fit m) mols.
Proof.
  revert s. induction mols as [|m mols IH]; intros s H; [constructor|].
  cbn [align_loop] in H.
  destruct (align_outcome m) as [[_ Ha] | [Hz [r Ha]]]; rewrite Ha in H;
    [discriminate|].
  constructor; [assumption|].
  destruct r; eapply IH; eassumption.
Qed.

Lemma traverse_parse_ok smiles :
  Forall (fun entry => MolFromSmiles (snd entry) <> None) smiles ->
  exists mols, traverse parse smiles = Ok mols.
Proof.
  induction 1 as [|entry smiles He _ IH]; [now exists []|].
  destruct IH as [mols Hm]. cbn [traverse]. unfold parse at 1.
  destruct (MolFromSmiles (snd entry)) as [m|]; [|contradiction].
  cbn [bind]. rewrite Hm. cbn [bind]. eauto.
Qed.

Lemma traverse_parse_fails smiles :
  Exists (fun entry => MolFromSmiles (snd entry) = None) smiles ->
  traverse parse smiles = Raise AttributeError.
Proof.
  induction smiles as [|entry smiles IH]; intros H; [inversion H|].
  cbn [traverse]. unfold parse at 1.
  destruct (MolFromSmiles (snd entry)) as [m|] eqn:E; [|reflexivity].
  cbn [bind]. rewrite IH; [reflexivity|].
  inversion H as [? ? H0 | ? ? H0]; subst; [congruence | assumption].
Qed.

(** What a successful [from_bioactivity_data] appends to the store. *)
Lemma from_bioactivity_data_store s smiles labels s' :
  from_bioactivity_data smiles (Rank1 labels) s = (Ok tt, s') ->
  exists mols,
    traverse parse smiles = Ok mols /\
    length mols = length labels /\
    molecules s' = molecules s ++ scored_records s mols.
Proof.
  intros H. unfold from_bioactivity_data in H.
  destruct (length smiles =? length labels)%nat eqn:El; cbn [negb] in H;
    [|discriminate].
  apply Nat.eqb_eq in El.
  destruct (traverse parse smiles) as [mols|e] eqn:Ep; [|discriminate].
  pose proof (traverse_length _ _ _ Ep) as Hlen.
  exists mols. split; [reflexivity|]. split; [lia|].
  unfold scored_records.
  cbn [set_labels scoring_metric] in H.
  destruct (scoring_metric s).
  - unfold _align_molecules in H. apply align_loop_records in H. exact H.
  - unfold _fingerprint_similarity in H. cbn [set_labels similarity_fn] in H.
    destruct (similarity_fn s) as [kind|]; [|discriminate].
    injection H as Hs.
    match type of Hs with
    | fold_left (fun self m => append self (@?g m)) _ ?a = _ =>
        pose proof (similarity_loop_fields g mols a) as F
    end.
    cbv zeta in F. cbv beta in F. rewrite Hs in F.
    destruct F as (F1 & _).
    cbn [set_n_molecules set_labels molecules] in F1. rewrite F1. f_equal.
    apply map_ext. intros m. unfold fingerprint_record. now destruct kind.
Qed.

End Stores.

(** * The confusion matrix *)

Lemma predicted_active_iff threshold r :
  predicted_active threshold r = true <-> (threshold < score r)%Q.
Proof.
  unfold predicted_active. destruct (Qlt_le_dec threshold (score r)) as [H | H].
  - tauto.
  - split; [discriminate|]. intros H'. exfalso. now apply (Qlt_not_le _ _ H').
Qed.

Lemma predicted_active_gt threshold r :
  py_gt (score r) threshold = predicted_active threshold r.
Proof.
  destruct (predicted_active threshold r) eqn:E.
  - apply py_gt_iff. now apply predicted_active_iff.
  - apply not_true_iff_false. intros H. apply py_gt_iff in H.
    apply predicted_active_iff in H. congruence.
Qed.

Lemma cell_cons label predicted threshold p l :
  cell label predicted threshold (p :: l)
  = (if (fst p =? label) && Bool.eqb (predicted_active threshold (snd p)) predicted
     then 1 else 0)
    + cell label predicted threshold l.
Proof.
  unfold cell. cbn [filter].
  destruct ((fst p =? label) && Bool.eqb (predicted_active threshold (snd p)) predicted);
    cbn [length]; lia.
Qed.

(** The loop of [confusion_matrix] tallies the four cells. *)
Lemma tally_loop_cells labels threshold store :
  forall ii c,
    (ii + length store <= length labels)%nat ->
    exists c',
      tally_loop (Some labels) threshold ii store c = Ok c' /\
      let l := combine (skipn ii labels) store in
      true_positives c' = true_positives c + cell 1 true threshold l /\
      false_positives c' = false_positives c + cell 0 true threshold l /\
      false_negatives c' = false_negatives c + cell 1 false threshold l /\
      true_negatives c' = true_negatives c + cell 0 false threshold l.
Proof.
  induction store as [|m store IH]; intros ii c Hlen.
  - exists c. split; [reflexivity|]. cbv zeta.
    replace (combine (skipn ii labels) []) with (@nil (Z * MolScore))
      by (now destruct (skipn ii labels)).
    unfold cell. cbn. lia.
  - cbn [length] in Hlen. cbn [tally_loop]. unfold getitem.
    destruct (nth_error labels ii) as [b|] eqn:Eb;
      [|apply nth_error_None in Eb; lia].
    cbn [bind].
    destruct (IH (S ii) (classify b (score m) threshold c)) as (c' & Hc' & H);
      [lia|].
    exists c'. split; [exact Hc'|]. cbv zeta in *.
    rewrite (skipn_nth_cons 0 labels ii) by lia.
    rewrite (nth_error_nth _ _ 0 Eb). cbn [combine].
    rewrite !cell_cons. cbn [fst snd].
    destruct H as (H1 & H2 & H3 & H4). rewrite H1, H2, H3, H4.
    unfold classify. rewrite py_gt_le, <- (py_gt_le (score m) threshold).
    unfold py_le. fold (py_le (score m) threshold).
    replace (py_le (score m) threshold) with (negb (py_gt (score m) threshold))
      by (unfold py_gt, py_le; now rewrite negb_involutive).
    rewrite predicted_active_gt.
    destruct (b =? 1) eqn:E1; destruct (b =? 0) eqn:E0;
      destruct (predicted_active threshold m);
      cbn [andb negb Bool.eqb true_positives false_positives
           false_negatives true_negatives];
      try lia.
    all: apply Z.eqb_eq in E1, E0; lia.
Qed.

Lemma confusion_matrix_cells s labels threshold :
  bioactivities s = Some labels ->
  (length (molecules s) <= length labels)%nat ->
  let m := expected_matrix labels (molecules s) (effective_threshold s threshold) in
  confusion_matrix s (Some threshold)
  = if matrix_sum m =? n_molecules s then Ok m else Raise AssertionError.
Proof.
  intros Hb Hlen m.
  assert (H : forall t,
             tally_and_check s t
             = if matrix_sum (expected_matrix labels (molecules s) t) =? n_molecules s
               then Ok (expected_matrix labels (molecules s) t)
               else Raise AssertionError).
  { intros t. unfold tally_and_check. rewrite Hb.
    destruct (tally_loop_cells labels t (molecules s) 0 zero_tally) as (c & Hc & H);
      [simpl; lia|].
    cbn [skipn] in H. cbv zeta in H. destruct H as (H1 & H2 & H3 & H4).
    assert (Em : matrix_of c = expected_matrix labels (molecules s) t).
    { unfold matrix_of, expected_matrix. rewrite H1, H2, H3, H4. reflexivity. }
    rewrite Hc. cbn [bind]. rewrite Em. reflexivity. }
  unfold confusion_matrix, m, effective_threshold.
  destruct (scoring_metric s); apply H.
Qed.

(** With 0/1 labels every pair falls into exactly one cell. *)
Lemma cells_sum threshold (l : list (Z * MolScore)) :
  Forall (fun p => fst p = 0 \/ fst p = 1) l ->
  cell 1 true threshold l + cell 0 true threshold l
  + cell 1 false threshold l + cell 0 false threshold l
  = Z.of_nat (length l).
Proof.
  induction 1 as [|p l Hp _ IH]; [reflexivity|].
  rewrite !cell_cons. cbn [length]. rewrite Nat2Z.inj_succ.
  destruct (predicted_active threshold (snd p));
    destruct Hp as [-> | ->]; cbn [Z.eqb Pos.eqb andb Bool.eqb]; lia.
Qed.

Lemma expected_matrix_sum labels store threshold :
  binary labels -> (length store <= length labels)%nat ->
  matrix_sum (expected_matrix labels store threshold) = Z.of_nat (length store).
Proof.
  intros Hb Hlen. unfold matrix_sum, expected_matrix. cbn [fst snd].
  rewrite cells_sum.
  - rewrite length_combine. f_equal. lia.
  - rewrite Forall_forall. intros [b r] Hin. cbn [fst].
    apply in_combine_l in Hin. unfold binary in Hb.
    rewrite Forall_forall in Hb. now apply Hb.
Qed.

(** * The order of tied scores *)

Lemma roc_step_compat N Pn x x' l st st' :
  (x == x')%Q -> roc_eq st st' ->
  roc_eq (roc_step N Pn x l st) (roc_step N Pn x' l st').
Proof.
  intros Hx (H1 & H2 & H3 & H4 & H5). unfold roc_step, py_ne.
  rewrite (Qeq_bool_compat x x' _ _ Hx H5).
  destruct (Qeq_bool x' (roc_score_prev st')), (l =? 1); cbn [negb];
    unfold roc_eq; cbn; rewrite ?H1, ?H2, ?H3, ?H4;
    repeat split; try assumption; try reflexivity.
Qed.

Lemma roc_over_compat N Pn P P' st st' :
  same_pairs P P' -> roc_eq st st' ->
  roc_eq (roc_over N Pn P st) (roc_over N Pn P' st').
Proof.
  intros HP. revert st st'.
  induction HP as [|p q P P' [Hf Hs] _ IH]; intros st st' Hst; [assumption|].
  cbn [roc_over fold_left]. apply IH. rewrite Hs.
  now apply roc_step_compat.
Qed.

Lemma roc_eq_refl st : roc_eq st st.
Proof. unfold roc_eq. repeat split; reflexivity. Qed.

Lemma ROC_plot_ranked {numpy : Numpy} s labels :
  labelled s labels ->
  ROC_plot s =
  (let st := roc_over (n_inactives s) (n_actives s)
               (ranked (scores_of s) labels) roc_start in
   Ok (roc_x st ++ [ratio (n_inactives s) (roc_false_positives st)],
       roc_y st ++ [ratio (n_actives s) (roc_true_positives st)])).
Proof.
  intros (Hb & _ & _ & _ & Hlen). unfold ROC_plot.
  rewrite (sorted_labels_ranked s labels Hb Hlen). cbn [bind].
  rewrite for_range_combine
    by (rewrite sorted_scores_length, length_map, ranked_length;
        unfold scores_of; now rewrite length_map).
  match goal with
  | |- context [fold_left ?f ?l ?st0] =>
      change (fold_left f l st0)
        with (roc_over (n_inactives s) (n_actives s) l roc_start)
  end.
  pose proof (roc_over_compat (n_inactives s) (n_actives s) _ _ _ _
                (same_pairs_combine _ _ (sorted_scores_ranked s labels))
                (roc_eq_refl roc_start)) as (H1 & H2 & H3 & H4 & _).
  cbv zeta. unfold ratio. rewrite H1, H2, H3, H4. reflexivity.
Qed.

Lemma tally_loop_overrun labels threshold store :
  forall ii c,
    (ii <= length labels)%nat ->
    (length labels < ii + length store)%nat ->
    tally_loop (Some labels) threshold ii store c = Raise IndexError.
Proof.
  induction store as [|m store IH]; intros ii c Hii Hover.
  - simpl in Hover. lia.
  - cbn [tally_loop]. unfold getitem.
    destruct (nth_error labels ii) as [b|] eqn:Eb; [|reflexivity].
    cbn [bind]. apply IH.
    + assert (ii < length labels)%nat by (apply nth_error_Some; congruence). lia.
    + cbn [length] in Hover. lia.
Qed.

Lemma traverse_getitem_overrun labels idx :
  Exists (fun i => (length labels <= i)%nat) idx ->
  traverse (getitem (Some labels)) idx = Raise IndexError.
Proof.
  induction idx as [|i idx IH]; intros H; [inversion H|].
  cbn [traverse]. unfold getitem at 1.
  destruct (nth_error labels i) as [b|] eqn:Eb; [|reflexivity].
  cbn [bind]. rewrite IH; [reflexivity|].
  inversion H as [? ? H0 | ? ? H0]; subst; [|assumption].
  apply nth_error_None in H0. congruence.
Qed.

Lemma sorted_labels_overrun {numpy : Numpy} s labels :
  bioactivities s = Some labels ->
  (length labels < length (molecules s))%nat ->
  sorted_labels s = Raise IndexError.
Proof.
  intros Hb Hover. unfold sorted_labels, take. rewrite Hb.
  apply traverse_getitem_overrun. apply Exists_exists.
  exists (length labels). split; [|lia].
  apply (Permutation_in _ (Permutation_sym (sorted_indices_perm s))).
  apply in_seq. lia.
Qed.

Lemma Permutation_filter {A} (f : A -> bool) l l' :
  Permutation l l' -> Permutation (filter f l) (filter f l').
Proof.
  induction 1 as [|x l l' _ IH|x y l|l l' l'' _ IH1 _ IH2]; cbn [filter].
  - constructor.
  - destruct (f x); [now constructor | assumption].
  - destruct (f x), (f y); try reflexivity. apply perm_swap.
  - now transitivity (filter f l').
Qed.

Lemma StronglySorted_app_l {A} (R : A -> A -> Prop) l1 l2 :
  StronglySorted R (l1 ++ l2) -> StronglySorted R l1.
Proof.
  induction l1 as [|a l1 IH]; simpl; intros H; [constructor|].
  inversion H as [|? ? Hs Ha]; subst. constructor; [now apply IH|].
  apply Forall_app in Ha. tauto.
Qed.

Lemma StronglySorted_app_r {A} (R : A -> A -> Prop) l1 l2 :
  StronglySorted R (l1 ++ l2) -> StronglySorted R l2.
Proof.
  induction l1 as [|a l1 IH]; simpl; intros H; [assumption|].
  inversion H; subst. now apply IH.
Qed.

Lemma py_lt_compat a a' b : (a == a')%Q -> py_lt a b = py_lt a' b.
Proof.
  intros Ha.
  destruct (py_lt a b) eqn:E, (py_lt a' b) eqn:E'; try reflexivity.
  - apply py_lt_iff in E. rewrite Ha in E. apply py_lt_iff in E. congruence.
  - apply py_lt_iff in E'. rewrite <- Ha in E'. apply py_lt_iff in E'. congruence.
Qed.

(** In a descending list, the pairs before a pair [p] whose score
    differs from that of its predecessor are the pairs of a score
    above that of [p]. *)
Lemma prefix_above (A C : list (Q * Z)) (p : Q * Z) prev :
  descending_pairs (A ++ p :: C) ->
  last_score A prev ->
  ~ (fst p == prev)%Q ->
  filter (fun u => py_lt (fst p) (fst u)) (A ++ p :: C) = A.
Proof.
  intros Hs Hlast Hne. unfold descending_pairs in Hs.
  rewrite filter_app.
  assert (HC : filter (fun u => py_lt (fst p) (fst u)) (p :: C) = []).
  { apply filter_none.
    apply StronglySorted_app_r in Hs. inversion Hs as [|? ? _ Hp]; subst.
    constructor.
    - apply not_true_iff_false. intros E. apply py_lt_iff in E.
      now apply Qlt_irrefl in E.
    - eapply Forall_impl; [|exact Hp]. cbv beta. intros u Hu.
      apply not_true_iff_false. intros E. apply py_lt_iff in E.
      now apply (Qlt_not_le _ _ E). }
  rewrite HC, app_nil_r. apply filter_all.
  destruct Hlast as [-> | (A' & q & -> & Hq)]; [constructor|].
  assert (Hqp : (fst p < fst q)%Q).
  { pose proof (StronglySorted_app_elim _ _ _ Hs q p
                  ltac:(apply in_or_app; right; now left) ltac:(now left)) as Hle.
    cbv beta in Hle. apply Qle_lt_or_eq in Hle. destruct Hle as [H | H];
      [assumption|].
    exfalso. apply Hne. now rewrite H. }
  rewrite Forall_forall. intros u Hu. apply py_lt_iff.
  apply in_app_or in Hu. destruct Hu as [Hu | [<- | []]]; [|assumption].
  apply Qlt_le_trans with (fst q); [assumption|].
  apply StronglySorted_app_l in Hs.
  apply (StronglySorted_app_elim _ _ _ Hs u q); [assumption | now left].
Qed.

(** Two descending arrangements of the same pairs have the same counts
    before a change of score. *)
Lemma boundary_counts P1 P2 A1 A2 p1 p2 C1 C2 prev1 prev2 :
  Permutation P1 P2 ->
  descending_pairs P1 -> descending_pairs P2 ->
  P1 = A1 ++ p1 :: C1 -> P2 = A2 ++ p2 :: C2 ->
  (fst p1 == fst p2)%Q ->
  last_score A1 prev1 -> last_score A2 prev2 ->
  ~ (fst p1 == prev1)%Q -> ~ (fst p2 == prev2)%Q ->
  negatives A1 = negatives A2 /\ positives A1 = positives A2.
Proof.
  intros HP Hs1 Hs2 E1 E2 Hp Hl1 Hl2 Hn1 Hn2.
  assert (HA : Permutation A1 A2).
  { rewrite <- (prefix_above A1 C1 p1 prev1), <- (prefix_above A2 C2 p2 prev2);
      try assumption; try (rewrite <- E1; assumption); try (rewrite <- E2; assumption).
    rewrite <- E1, <- E2.
    rewrite (filter_ext (fun u => py_lt (fst p1) (fst u))
                        (fun u => py_lt (fst p2) (fst u)))
      by (intros u; now apply py_lt_compat).
    now apply Permutation_filter. }
  split; [now apply negatives_perm | now apply positives_perm].
Qed.

Lemma last_score_snoc A p prev : (fst p == prev)%Q -> last_score (A ++ [p]) prev.
Proof. intros H. right. now exists A, p. Qed.

Lemma negatives_snoc A (p : Q * Z) :
  negatives (A ++ [p]) = negatives A + (if snd p =? 1 then 0 else 1).
Proof. rewrite negatives_app. cbn [negatives]. lia. Qed.

Lemma positives_snoc A (p : Q * Z) :
  positives (A ++ [p]) = positives A + (if snd p =? 1 then 1 else 0).
Proof. rewrite positives_app. cbn [positives]. lia. Qed.

Section Ties.

Variables (P1 P2 : list (Q * Z)).
Hypothesis HP : Permutation P1 P2.
Hypothesis Hs1 : descending_pairs P1.
Hypothesis Hs2 : descending_pairs P2.

Lemma roc_together_step N Pn A1 A2 p1 p2 C1 C2 st1 st2 :
  P1 = A1 ++ p1 :: C1 -> P2 = A2 ++ p2 :: C2 ->
  (fst p1 == fst p2)%Q ->
  roc_together A1 A2 st1 st2 ->
  roc_together (A1 ++ [p1]) (A2 ++ [p2])
    (roc_step N Pn (fst p1) (snd p1) st1) (roc_step N Pn (fst p2) (snd p2) st2).
Proof.
  intros E1 E2 Hp (Hx & Hy & Hprev & Hf1 & Ht1 & Hf2 & Ht2 & Hl1 & Hl2).
  unfold roc_step, py_ne.
  rewrite (Qeq_bool_compat _ _ _ _ Hp Hprev).
  destruct (Qeq_bool (fst p2) (roc_score_prev st2)) eqn:E; cbn [negb].
  - assert (E' : (fst p2 == roc_score_prev st2)%Q) by now apply Qeq_bool_iff.
    assert (E'' : (fst p1 == roc_score_prev st1)%Q) by now rewrite Hp, Hprev.
    destruct (snd p1 =? 1) eqn:B1, (snd p2 =? 1) eqn:B2;
      unfold roc_together; cbn;
      rewrite !negatives_snoc, !positives_snoc, B1, B2, Hf1, Ht1, Hf2, Ht2;
      repeat split; try assumption; try lia; now apply last_score_snoc.
  - assert (E' : ~ (fst p2 == roc_score_prev st2)%Q).
    { intros H. apply Qeq_bool_iff in H. congruence. }
    assert (E'' : ~ (fst p1 == roc_score_prev st1)%Q).
    { intros H. apply E'. now rewrite <- Hp, <- Hprev. }
    destruct (boundary_counts P1 P2 A1 A2 p1 p2 C1 C2 _ _
                HP Hs1 Hs2 E1 E2 Hp Hl1 Hl2 E'' E') as [Hn Hpq].
    destruct (snd p1 =? 1) eqn:B1, (snd p2 =? 1) eqn:B2;
      unfold roc_together; cbn;
      rewrite !negatives_snoc, !positives_snoc, B1, B2, Hf1, Ht1, Hf2, Ht2, Hx, Hy,
        Hn, Hpq;
      repeat split; try assumption; try lia; try reflexivity;
      now apply last_score_snoc.
Qed.

Lemma roc_together_over N Pn C1 C2 :
  Forall2 (fun p q => (fst p == fst q)%Q) C1 C2 ->
  forall A1 A2 st1 st2,
    P1 = A1 ++ C1 -> P2 = A2 ++ C2 ->
    roc_together A1 A2 st1 st2 ->
    roc_together P1 P2 (roc_over N Pn C1 st1) (roc_over N Pn C2 st2).
Proof.
  induction 1 as [|p1 p2 C1 C2 Hp _ IH]; intros A1 A2 st1 st2 E1 E2 H.
  - rewrite app_nil_r in E1, E2. now subst.
  - cbn [roc_over fold_left].
    apply (IH (A1 ++ [p1]) (A2 ++ [p2])).
    + now rewrite <- app_assoc.
    + now rewrite <- app_assoc.
    + now apply (roc_together_step N Pn A1 A2 p1 p2 C1 C2).
Qed.

Lemma sweep_together_step A1 A2 p1 p2 C1 C2 st1 st2 :
  P1 = A1 ++ p1 :: C1 -> P2 = A2 ++ p2 :: C2 ->
  (fst p1 == fst p2)%Q ->
  sweep_together A1 A2 st1 st2 ->
  sweep_together (A1 ++ [p1]) (A2 ++ [p2])
    (auc_step (fst p1) (snd p1) st1) (auc_step (fst p2) (snd p2) st2).
Proof.
  intros E1 E2 Hp (Ha & Hfp & Htp & Hprev & Hf1 & Ht1 & Hf2 & Ht2 & Hl1 & Hl2).
  unfold auc_step, py_ne.
  rewrite (Qeq_bool_compat _ _ _ _ Hp Hprev).
  destruct (Qeq_bool (fst p2) (score_prev st2)) eqn:E; cbn [negb].
  - assert (E' : (fst p2 == score_prev st2)%Q) by now apply Qeq_bool_iff.
    assert (E'' : (fst p1 == score_prev st1)%Q) by now rewrite Hp, Hprev.
    destruct (snd p1 =? 1) eqn:B1, (snd p2 =? 1) eqn:B2;
      unfold sweep_together; cbn;
      rewrite !negatives_snoc, !positives_snoc, B1, B2, Hf1, Ht1, Hf2, Ht2;
      repeat split; try assumption; try lia; now apply last_score_snoc.
  - assert (E' : ~ (fst p2 == score_prev st2)%Q).
    { intros H. apply Qeq_bool_iff in H. congruence. }
    assert (E'' : ~ (fst p1 == score_prev st1)%Q).
    { intros H. apply E'. now rewrite <- Hp, <- Hprev. }
    destruct (boundary_counts P1 P2 A1 A2 p1 p2 C1 C2 _ _
                HP Hs1 Hs2 E1 E2 Hp Hl1 Hl2 E'' E') as [Hn Hpq].
    destruct (snd p1 =? 1) eqn:B1, (snd p2 =? 1) eqn:B2;
      unfold sweep_together; cbn;
      rewrite !negatives_snoc, !positives_snoc, B1, B2, Hf1, Ht1, Hf2, Ht2, Ha, Hfp,
        Htp, Hn, Hpq;
      repeat split; try assumption; try lia; try reflexivity;
      now apply last_score_snoc.
Qed.

Lemma sweep_together_over C1 C2 :
  Forall2 (fun p q => (fst p == fst q)%Q) C1 C2 ->
  forall A1 A2 st1 st2,
    P1 = A1 ++ C1 -> P2 = A2 ++ C2 ->
    sweep_together A1 A2 st1 st2 ->
    sweep_together P1 P2 (sweep_over C1 st1) (sweep_over C2 st2).
Proof.
  induction 1 as [|p1 p2 C1 C2 Hp _ IH]; intros A1 A2 st1 st2 E1 E2 H.
  - rewrite app_nil_r in E1, E2. now subst.
  - cbn [sweep_over fold_left].
    apply (IH (A1 ++ [p1]) (A2 ++ [p2])).
    + now rewrite <- app_assoc.
    + now rewrite <- app_assoc.
    + now apply (sweep_together_step A1 A2 p1 p2 C1 C2).
Qed.

End Ties.

Lemma ranked_same_scores (n1 n2 : Numpy) scores labels :
  Forall2 (fun p q : Q * Z => (fst p == fst q)%Q)
          (@ranked n1 scores labels) (@ranked n2 scores labels).
Proof.
  assert (H : forall n : Numpy,
            Forall2 Qeq (map fst (@ranked n scores labels)) (rev (np_sort scores))).
  { intros n. unfold ranked. rewrite map_map. cbn [fst]. rewrite map_rev.
    apply Forall2_rev, argsort_sorts. }
  pose proof (H n1) as H1. pose proof (H n2) as H2.
  remember (@ranked n1 scores labels) as R1 eqn:E1.
  remember (@ranked n2 scores labels) as R2 eqn:E2.
  clear E1 E2 H.
  revert R2 H2. generalize dependent (rev (np_sort scores)).
  induction R1 as [|p R1 IH]; intros S H1 R2 H2.
  - inversion H1; subst. destruct R2; [constructor | inversion H2].
  - inversion H1 as [|? x ? S' Hx HS]; subst.
    destruct R2 as [|q R2]; [inversion H2|].
    inversion H2 as [|? ? ? ? Hq HS2]; subst.
    constructor; [now rewrite Hx, Hq | now apply (IH S')].
Qed.

(** [AUC] and [ROC_plot] return the same whatever order the sort of
    numpy gives to equal scores. *)
Lemma AUC_any_sort (n1 n2 : Numpy) s : @AUC n1 s = @AUC n2 s.
Proof.
  destruct (bioactivities s) as [labels|] eqn:Hb.
  2: { unfold AUC, sorted_labels, take. now rewrite Hb. }
  destruct (Nat.le_gt_cases (length (molecules s)) (length labels)) as [Hle | Hgt].
  2: { unfold AUC.
       now rewrite (@sorted_labels_overrun n1 s labels Hb Hgt),
                   (@sorted_labels_overrun n2 s labels Hb Hgt). }
  assert (HA : forall n : Numpy,
            @AUC n s =
            (let st := sweep_over (@ranked n (scores_of s) labels) sweep_start in
             let a := true_divide (final_area s st)
                                  (inject_Z (n_inactives s * n_actives s)) in
             if np_ge a 0 && np_le a 1 then Ok a else Raise AssertionError)).
  { intros n. unfold AUC.
    rewrite (@sorted_labels_ranked n s labels Hb Hle). cbn [bind].
    rewrite for_range_combine
      by (rewrite sorted_scores_length, length_map, ranked_length;
          unfold scores_of; now rewrite length_map).
    match goal with
    | |- context [fold_left ?f ?l sweep_start] =>
        change (fold_left f l sweep_start) with (sweep_over l sweep_start)
    end.
    destruct (@sweep_ranked n s labels) as (_ & _ & H3 & H4 & H5 & _).
    cbv zeta. unfold final_area. rewrite H3, H4, H5. reflexivity. }
  rewrite (HA n1), (HA n2). cbv zeta.
  assert (Hlen : (length (scores_of s) <= length labels)%nat)
    by (unfold scores_of; now rewrite length_map).
  assert (HP : Permutation (@ranked n1 (scores_of s) labels)
                           (@ranked n2 (scores_of s) labels)).
  { rewrite (@ranked_perm n1 _ _ Hlen), (@ranked_perm n2 _ _ Hlen). reflexivity. }
  destruct (sweep_together_over _ _ HP
              (@ranked_descending n1 _ _) (@ranked_descending n2 _ _)
              _ _ (ranked_same_scores n1 n2 (scores_of s) labels)
              [] [] sweep_start sweep_start eq_refl eq_refl)
    as (Ha & Hfp & Htp & _).
  { unfold sweep_together. cbn. repeat split; try reflexivity; now left. }
  unfold final_area. now rewrite Ha, Hfp, Htp.
Qed.

Lemma ROC_plot_any_sort (n1 n2 : Numpy) s : @ROC_plot n1 s = @ROC_plot n2 s.
Proof.
  destruct (bioactivities s) as [labels|] eqn:Hb.
  2: { unfold ROC_plot, sorted_labels, take. now rewrite Hb. }
  destruct (Nat.le_gt_cases (length (molecules s)) (length labels)) as [Hle | Hgt].
  2: { unfold ROC_plot.
       now rewrite (@sorted_labels_overrun n1 s labels Hb Hgt),
                   (@sorted_labels_overrun n2 s labels Hb Hgt). }
  assert (HA : forall n : Numpy,
            @ROC_plot n s =
            (let st := roc_over (n_inactives s) (n_actives s)
                         (@ranked n (scores_of s) labels) roc_start in
             Ok (roc_x st ++ [ratio (n_inactives s) (roc_false_positives st)],
                 roc_y st ++ [ratio (n_actives s) (roc_true_positives st)]))).
  { intros n. unfold ROC_plot.
    rewrite (@sorted_labels_ranked n s labels Hb Hle). cbn [bind].
    rewrite for_range_combine
      by (rewrite sorted_scores_length, length_map, ranked_length;
          unfold scores_of; now rewrite length_map).
    match goal with
    | |- context [fold_left ?f ?l ?st0] =>
        change (fold_left f l st0)
          with (roc_over (n_inactives s) (n_actives s) l roc_start)
    end.
    pose proof (roc_over_compat (n_inactives s) (n_actives s) _ _ _ _
                  (same_pairs_combine _ _ (@sorted_scores_ranked n s labels))
                  (roc_eq_refl roc_start)) as (H1 & H2 & H3 & H4 & _).
    cbv zeta. unfold ratio. rewrite H1, H2, H3, H4. reflexivity. }
  rewrite (HA n1), (HA n2). cbv zeta.
  assert (Hlen : (length (scores_of s) <= length labels)%nat)
    by (unfold scores_of; now rewrite length_map).
  assert (HP : Permutation (@ranked n1 (scores_of s) labels)
                           (@ranked n2 (scores_of s) labels)).
  { rewrite (@ranked_perm n1 _ _ Hlen), (@ranked_perm n2 _ _ Hlen). reflexivity. }
  destruct (roc_together_over _ _ HP
              (@ranked_descending n1 _ _) (@ranked_descending n2 _ _)
              (n_inactives s) (n_actives s)
              _ _ (ranked_same_scores n1 n2 (scores_of s) labels)
              [] [] roc_start roc_start eq_refl eq_refl)
    as (Hx & Hy & _ & Hf1 & Ht1 & Hf2 & Ht2 & _).
  { unfold roc_together. cbn. repeat split; try reflexivity; now left. }
  rewrite Hx, Hy, Hf1, Ht1, Hf2, Ht2.
  now rewrite (negatives_perm _ _ HP), (positives_perm _ _ HP).
Qed.

(** * The ROC series and the order of the sweep *)

Lemma for_range_invariant {St} (I : St -> Prop) n (body : nat -> St -> St) st :
  (forall i st, I st -> I (body i st)) -> I st -> I (for_range n body st).
Proof.
  intros Hbody. unfold for_range. generalize (seq 0 n). intros l.
  revert st. induction l as [|i l IH]; intros st Hst; simpl; [assumption|].
  apply IH. now apply Hbody.
Qed.

Lemma roc_step_ratios N Pn q label st :
  Forall (ratio_over N) (roc_x st) /\ Forall (ratio_over Pn) (roc_y st) ->
  Forall (ratio_over N) (roc_x (roc_step N Pn q label st)) /\
  Forall (ratio_over Pn) (roc_y (roc_step N Pn q label st)).
Proof.
  intros [Hx Hy]. unfold roc_step.
  destruct (py_ne q (roc_score_prev st)), (label =? 1); cbn [roc_x roc_y];
    split; try assumption;
    apply Forall_app; (split; [assumption|]);
    constructor; try constructor; eexists; reflexivity.
Qed.

(** On labelled sessions [ROC_plot] returns two non-empty series of
    ratios over the two totals. *)
Lemma ROC_plot_ratios {numpy : Numpy} s labels :
  labelled s labels ->
  exists xs ys,
    ROC_plot s = Ok (xs, ys) /\ xs <> [] /\ ys <> [] /\
    Forall (ratio_over (n_inactives s)) xs /\
    Forall (ratio_over (n_actives s)) ys.
Proof.
  intros (Hb & _ & _ & _ & Hlen). unfold ROC_plot.
  rewrite (sorted_labels_ranked s labels Hb Hlen). cbn [bind].
  match goal with
  | |- context [for_range ?n ?body ?st0] => set (st := for_range n body st0)
  end.
  assert (Hst : Forall (ratio_over (n_inactives s)) (roc_x st) /\
                Forall (ratio_over (n_actives s)) (roc_y st)).
  { unfold st. apply for_range_invariant.
    - intros i st'. apply roc_step_ratios.
    - split; constructor. }
  destruct Hst as [Hx Hy].
  eexists. eexists. split; [reflexivity|].
  split; [intros E; now apply app_eq_nil in E|].
  split; [intros E; now apply app_eq_nil in E|].
  split; apply Forall_app; (split; [assumption|]);
    constructor; try constructor; eexists; reflexivity.
Qed.

Lemma true_divide_zero a : is_finite (true_divide a (inject_Z 0)) = false.
Proof.
  unfold true_divide. change (Qeq_bool (inject_Z 0) 0) with true.
  cbv iota. now destruct (Qeq_bool a 0).
Qed.

Lemma not_finite_out_of_range x :
  is_finite x = false -> np_ge x 0 && np_le x 1 = false.
Proof.
  destruct x as [q|negative|]; cbn; [discriminate | | reflexivity].
  intros _. now destruct negative.
Qed.

(** The indices of the sweep come by descending score. *)
Lemma sorted_indices_descending {numpy : Numpy} s :
  descending (scores_of s) (sorted_indices s).
Proof.
  unfold descending, sorted_indices. fold (scores_of s).
  apply (StronglySorted_rev
           (fun i j => (nth i (scores_of s) 0 <= nth j (scores_of s) 0)%Q)).
  apply argsort_ascending.
Qed.

Lemma sorted_scores_indices {numpy : Numpy} s :
  Forall2 Qeq (sorted_scores s)
              (map (fun i => nth i (scores_of s) 0%Q) (sorted_indices s)).
Proof.
  unfold sorted_scores, sorted_indices. fold (scores_of s).
  rewrite map_rev. apply Forall2_rev, Forall2_Qeq_sym, argsort_sorts.
Qed.

(** * The enrichment factor *)

Lemma fraction_monotone (n i j : nat) :
  (i <= j)%nat ->
  (inject_Z (Z.of_nat i) / inject_Z (Z.of_nat n)
   <= inject_Z (Z.of_nat j) / inject_Z (Z.of_nat n))%Q.
Proof.
  intros Hij. unfold Qdiv. apply Qmult_le_compat_r.
  - rewrite <- Zle_Qle. lia.
  - apply Qinv_le_0_compat. change 0%Q with (inject_Z 0).
    rewrite <- Zle_Qle. lia.
Qed.

Lemma fractions_sorted n k m :
  StronglySorted Qle
    (map (fun i => (inject_Z (Z.of_nat i) / inject_Z (Z.of_nat n))%Q) (seq k m)).
Proof.
  revert k. induction m as [|m IH]; intros k; cbn [seq map]; constructor.
  - apply IH.
  - rewrite Forall_forall. intros x Hx. apply in_map_iff in Hx.
    destruct Hx as [j [<- Hj]]. apply in_seq in Hj.
    apply fraction_monotone. lia.
Qed.

Lemma screened_sorted n :
  StronglySorted Qle
    (0%Q :: map (fun i => (inject_Z (Z.of_nat i) / inject_Z (Z.of_nat n))%Q) (seq 0 n)).
Proof.
  constructor; [apply fractions_sorted|].
  rewrite Forall_forall. intros x Hx. apply in_map_iff in Hx.
  destruct Hx as [j [<- Hj]].
  assert (H := fraction_monotone n 0 j (Nat.le_0_l j)).
  cbn [Z.of_nat] in H. unfold Qdiv in H at 1. rewrite Qmult_0_l in H. exact H.
Qed.

Lemma fraction_strict (n i j : nat) :
  (0 < n)%nat -> (i < j)%nat ->
  (inject_Z (Z.of_nat i) / inject_Z (Z.of_nat n)
   < inject_Z (Z.of_nat j) / inject_Z (Z.of_nat n))%Q.
Proof.
  intros Hn Hij. unfold Qdiv. apply Qmult_lt_compat_r.
  - apply Qinv_lt_0_compat. change 0%Q with (inject_Z 0).
    rewrite <- Zlt_Qlt. lia.
  - rewrite <- Zlt_Qlt. lia.
Qed.

Lemma nth_error_map_seq {A} (h : nat -> A) n j :
  (j < n)%nat -> nth_error (map h (seq 0 n)) j = Some (h j).
Proof.
  intros Hj. rewrite nth_error_map.
  rewrite (nth_error_nth' (seq 0 n) 0%nat) by now rewrite length_seq.
  now rewrite seq_nth.
Qed.

(** The entry of the screened fractions at index [k]. *)
Lemma screened_nth (n j k : nat) :
  (k <= j)%nat ->
  (nth k (0%Q :: map (fun i => (inject_Z (Z.of_nat i) / inject_Z (Z.of_nat n))%Q)
                     (seq 0 j)) 0
   == inject_Z (Z.of_nat (pred k)) / inject_Z (Z.of_nat n))%Q.
Proof.
  intros Hk. destruct k as [|k]; cbn [nth pred].
  - cbn [Z.of_nat]. unfold Qdiv. now rewrite Qmult_0_l.
  - rewrite (nth_error_nth _ _ 0%Q (nth_error_map_seq _ j k ltac:(lia))).
    reflexivity.
Qed.

Section Factor.

Context {numpy : Numpy}.

Lemma argsort_singleton a : length a = 1%nat -> argsort a = [0%nat].
Proof.
  intros Ha. pose proof (argsort_perm a) as H. rewrite Ha in H.
  apply Permutation_sym, Permutation_length_1_inv in H. exact H.
Qed.

Lemma argsort_pair a :
  length a = 2%nat ->
  last_index (argsort a) = Some 0%nat \/ last_index (argsort a) = Some 1%nat.
Proof.
  intros Ha. pose proof (argsort_perm a) as H. rewrite Ha in H.
  apply Permutation_sym, Permutation_length_2_inv in H.
  destruct H as [-> | ->]; [now right | now left].
Qed.

(** The index [enrichment_factor] selects among the first [j] screened
    fractions: the last one, unless there is only one, which is tied
    with the leading 0. *)
Lemma screened_last (n j k : nat) :
  (j <= n)%nat ->
  last_index
    (argsort (0%Q :: map (fun i => (inject_Z (Z.of_nat i) / inject_Z (Z.of_nat n))%Q)
                         (seq 0 j))) = Some k ->
  (k <= j)%nat /\ ((2 <= j)%nat -> k = j).
Proof.
  intros Hj H. apply argsort_last in H. destruct H as [Hk Hmax].
  cbn [length] in Hk, Hmax. rewrite length_map, length_seq in Hk, Hmax.
  split; [lia|]. intros H2.
  destruct (Nat.eq_dec k j) as [E | E]; [assumption|]. exfalso.
  specialize (Hmax j ltac:(lia)).
  rewrite (screened_nth n j j), (screened_nth n j k) in Hmax by lia.
  apply (Qle_not_lt _ _ Hmax). apply fraction_strict; lia.
Qed.

Lemma enrichment_factor_out_of_range s p :
  (p < 0)%Q \/ (100 < p)%Q ->
  enrichment_factor s p = Raise OpenPharmacophoreValueError.
Proof.
  intros Hp. unfold enrichment_factor. destruct Hp as [Hp | Hp].
  - apply py_lt_iff in Hp. now rewrite Hp.
  - apply py_gt_iff in Hp. rewrite Hp. now rewrite orb_true_r.
Qed.

End Factor.

(** * Properties of the metrics *)

Lemma fresh_ssd_fresh : fresh fresh_ssd.
Proof. now exists Pharmacophore3D, tanimoto. Qed.

Lemma fresh_similarity_fresh : fresh fresh_similarity.
Proof. now exists SparseBitVect, tanimoto. Qed.

Lemma example_screen_populated : populated example_screen.
Proof.
  exists example_toolkit, fresh_similarity,
    [("a", "CC"); ("b", "NN"); ("c", "C")]%string, [0; 1; 1].
  split; [apply fresh_similarity_fresh|].
  split; [unfold binary; repeat (constructor; [lia|]); constructor | reflexivity].
Qed.

Lemma ranked_scores_in {numpy : Numpy} s labels p :
  In p (ranked (scores_of s) labels) ->
  exists r, In r (molecules s) /\ fst p = score r.
Proof.
  unfold ranked. rewrite in_map_iff. intros [i [<- Hi]]. cbn [fst].
  rewrite <- in_rev in Hi.
  apply (Permutation_in _ (argsort_perm _)) in Hi. apply in_seq in Hi.
  unfold scores_of in *. rewrite length_map in Hi.
  destruct (nth_error (molecules s) i) as [r|] eqn:E;
    [|apply nth_error_None in E; lia].
  exists r. split; [eapply nth_error_In; eassumption|].
  apply nth_error_nth. rewrite nth_error_map, E. reflexivity.
Qed.

(** C2. On a populated session with at least one active and one
    inactive, [AUC] returns a finite value in [0, 1]; the value is 1
    when every active scores strictly above every inactive, 0 when
    every inactive scores strictly above every active, and 1/2 when
    all scores are equal.  The value is the area accumulated by the
    descending sweep plus the closing trapezoid to the totals
    [(n_negatives, n_positives)], divided by
    [n_negatives * n_positives]; the sweep adds a trapezoid exactly
    when the score differs from the previous one, so a run of tied
    scores is one trapezoid. *)
Theorem AUC_value {numpy : Numpy} (s : session) :
  populated s -> 1 <= n_actives s -> 1 <= n_inactives s ->
  exists (v : Q) (labels : list Z),
    AUC s = Ok (Finite v) /\
    (0 <= v)%Q /\ (v <= 1)%Q /\
    (perfect_ranking s -> (v == 1)%Q) /\
    (inverted_ranking s -> (v == 0)%Q) /\
    (all_scores_equal s -> (v == 1 # 2)%Q) /\
    bioactivities s = Some labels /\
    StronglySorted (fun x y => (fst y <= fst x)%Q) (ranked (scores_of s) labels) /\
    v = (final_area s (sweep_over (ranked (scores_of s) labels) sweep_start)
         / inject_Z (n_inactives s * n_actives s))%Q /\
    (forall x l st, (x == score_prev st)%Q ->
       area (auc_step x l st) = area st /\
       false_pos_prev (auc_step x l st) = false_pos_prev st /\
       true_pos_prev (auc_step x l st) = true_pos_prev st) /\
    (forall x l st, ~ (x == score_prev st)%Q ->
       area (auc_step x l st) =
       (area st +
        trapezoid_area (inject_Z (sw_false_positives st)) (inject_Z (false_pos_prev st))
                       (inject_Z (sw_true_positives st)) (inject_Z (true_pos_prev st)))%Q /\
       false_pos_prev (auc_step x l st) = sw_false_positives st /\
       true_pos_prev (auc_step x l st) = sw_true_positives st).
Proof.
  intros Hpop Hact Hinact.
  destruct (populated_labelled s Hpop) as (labels & Hlab & _ & _).
  pose proof Hlab as (Hb & Hbin & Ha & Hi & Hlen).
  set (L := ranked (scores_of s) labels).
  set (st := sweep_over L sweep_start).
  assert (Hperm : Permutation L (combine (scores_of s) labels)).
  { apply ranked_perm. unfold scores_of. now rewrite length_map. }
  destruct (combine_totals (scores_of s) labels Hbin) as [Hp Hn].
  pose proof (sweep_final L (ranked_descending _ _)) as Hinv. fold st in Hinv.
  destruct (total_area L st (n_inactives s) (n_actives s) Hinv)
    as (t2 & Ht2 & Hbound & Hpaired & Htied).
  { rewrite (negatives_perm _ _ Hperm). lia. }
  { rewrite (positives_perm _ _ Hperm). lia. }
  fold (final_area s st) in Ht2.
  destruct (normalise (final_area s st) t2 (n_inactives s) (n_actives s)
              Ht2 Hinact Hact Hbound) as (Hdiv & H0 & H1 & Hone & Hzero & Hhalf).
  exists (final_area s st / inject_Z (n_inactives s * n_actives s))%Q, labels.
  split; [|split; [exact H0 | split; [exact H1|]]].
  { rewrite (AUC_ranked s labels Hlab). cbv zeta. fold L. fold st.
    rewrite Hdiv. cbn [np_ge np_le].
    apply Qle_bool_iff in H0, H1. now rewrite H0, H1. }
  split; [|split; [|split; [|split; [exact Hb | split; [apply ranked_descending |
    split; [reflexivity | split]]]]]].
  - intros Hperf. apply Hone.
    pose proof (scored_pairs_length _ s labels Hlab Hact Hinact Hperf) as Heq.
    destruct (cross_ranking (fun a b => (b < a)%Q) 2 s labels
                (fun a b H => weight_above a b H) Hlab Heq Hperf) as (En & Ep & Ec).
    fold L in En, Ep, Ec.
    rewrite (Hpaired (eq_sym En) (eq_sym Ep)), Ec. lia.
  - intros Hinv'. apply Hzero.
    pose proof (scored_pairs_length _ s labels Hlab Hact Hinact Hinv') as Heq.
    destruct (cross_ranking (fun a b => (a < b)%Q) 0 s labels
                (fun a b H => weight_below a b H) Hlab Heq Hinv') as (En & Ep & Ec).
    fold L in En, Ep, Ec.
    rewrite (Hpaired (eq_sym En) (eq_sym Ep)), Ec. lia.
  - intros Hall. apply Hhalf. apply Htied.
    intros p q Hp' Hq'.
    apply ranked_scores_in in Hp', Hq'.
    destruct Hp' as (r1 & Hr1 & ->). destruct Hq' as (r2 & Hr2 & ->).
    now apply Hall.
  - intros x l st' Hx. apply py_ne_false in Hx. unfold auc_step.
    rewrite Hx. destruct (l =? 1); repeat split.
  - intros x l st' Hx. apply py_ne_true in Hx. unfold auc_step.
    rewrite Hx. destruct (l =? 1); repeat split.
Qed.

Lemma AUC_value_witness :
  exists (v : Q) (labels : list Z),
    @AUC insertion_numpy example_screen = Ok (Finite v) /\
    (0 <= v)%Q /\ (v <= 1)%Q /\
    bioactivities example_screen = Some labels.
Proof.
  destruct (@AUC_value insertion_numpy example_screen) as (v & labels & H1 & H2 & H3 & _ & _ & _ & H4 & _).
  - exact example_screen_populated.
  - vm_compute. discriminate.
  - vm_compute. discriminate.
  - exists v, labels. repeat split; assumption.
Defined.

Lemma example_single_populated : populated example_single.
Proof.
  exists example_toolkit, fresh_similarity, [("a", "CC")]%string, [1].
  split; [apply fresh_similarity_fresh|].
  split; [unfold binary; repeat (constructor; [lia|]); constructor | reflexivity].
Qed.

(** C1 (the code departs from the claim).  On a session with one
    scored molecule, which is active, [_enrichment_data] returns two
    points as claimed, but the point recorded for the whole database
    (the prefix of length 1) has the screened fraction 0, not 1: the
    loop stores [ii / n_molecules] next to the count of actives among
    the first [ii + 1] molecules. *)
Theorem enrichment_data_single {numpy : Numpy} :
  populated example_single /\
  n_actives example_single = 1 /\
  length (molecules example_single) = 1%nat /\
  _enrichment_data example_single = Ok ([0; 0]%Q, [Finite 0; Finite 1]).
Proof.
  split; [exact example_single_populated|].
  split; [reflexivity|]. split; [reflexivity|].
  unfold _enrichment_data, sorted_labels, sorted_indices.
  rewrite argsort_singleton by reflexivity. reflexivity.
Qed.

(** C10, as the code has it.  Nothing stops a second
    [from_bioactivity_data] on a session: where the call would succeed
    on a fresh session it succeeds on a populated one.  It replaces
    the labels and their totals by those of the second call and
    appends behind the records of the first call exactly the records
    it stores on a fresh session, so the records of the first call
    keep their indices and the record that would sit at index [i]
    sits at index [length (molecules s1) + i].  The store is longer
    than the label array whenever the first call stored a record and
    the second call stores one record per molecule, which the
    fingerprint strategy always does; the geometric strategy may skip
    molecules, and then the two lengths can agree.  The fingerprint
    strategy sets [n_molecules] to the length of the second list, the
    geometric strategy adds it. *)
Theorem second_call_breaks_pairing {T : Toolkit}
    (s0 s1 fresh2 : session) (sm1 sm2 : list (string * string)) (l1 l2 : list Z) :
  fresh s0 -> binary l2 ->
  from_bioactivity_data sm1 (Rank1 l1) s0 = (Ok tt, s1) ->
  from_bioactivity_data sm2 (Rank1 l2) s0 = (Ok tt, fresh2) ->
  exists s2,
    from_bioactivity_data sm2 (Rank1 l2) s1 = (Ok tt, s2) /\
    bioactivities s2 = Some l2 /\
    n_actives s2 = np_sum l2 /\
    n_inactives s2 = Z.of_nat (length l2) - np_sum l2 /\
    molecules s2 = molecules s1 ++ molecules fresh2 /\
    (forall i, (i < length (molecules s1))%nat ->
               nth_error (molecules s2) i = nth_error (molecules s1) i) /\
    (forall i, nth_error (molecules s2) (length (molecules s1) + i)
               = nth_error (molecules fresh2) i) /\
    length (molecules s2)
    = (length (molecules s1) + length (molecules fresh2))%nat /\
    (length (molecules fresh2) <= length l2)%nat /\
    (molecules s1 <> [] -> length (molecules fresh2) = length l2 ->
     (length l2 < length (molecules s2))%nat) /\
    match scoring_metric s0 with
    | Similarity =>
        n_molecules s2 = Z.of_nat (length l2) /\
        length (molecules s1) = length l1 /\
        length (molecules fresh2) = length l2 /\
        (l1 <> [] -> (length l2 < length (molecules s2))%nat)
    | SSD =>
        n_molecules s2 = Z.of_nat (length l1) + Z.of_nat (length l2) /\
        (length (molecules s1) <= length l1)%nat
    end.
Proof.
  intros Hf _ H1 H2.
  pose proof (from_bioactivity_data_ok _ _ _ _ H1)
    as (Hl1 & _ & _ & _ & Hm1 & Hk1 & recs1 & Hr1 & Hcase1).
  pose proof (from_bioactivity_data_outcome sm2 (Rank1 l2) s1 s0 Hm1 Hk1) as Hout.
  rewrite H2 in Hout. cbn [fst] in Hout.
  destruct (from_bioactivity_data sm2 (Rank1 l2) s1) as [r s2] eqn:E.
  cbn [fst] in Hout. subst r.
  pose proof (from_bioactivity_data_ok _ _ _ _ E)
    as (Hl2 & Hb & Ha & Hi & Hm2 & Hk2 & recs & _ & Hcase).
  pose proof (from_bioactivity_data_ok _ _ _ _ H2)
    as (_ & _ & _ & _ & _ & _ & recsF & HrF & HcaseF).
  destruct (from_bioactivity_data_store _ _ _ _ E) as (mols & Hp & _ & Hs2).
  destruct (from_bioactivity_data_store _ _ _ _ H2) as (mols' & Hp' & _ & HsF).
  rewrite Hp in Hp'. injection Hp' as <-.
  apply fresh_fields in Hf. destruct Hf as (Hm0 & Hn0 & _).
  rewrite Hm0 in HsF, Hr1, HrF. cbn [app] in HsF, Hr1, HrF.
  assert (Hrecs : scored_records s1 mols = scored_records s0 mols).
  { unfold scored_records. now rewrite Hm1, Hk1. }
  rewrite Hrecs, <- HsF in Hs2.
  assert (Hlen : length (molecules s2)
                 = (length (molecules s1) + length (molecules fresh2))%nat).
  { rewrite Hs2. apply length_app. }
  assert (HlenF : (length (molecules fresh2) <= length l2)%nat).
  { rewrite HrF. destruct (scoring_metric s0).
    - now destruct HcaseF.
    - destruct HcaseF as [_ Hid]. rewrite <- (length_map id), Hid, length_map. lia. }
  exists s2.
  split; [reflexivity|]. do 3 (split; [assumption|]).
  split; [exact Hs2|].
  split; [intros i Hi'; rewrite Hs2; now apply nth_error_app1|].
  split; [intros i; rewrite Hs2, nth_error_app2 by lia; f_equal; lia|].
  split; [exact Hlen|]. split; [exact HlenF|].
  split.
  { intros Hne HF. rewrite Hlen, HF.
    destruct (molecules s1); [contradiction | simpl; lia]. }
  rewrite Hm1 in Hcase.
  destruct (scoring_metric s0).
  - destruct Hcase1 as [Hn1 Hle1]. destruct Hcase as [Hn2 _].
    split; [lia|]. now rewrite Hr1.
  - destruct Hcase1 as [_ Hid1]. destruct Hcase as [Hn2 _].
    destruct HcaseF as [_ HidF].
    assert (Hlen1 : length (molecules s1) = length l1).
    { rewrite Hr1, <- (length_map id), Hid1, length_map. exact Hl1. }
    assert (HlenF' : length (molecules fresh2) = length l2).
    { rewrite HrF, <- (length_map id), HidF, length_map. exact Hl2. }
    split; [assumption|]. split; [assumption|]. split; [assumption|].
    intros Hne. rewrite Hlen, Hlen1, HlenF'.
    destruct l1; [contradiction | simpl; lia].
Qed.

Lemma second_call_breaks_pairing_witness :
  (exists s2,
     @from_bioactivity_data example_toolkit
       [("c", "C")]%string (Rank1 [1]) example_tied = (Ok tt, s2) /\
     bioactivities s2 = Some [1] /\
     length (molecules s2) = 3%nat /\
     n_molecules s2 = 1) /\
  (exists s2,
     @from_bioactivity_data example_toolkit
       [("a", "C"); ("b", "CCO")]%string (Rank1 [0; 1]) example_first_call
     = (Ok tt, s2) /\
     molecules s2 = molecules example_first_call ++ molecules example_misaligned /\
     n_molecules s2 = 3).
Proof.
  split.
  - destruct (@second_call_breaks_pairing example_toolkit
                fresh_similarity example_tied
                (snd (@from_bioactivity_data example_toolkit
                        [("c", "C")]%string (Rank1 [1]) fresh_similarity))
                [("a", "CC"); ("b", "NN")]%string [("c", "C")]%string
                [0; 1] [1])
      as (s2 & H1 & H2 & _ & _ & _ & _ & _ & H3 & _ & _ & H4).
    + exact fresh_similarity_fresh.
    + unfold binary. repeat (constructor; [lia|]). constructor.
    + reflexivity.
    + reflexivity.
    + exists s2. cbn [scoring_metric fresh_similarity] in H4.
      destruct H4 as (H4 & _).
      split; [assumption|]. split; [assumption|]. split; assumption.
  - destruct (@second_call_breaks_pairing example_toolkit
                fresh_ssd example_first_call example_misaligned
                [("b", "CCO")]%string [("a", "C"); ("b", "CCO")]%string
                [1] [0; 1])
      as (s2 & H1 & _ & _ & _ & H2 & _ & _ & _ & _ & _ & H4).
    + exact fresh_ssd_fresh.
    + unfold binary. repeat (constructor; [lia|]). constructor.
    + reflexivity.
    + reflexivity.
    + exists s2. cbn [scoring_metric fresh_ssd] in H4.
      destruct H4 as (H4 & _).
      split; [assumption|]. split; assumption.
Defined.

(** C10 as stated fails: under the geometric strategy the first call
    stores one record, the second call of two molecules skips one of
    them, and the store has the length of the label array again.  The
    record at index 0 is still the one of the first call. *)
Lemma second_call_lengths_agree :
  @from_bioactivity_data example_toolkit
    [("b", "CCO")]%string (Rank1 [1]) fresh_ssd = (Ok tt, example_first_call) /\
  @from_bioactivity_data example_toolkit
    [("a", "C"); ("b", "CCO")]%string (Rank1 [0; 1]) example_first_call
  = (Ok tt, example_second_call) /\
  bioactivities example_second_call = Some [0; 1] /\
  map id (molecules example_second_call) = ["b"; "b"]%string /\
  nth_error (molecules example_second_call) 0
  = nth_error (molecules example_first_call) 0 /\
  length (molecules example_second_call) = length [0; 1].
Proof. repeat split. Qed.



(** C6. [confusion_matrix] predicts a molecule active exactly when its
    score is strictly above the threshold: the matrix counts the
    records, paired by position with the labels, by label and by
    [predicted_active].  Without a threshold a fingerprint session
    raises [MissingParameters]; a geometric session uses the threshold
    0 whatever the caller passes.  The matrix is returned when its
    entries sum to [n_molecules], which always holds on a populated
    fingerprint session. *)
Theorem confusion_matrix_threshold (s : session) :
  (forall t r, predicted_active t r = true <-> (t < score r)%Q) /\
  (scoring_metric s = Similarity ->
   confusion_matrix s None = Raise MissingParameters) /\
  (scoring_metric s = SSD ->
   forall t, confusion_matrix s t = confusion_matrix s (Some 0%Q)) /\
  (forall labels t,
     bioactivities s = Some labels ->
     (length (molecules s) <= length labels)%nat ->
     let m := expected_matrix labels (molecules s) (effective_threshold s t) in
     confusion_matrix s (Some t)
     = if matrix_sum m =? n_molecules s then Ok m else Raise AssertionError) /\
  (populated s -> scoring_metric s = Similarity ->
   exists labels,
     bioactivities s = Some labels /\
     forall t, confusion_matrix s (Some t)
               = Ok (expected_matrix labels (molecules s) t)).
Proof.
  split; [exact predicted_active_iff|].
  split; [intros H; unfold confusion_matrix; now rewrite H|].
  split; [intros H t; unfold confusion_matrix; rewrite H; now destruct t|].
  split; [intros labels t Hb Hlen; now apply confusion_matrix_cells|].
  intros Hpop Hsim.
  destruct (populated_labelled s Hpop) as (labels & Hlab & Hn & Hlen).
  destruct Hlab as (Hb & Hbin & _ & _ & Hle).
  exists labels. split; [assumption|]. intros t.
  rewrite (confusion_matrix_cells s labels t Hb Hle). cbv zeta.
  unfold effective_threshold. rewrite Hsim.
  rewrite expected_matrix_sum by assumption.
  rewrite Hn, (Hlen Hsim), Z.eqb_refl. reflexivity.
Qed.

Lemma confusion_matrix_threshold_witness :
  confusion_matrix fresh_similarity None = Raise MissingParameters /\
  confusion_matrix fresh_ssd (Some (7 # 1)) = confusion_matrix fresh_ssd (Some 0%Q) /\
  exists labels,
    bioactivities example_screen = Some labels /\
    confusion_matrix example_screen (Some (1 # 2))
    = Ok (expected_matrix labels (molecules example_screen) (1 # 2)).
Proof.
  split; [|split].
  - destruct (confusion_matrix_threshold fresh_similarity) as (_ & H & _).
    apply H. reflexivity.
  - destruct (confusion_matrix_threshold fresh_ssd) as (_ & _ & H & _).
    apply H. reflexivity.
  - destruct (confusion_matrix_threshold example_screen) as (_ & _ & _ & _ & H).
    destruct H as (labels & Hb & Ht);
      [exact example_screen_populated | reflexivity |].
    exists labels. split; [assumption | apply Ht].
Defined.

Example confusion_matrix_example :
  confusion_matrix example_screen (Some (1 # 2)) = Ok ((1, 0), (1, 1)).
Proof. reflexivity. Qed.

Lemma example_skipped_populated : populated example_skipped.
Proof.
  exists example_toolkit, fresh_ssd, [("a", "C")]%string, [1].
  split; [apply fresh_ssd_fresh|].
  split; [unfold binary; repeat (constructor; [lia|]); constructor | reflexivity].
Qed.

(** The entries of a returned matrix sum to [n_molecules], and on a
    populated session whose store has one record per label the matrix
    is returned. *)
Lemma confusion_matrix_sum (s : session) (t : option Q) (m : cf_matrix) :
  confusion_matrix s t = Ok m -> matrix_sum m = n_molecules s.
Proof.
  unfold confusion_matrix. intros H.
  assert (Hc : forall t', tally_and_check s t' = Ok m -> matrix_sum m = n_molecules s).
  { intros t'. unfold tally_and_check.
    destruct (tally_loop _ _ _ _ _) as [c|]; cbn [bind]; [|discriminate].
    destruct (matrix_sum (matrix_of c) =? n_molecules s) eqn:E; [|discriminate].
    intros H'. inversion H'; subst. now apply Z.eqb_eq. }
  destruct (scoring_metric s), t as [t|]; try discriminate; eapply Hc; eassumption.
Qed.

Lemma confusion_matrix_all_scored (s : session) (t : Q) :
  populated s ->
  n_molecules s = Z.of_nat (length (molecules s)) ->
  exists m, confusion_matrix s (Some t) = Ok m /\ matrix_sum m = n_molecules s.
Proof.
  intros Hpop Hall.
  destruct (populated_labelled s Hpop) as (labels & Hlab & Hn & _).
  destruct Hlab as (Hb & Hbin & _ & _ & Hle).
  pose proof (confusion_matrix_cells s labels t Hb Hle) as H. cbv zeta in H.
  rewrite expected_matrix_sum, Hall, Z.eqb_refl in H by assumption.
  eexists. split; [exact H|].
  rewrite expected_matrix_sum by assumption. now rewrite Hall.
Qed.

(** C3 (the code departs from the claim).  Under the geometric
    strategy, one active molecule whose embedding raises is counted in
    [n_molecules] but leaves no record: the entries of the matrix sum
    to 0, [n_molecules] is 1, and the assertion that guards the return
    of [confusion_matrix] fails, for every threshold. *)
Theorem confusion_matrix_skipped :
  populated example_skipped /\
  scoring_metric example_skipped = SSD /\
  molecules example_skipped = [] /\
  n_molecules example_skipped = 1 /\
  forall t, confusion_matrix example_skipped t = Raise AssertionError.
Proof.
  split; [exact example_skipped_populated|].
  do 3 (split; [reflexivity|]).
  intros [t|]; reflexivity.
Qed.

(** C8, as the code has it.  On a session that [__init__] has just
    built no metric checks that scoring has run.  [confusion_matrix]
    returns the all-zero matrix (a fingerprint session still asks for
    its threshold first); [AUC], [ROC_plot], [_enrichment_data] and
    [enrichment_factor] with a percentage in [0, 100] raise the
    [TypeError] of indexing the label array, which is still [None];
    [enrichment_factor] with another percentage raises its value
    error. *)
Theorem fresh_session_metrics {numpy : Numpy} (s : session) :
  fresh s ->
  (scoring_metric s = SSD ->
   forall t, confusion_matrix s t = Ok ((0, 0), (0, 0))) /\
  (scoring_metric s = Similarity ->
   confusion_matrix s None = Raise MissingParameters /\
   forall t, confusion_matrix s (Some t) = Ok ((0, 0), (0, 0))) /\
  AUC s = Raise TypeError /\
  ROC_plot s = Raise TypeError /\
  _enrichment_data s = Raise TypeError /\
  (forall p, (0 <= p)%Q -> (p <= 100)%Q ->
             enrichment_factor s p = Raise TypeError) /\
  (forall p, (p < 0)%Q \/ (100 < p)%Q ->
             enrichment_factor s p = Raise OpenPharmacophoreValueError).
Proof.
  intros [p [kind H]].
  assert (Hdata : _enrichment_data s = Raise TypeError).
  { destruct p; simpl in H; inversion H; subst; reflexivity. }
  split; [|split; [|split; [|split; [|split; [exact Hdata | split]]]]].
  - intros Hm t. destruct p; simpl in H; inversion H; subst;
      [destruct t; reflexivity | discriminate].
  - intros Hm. destruct p; simpl in H; inversion H; subst;
      [discriminate | split; [reflexivity | intros t; reflexivity]].
  - destruct p; simpl in H; inversion H; subst; reflexivity.
  - destruct p; simpl in H; inversion H; subst; reflexivity.
  - intros q H0 H1. unfold enrichment_factor.
    assert (E1 : py_lt q 0 = false).
    { apply not_true_iff_false. intros E. apply py_lt_iff in E.
      now apply (Qlt_not_le _ _ E). }
    assert (E2 : py_gt q 100 = false).
    { apply not_true_iff_false. intros E. apply py_gt_iff in E.
      now apply (Qlt_not_le _ _ E). }
    rewrite E1, E2, Hdata. reflexivity.
  - intros q Hq. unfold enrichment_factor.
    destruct Hq as [Hq | Hq].
    + apply py_lt_iff in Hq. now rewrite Hq.
    + apply py_gt_iff in Hq. rewrite Hq. now rewrite orb_true_r.
Qed.

Lemma fresh_session_metrics_witness :
  confusion_matrix fresh_ssd None = Ok ((0, 0), (0, 0)) /\
  @AUC insertion_numpy fresh_ssd = Raise TypeError /\
  @ROC_plot insertion_numpy fresh_ssd = Raise TypeError /\
  @_enrichment_data insertion_numpy fresh_ssd = Raise TypeError /\
  @enrichment_factor insertion_numpy fresh_ssd 50 = Raise TypeError.
Proof.
  destruct (@fresh_session_metrics insertion_numpy fresh_ssd fresh_ssd_fresh)
    as (H1 & _ & H2 & H3 & H4 & H5 & _).
  split; [apply H1; reflexivity|].
  repeat (split; [assumption|]).
  apply H5; discriminate.
Defined.

(** C8 as stated fails: a metric called on a fresh session need not
    raise at all. *)
Lemma fresh_session_no_error :
  ~ (forall s t, fresh s -> exists e, confusion_matrix s t = Raise e).
Proof.
  intros H. destruct (H fresh_ssd None fresh_ssd_fresh) as [e He].
  discriminate He.
Qed.

(** C5, as the code has it.  The code has no check of the label
    totals.  On a populated session without an inactive or without an
    active, [AUC] divides by zero, the quotient is not a finite number
    and the assertion on its range fails, so [AUC] raises
    [AssertionError]; [ROC_plot] raises nothing and returns its two
    series, all of whose x coordinates are non-finite when there is no
    inactive and all of whose y coordinates are non-finite when there
    is no active. *)
Theorem degenerate_labels {numpy : Numpy} (s : session) :
  populated s ->
  n_inactives s = 0 \/ n_actives s = 0 ->
  AUC s = Raise AssertionError /\
  exists xs ys,
    ROC_plot s = Ok (xs, ys) /\ xs <> [] /\ ys <> [] /\
    (n_inactives s = 0 -> Forall (fun x => is_finite x = false) xs) /\
    (n_actives s = 0 -> Forall (fun y => is_finite y = false) ys).
Proof.
  intros Hpop Hdeg.
  destruct (populated_labelled s Hpop) as (labels & Hlab & _ & _).
  split.
  - rewrite (AUC_ranked s labels Hlab). cbv zeta.
    assert (E : n_inactives s * n_actives s = 0) by (destruct Hdeg as [-> | ->]; lia).
    rewrite E, not_finite_out_of_range; [reflexivity | apply true_divide_zero].
  - destruct (ROC_plot_ratios s labels Hlab) as (xs & ys & Hroc & Hx & Hy & Hxs & Hys).
    exists xs, ys. do 3 (split; [assumption|]).
    split; intros E; rewrite E in *;
      match goal with
      | H : Forall (ratio_over 0) ?l |- Forall _ ?l =>
          eapply Forall_impl; [|exact H]
      end;
      intros x [k ->]; apply true_divide_zero.
Qed.

Lemma degenerate_labels_witness :
  @AUC insertion_numpy example_single = Raise AssertionError /\
  exists xs ys,
    @ROC_plot insertion_numpy example_single = Ok (xs, ys) /\ xs <> [] /\ ys <> [].
Proof.
  destruct (@degenerate_labels insertion_numpy example_single) as (H & xs & ys & Hr & Hx & Hy & _).
  - exact example_single_populated.
  - left. reflexivity.
  - split; [assumption|]. exists xs, ys. repeat split; assumption.
Defined.

(** C5 as stated fails: with one active molecule and no inactive one,
    [ROC_plot] returns normally, with [nan] for every false-positive
    rate, and the error of [AUC] is that of its range assertion. *)
Lemma degenerate_roc_returns_nan :
  populated example_single /\
  n_inactives example_single = 0 /\
  @ROC_plot insertion_numpy example_single
  = Ok ([NaN; NaN], [Finite 0; Finite 1]) /\
  @AUC insertion_numpy example_single = Raise AssertionError.
Proof.
  split; [exact example_single_populated|]. repeat split.
Qed.



Lemma example_misaligned_populated : populated example_misaligned.
Proof.
  exists example_toolkit, fresh_ssd, [("a", "C"); ("b", "CCO")]%string, [0; 1].
  split; [apply fresh_ssd_fresh|].
  split; [unfold binary; repeat (constructor; [lia|]); constructor | reflexivity].
Qed.

(** C9 (the code departs from the claim).  Under the geometric
    strategy, an inactive molecule whose embedding raises is followed
    by an active molecule that is embedded.  The store holds the one
    record of the active molecule, at index 0, where the label array
    holds the label of the skipped molecule: no active is found and
    [enrichment_factor(100)] returns 0 on a session with one active. *)
Theorem enrichment_factor_misaligned {numpy : Numpy} :
  populated example_misaligned /\
  n_actives example_misaligned = 1 /\
  bioactivities example_misaligned = Some [0; 1] /\
  map id (molecules example_misaligned) = ["b"%string] /\
  sorted_labels example_misaligned = Ok [0] /\
  enrichment_factor example_misaligned 100 = Ok (Finite 0).
Proof.
  split; [exact example_misaligned_populated|].
  do 3 (split; [reflexivity|]).
  assert (HL : sorted_labels example_misaligned = Ok [0]).
  { unfold sorted_labels, sorted_indices.
    rewrite argsort_singleton by reflexivity. reflexivity. }
  split; [exact HL|].
  unfold enrichment_factor, _enrichment_data. rewrite HL.
  change (py_lt 100 0 || py_gt 100 100) with false. cbn [bind].
  match goal with
  | |- context [argsort ?a] =>
      destruct (argsort_pair a eq_refl) as [E | E]; rewrite E; reflexivity
  end.
Qed.

(** * Further properties of [AUC] *)

Lemma example_screen_fully_scored : fully_scored example_screen example_labels.
Proof.
  split; [|reflexivity].
  unfold labelled.
  split; [reflexivity|]. split; [|split; [reflexivity|split; [reflexivity|simpl; lia]]].
  unfold binary. repeat (constructor; [lia|]). constructor.
Qed.

Lemma AUC_pairs {numpy : Numpy} (s : session) (labels : list Z) :
  fully_scored s labels ->
  1 <= n_actives s -> 1 <= n_inactives s ->
  exists a v : Q,
    AUC s = Ok (Finite v) /\
    v = (a / inject_Z (n_inactives s * n_actives s))%Q /\
    (2 * a == inject_Z (cross (pairs_of s labels) (pairs_of s labels)))%Q /\
    (2 * v * inject_Z (n_inactives s * n_actives s)
     == inject_Z (cross (pairs_of s labels) (pairs_of s labels)))%Q.
Proof.
  intros [Hlab Heq] Hact Hinact.
  pose proof Hlab as (Hb & Hbin & Ha & Hi & Hlen).
  set (L := ranked (scores_of s) labels).
  set (st := sweep_over L sweep_start).
  assert (Hperm : Permutation L (pairs_of s labels)).
  { apply ranked_perm. unfold scores_of. now rewrite length_map. }
  destruct (combine_totals_paired (scores_of s) labels Hbin) as [Hp Hn].
  { unfold scores_of. now rewrite length_map. }
  fold (pairs_of s labels) in Hp, Hn.
  pose proof (sweep_final L (ranked_descending _ _)) as Hinv. fold st in Hinv.
  destruct (total_area L st (n_inactives s) (n_actives s) Hinv)
    as (t2 & Ht2 & Hbound & Hpaired & _).
  { rewrite (negatives_perm _ _ Hperm). lia. }
  { rewrite (positives_perm _ _ Hperm). lia. }
  fold (final_area s st) in Ht2.
  destruct (normalise (final_area s st) t2 (n_inactives s) (n_actives s)
              Ht2 Hinact Hact Hbound) as (Hdiv & H0 & H1 & _).
  assert (Hc : t2 = cross (pairs_of s labels) (pairs_of s labels)).
  { rewrite <- (cross_perm _ _ Hperm). apply Hpaired.
    - rewrite (negatives_perm _ _ Hperm). lia.
    - rewrite (positives_perm _ _ Hperm). lia. }
  exists (final_area s st),
    (final_area s st / inject_Z (n_inactives s * n_actives s))%Q.
  split; [|split; [reflexivity|split]].
  - rewrite (AUC_ranked s labels Hlab). cbv zeta. fold L. fold st.
    rewrite Hdiv. cbn [np_ge np_le].
    apply Qle_bool_iff in H0, H1. now rewrite H0, H1.
  - rewrite <- Hc. exact Ht2.
  - rewrite <- Hc, <- Ht2. field.
    change 0%Q with (inject_Z 0). rewrite inject_Z_injective. nia.
Qed.

(** [AUC] returns the area of the sweep divided by
    [n_negatives * n_positives], and twice that area is the count of
    ranked pairs: every (active, inactive) pair counts 2 when the
    active has the higher score, 1 when the two scores are equal and 0
    otherwise. *)
Theorem AUC_mann_whitney {numpy : Numpy} (s : session) (labels : list Z) :
  fully_scored s labels ->
  1 <= n_actives s -> 1 <= n_inactives s ->
  exists a : Q,
    AUC s = Ok (Finite (a / inject_Z (n_inactives s * n_actives s))) /\
    (2 * a == inject_Z (cross (pairs_of s labels) (pairs_of s labels)))%Q.
Proof.
  intros Hfs Hact Hinact.
  destruct (AUC_pairs s labels Hfs Hact Hinact) as (a & v & Hv & -> & Ha & _).
  now exists a.
Qed.

Lemma AUC_mann_whitney_witness :
  exists a : Q,
    @AUC insertion_numpy example_screen
    = Ok (Finite (a / inject_Z (n_inactives example_screen
                                * n_actives example_screen))) /\
    (2 * a == inject_Z (cross (pairs_of example_screen example_labels)
                              (pairs_of example_screen example_labels)))%Q.
Proof.
  apply (@AUC_mann_whitney insertion_numpy example_screen example_labels).
  - exact example_screen_fully_scored.
  - vm_compute. discriminate.
  - vm_compute. discriminate.
Defined.

Lemma map_snd_combine {A B} (a : list A) (b : list B) :
  length a = length b -> map snd (combine a b) = b.
Proof.
  revert b. induction a as [|x a IH]; intros [|y b] H; try discriminate; [reflexivity|].
  simpl. f_equal. apply IH. now injection H.
Qed.

Lemma np_sum_perm l1 l2 : Permutation l1 l2 -> np_sum l1 = np_sum l2.
Proof. unfold np_sum. induction 1; cbn [fold_right]; lia. Qed.

Lemma pairs_labels s labels :
  fully_scored s labels -> map snd (pairs_of s labels) = labels.
Proof.
  intros [_ Heq]. apply map_snd_combine. unfold scores_of. now rewrite length_map.
Qed.

(** Two fully scored sessions with the same (score, label) pairs have
    the same totals. *)
Lemma same_pairs_totals s1 s2 l1 l2 :
  fully_scored s1 l1 -> fully_scored s2 l2 ->
  Permutation (pairs_of s1 l1) (pairs_of s2 l2) ->
  n_actives s2 = n_actives s1 /\ n_inactives s2 = n_inactives s1.
Proof.
  intros H1 H2 Hperm.
  assert (Hl : Permutation l1 l2).
  { rewrite <- (pairs_labels s1 l1 H1), <- (pairs_labels s2 l2 H2).
    now apply Permutation_map. }
  destruct H1 as [(_ & _ & Ha1 & Hi1 & _) _].
  destruct H2 as [(_ & _ & Ha2 & Hi2 & _) _].
  rewrite Ha1, Ha2, Hi1, Hi2, (np_sum_perm _ _ Hl), (Permutation_length Hl).
  split; reflexivity.
Qed.

(** [AUC] does not depend on the order in which the molecules were
    supplied: sessions whose (score, label) pairs are a rearrangement
    of one another have the same [AUC], ties included. *)
Theorem AUC_input_order {numpy : Numpy} (s1 s2 : session) (l1 l2 : list Z) :
  fully_scored s1 l1 -> fully_scored s2 l2 ->
  Permutation (pairs_of s1 l1) (pairs_of s2 l2) ->
  1 <= n_actives s1 -> 1 <= n_inactives s1 ->
  exists v1 v2 : Q,
    AUC s1 = Ok (Finite v1) /\ AUC s2 = Ok (Finite v2) /\ (v1 == v2)%Q.
Proof.
  intros H1 H2 Hperm Hact Hinact.
  destruct (same_pairs_totals s1 s2 l1 l2 H1 H2 Hperm) as [Ea Ei].
  destruct (AUC_pairs s1 l1 H1 Hact Hinact) as (a1 & v1 & Hv1 & _ & _ & He1).
  destruct (AUC_pairs s2 l2 H2) as (a2 & v2 & Hv2 & _ & _ & He2); [lia | lia |].
  exists v1, v2. split; [assumption|]. split; [assumption|].
  rewrite Ea, Ei, <- (cross_perm _ _ Hperm), <- He1 in He2.
  assert (HD : ~ (inject_Z (n_inactives s1 * n_actives s1) == 0)%Q).
  { change 0%Q with (inject_Z 0). rewrite inject_Z_injective. nia. }
  apply Qmult_inj_r with (inject_Z (n_inactives s1 * n_actives s1)); [assumption|].
  apply Qmult_inj_l with 2%Q; [discriminate|].
  rewrite !Qmult_assoc. symmetry. exact He2.
Qed.

Lemma example_tied_fully_scored : fully_scored example_tied [0; 1].
Proof.
  split; [|reflexivity]. unfold labelled.
  split; [reflexivity|]. split; [|split; [reflexivity|split; [reflexivity|simpl; lia]]].
  unfold binary. repeat (constructor; [lia|]). constructor.
Qed.

Lemma example_tied_swapped_fully_scored : fully_scored example_tied_swapped [1; 0].
Proof.
  split; [|reflexivity]. unfold labelled.
  split; [reflexivity|]. split; [|split; [reflexivity|split; [reflexivity|simpl; lia]]].
  unfold binary. repeat (constructor; [lia|]). constructor.
Qed.

Lemma AUC_input_order_witness :
  exists v1 v2 : Q,
    @AUC insertion_numpy example_tied = Ok (Finite v1) /\
    @AUC insertion_numpy example_tied_swapped = Ok (Finite v2) /\ (v1 == v2)%Q.
Proof.
  apply (@AUC_input_order insertion_numpy example_tied example_tied_swapped [0; 1] [1; 0]).
  - exact example_tied_fully_scored.
  - exact example_tied_swapped_fully_scored.
  - apply perm_swap.
  - vm_compute. discriminate.
  - vm_compute. discriminate.
Defined.

Lemma weight_monotone (f : Q -> Q) a b :
  ((a < b)%Q -> (f a < f b)%Q) ->
  ((b < a)%Q -> (f b < f a)%Q) ->
  ((a == b)%Q -> (f a == f b)%Q) ->
  weight (f a) (f b) = weight a b.
Proof.
  intros Hlt Hgt Heq.
  destruct (Q_dec a b) as [[H | H] | H].
  - rewrite (weight_below a b H). now apply weight_below, Hlt.
  - rewrite (weight_above a b H). now apply weight_above, Hgt.
  - rewrite (weight_tie a b H). now apply weight_tie, Heq.
Qed.

Lemma row_rescored (f : Q -> Q) a B :
  (forall b, In b B -> weight (f a) (f (fst b)) = weight a (fst b)) ->
  row (f a) (map (fun p => (f (fst p), snd p)) B) = row a B.
Proof.
  induction B as [|b B IH]; intros H; cbn [map row fst snd]; [reflexivity|].
  rewrite IH by (intros; apply H; now right).
  rewrite (H b) by now left. reflexivity.
Qed.

Lemma cross_rescored (f : Q -> Q) A B :
  (forall a b, In a A -> In b B -> weight (f (fst a)) (f (fst b)) = weight (fst a) (fst b)) ->
  cross (map (fun p => (f (fst p), snd p)) A) (map (fun p => (f (fst p), snd p)) B)
  = cross A B.
Proof.
  induction A as [|a A IH]; intros H; cbn [map cross fst snd]; [reflexivity|].
  rewrite IH by (intros; apply H; auto; now right).
  rewrite row_rescored by (intros; apply H; auto; now left).
  reflexivity.
Qed.

Lemma combine_map_l {A B C} (f : A -> C) (a : list A) (b : list B) :
  combine (map f a) b = map (fun p => (f (fst p), snd p)) (combine a b).
Proof.
  revert b. induction a as [|x a IH]; intros [|y b]; simpl; try reflexivity.
  now rewrite IH.
Qed.

(** [AUC] depends on the scores through their order alone: rescoring
    the molecules by a function that keeps the order of the scores of
    the session (and their ties) leaves [AUC] unchanged. *)
Theorem AUC_rank_only {numpy : Numpy} (f : Q -> Q) (s1 s2 : session) (labels : list Z) :
  fully_scored s1 labels -> fully_scored s2 labels ->
  scores_of s2 = map f (scores_of s1) ->
  (forall a b, In a (scores_of s1) -> In b (scores_of s1) ->
               ((a < b)%Q -> (f a < f b)%Q) /\ ((a == b)%Q -> (f a == f b)%Q)) ->
  1 <= n_actives s1 -> 1 <= n_inactives s1 ->
  exists v1 v2 : Q,
    AUC s1 = Ok (Finite v1) /\ AUC s2 = Ok (Finite v2) /\ (v1 == v2)%Q.
Proof.
  intros H1 H2 Hs Hf Hact Hinact.
  assert (Ea : n_actives s2 = n_actives s1 /\ n_inactives s2 = n_inactives s1).
  { destruct H1 as [(_ & _ & Ha1 & Hi1 & _) _].
    destruct H2 as [(_ & _ & Ha2 & Hi2 & _) _]. split; congruence. }
  destruct Ea as [Ea Ei].
  destruct (AUC_pairs s1 labels H1 Hact Hinact) as (a1 & v1 & Hv1 & _ & _ & He1).
  destruct (AUC_pairs s2 labels H2) as (a2 & v2 & Hv2 & _ & _ & He2); [lia | lia |].
  exists v1, v2. split; [assumption|]. split; [assumption|].
  assert (Hc : cross (pairs_of s2 labels) (pairs_of s2 labels)
               = cross (pairs_of s1 labels) (pairs_of s1 labels)).
  { unfold pairs_of. rewrite Hs, combine_map_l. apply cross_rescored.
    intros a b Ha Hb.
    assert (Ia : In (fst a) (scores_of s1))
      by (destruct a; eapply in_combine_l; eassumption).
    assert (Ib : In (fst b) (scores_of s1))
      by (destruct b; eapply in_combine_l; eassumption).
    apply weight_monotone.
    - apply (Hf _ _ Ia Ib).
    - apply (Hf _ _ Ib Ia).
    - apply (Hf _ _ Ia Ib). }
  rewrite Ea, Ei, Hc, <- He1 in He2.
  assert (HD : ~ (inject_Z (n_inactives s1 * n_actives s1) == 0)%Q).
  { change 0%Q with (inject_Z 0). rewrite inject_Z_injective. nia. }
  apply Qmult_inj_r with (inject_Z (n_inactives s1 * n_actives s1)); [assumption|].
  apply Qmult_inj_l with 2%Q; [discriminate|].
  rewrite !Qmult_assoc. symmetry. exact He2.
Qed.

Lemma example_screen_shifted_fully_scored :
  fully_scored example_screen_shifted example_labels.
Proof.
  split; [|reflexivity]. unfold labelled.
  split; [reflexivity|]. split; [|split; [reflexivity|split; [reflexivity|simpl; lia]]].
  unfold binary, example_labels. repeat (constructor; [lia|]). constructor.
Qed.

Lemma AUC_rank_only_witness :
  exists v1 v2 : Q,
    @AUC insertion_numpy example_screen = Ok (Finite v1) /\
    @AUC insertion_numpy example_screen_shifted = Ok (Finite v2) /\ (v1 == v2)%Q.
Proof.
  apply (@AUC_rank_only insertion_numpy (fun x => x + 1)%Q example_screen example_screen_shifted
           example_labels).
  - exact example_screen_fully_scored.
  - exact example_screen_shifted_fully_scored.
  - reflexivity.
  - intros a b _ _. split; intros H.
    + now apply Qplus_lt_l.
    + now rewrite H.
  - vm_compute. discriminate.
  - vm_compute. discriminate.
Defined.

Lemma weight_sym_sum a b : weight a b + weight b a = 2.
Proof.
  destruct (Q_dec a b) as [[H | H] | H].
  - rewrite (weight_below a b H), (weight_above b a H). reflexivity.
  - rewrite (weight_above a b H), (weight_below b a H). reflexivity.
  - rewrite (weight_tie a b H), (weight_tie b a) by now symmetry. reflexivity.
Qed.

Lemma flip_label_cases b :
  b = 0 \/ b = 1 ->
  (flip_label b =? 1) = negb (b =? 1).
Proof. intros [-> | ->]; reflexivity. Qed.

Lemma row_flipped (x : Q * Z) B :
  Forall (fun p => snd p = 0 \/ snd p = 1) B ->
  snd x <> 1 ->
  row (fst x) (flip_pairs B) + cross B [x] = 2 * positives B.
Proof.
  intros HB Hx. induction HB as [|b B Hb _ IH]; [reflexivity|].
  cbn [flip_pairs map row cross positives fst snd].
  fold (flip_pairs B). rewrite (flip_label_cases _ Hb).
  apply Z.eqb_neq in Hx. rewrite Hx.
  pose proof (weight_sym_sum (fst x) (fst b)).
  destruct (snd b =? 1); cbn [negb]; lia.
Qed.

Lemma cross_flipped A B :
  Forall (fun p => snd p = 0 \/ snd p = 1) A ->
  Forall (fun p => snd p = 0 \/ snd p = 1) B ->
  cross (flip_pairs A) (flip_pairs B) + cross B A
  = 2 * (negatives A * positives B).
Proof.
  intros HA HB. induction HA as [|a A Ha _ IH].
  - cbn. rewrite cross_nil_r. lia.
  - cbn [flip_pairs map cross negatives fst snd]. fold (flip_pairs A).
    change (a :: A) with ([a] ++ A). rewrite cross_app_r.
    rewrite (flip_label_cases _ Ha).
    destruct (snd a =? 1) eqn:E; cbn [negb].
    + assert (Hz : cross B [a] = 0).
      { rewrite (cross_const 0); [lia|].
        intros x y _ [<- | []] _ Hy. apply Z.eqb_eq in E. contradiction. }
      lia.
    + apply Z.eqb_neq in E.
      pose proof (row_flipped a B HB E). lia.
Qed.

Lemma combine_map_r {A B C} (f : B -> C) (a : list A) (b : list B) :
  combine a (map f b) = map (fun p => (fst p, f (snd p))) (combine a b).
Proof.
  revert b. induction a as [|x a IH]; intros [|y b]; simpl; try reflexivity.
  now rewrite IH.
Qed.

Lemma np_sum_flip labels :
  np_sum (map flip_label labels) = Z.of_nat (length labels) - np_sum labels.
Proof.
  induction labels as [|b l IH]; [reflexivity|].
  cbn [map np_sum fold_right length]. fold (np_sum (map flip_label l)).
  fold (np_sum l). rewrite IH, Nat2Z.inj_succ. unfold flip_label. lia.
Qed.

(** Exchanging actives and inactives on the same scores exchanges the
    two totals and turns the area of the sweep into its complement:
    the two areas add up to [n_negatives * n_positives], and each
    [AUC] is its area divided by that product. *)
Theorem AUC_label_flip {numpy : Numpy} (s1 s2 : session) (labels : list Z) :
  fully_scored s1 labels ->
  fully_scored s2 (map flip_label labels) ->
  scores_of s2 = scores_of s1 ->
  1 <= n_actives s1 -> 1 <= n_inactives s1 ->
  exists a1 a2 : Q,
    AUC s1 = Ok (Finite (a1 / inject_Z (n_inactives s1 * n_actives s1))) /\
    AUC s2 = Ok (Finite (a2 / inject_Z (n_inactives s2 * n_actives s2))) /\
    n_actives s2 = n_inactives s1 /\
    n_inactives s2 = n_actives s1 /\
    (a1 + a2 == inject_Z (n_inactives s1 * n_actives s1))%Q.
Proof.
  intros H1 H2 Hs Hact Hinact.
  pose proof H1 as [(_ & Hbin & Ha1 & Hi1 & _) Hlen1].
  pose proof H2 as [(_ & _ & Ha2 & Hi2 & _) _].
  rewrite np_sum_flip in Ha2, Hi2. rewrite length_map in Hi2.
  assert (Ea : n_actives s2 = n_inactives s1) by lia.
  assert (Ei : n_inactives s2 = n_actives s1) by lia.
  destruct (AUC_pairs s1 labels H1 Hact Hinact) as (a1 & v1 & Hv1 & -> & He1 & _).
  destruct (AUC_pairs s2 _ H2) as (a2 & v2 & Hv2 & -> & He2 & _); [lia | lia |].
  exists a1, a2. split; [assumption|]. split; [assumption|].
  split; [assumption|]. split; [assumption|].
  assert (Hbin' : Forall (fun p : Q * Z => snd p = 0 \/ snd p = 1) (pairs_of s1 labels)).
  { rewrite Forall_forall. intros [q b] Hin. cbn [snd].
    apply in_combine_r in Hin. unfold binary in Hbin.
    rewrite Forall_forall in Hbin. now apply Hbin. }
  pose proof (cross_flipped _ _ Hbin' Hbin') as Hc.
  destruct (combine_totals_paired (scores_of s1) labels Hbin) as [Hp Hn].
  { unfold scores_of. now rewrite length_map. }
  fold (pairs_of s1 labels) in Hp, Hn. rewrite Hp, Hn, <- Hi1, <- Ha1 in Hc.
  assert (Hpairs : pairs_of s2 (map flip_label labels) = flip_pairs (pairs_of s1 labels)).
  { unfold pairs_of, flip_pairs. rewrite Hs. apply combine_map_r. }
  rewrite Hpairs in He2.
  assert (Hz : cross (flip_pairs (pairs_of s1 labels)) (flip_pairs (pairs_of s1 labels))
               = 2 * (n_inactives s1 * n_actives s1)
                 - cross (pairs_of s1 labels) (pairs_of s1 labels)) by lia.
  rewrite Hz in He2. unfold Z.sub in He2.
  rewrite inject_Z_plus, inject_Z_opp, <- He1 in He2.
  rewrite inject_Z_mult in He2. change (inject_Z 2) with 2%Q in He2.
  apply Qmult_inj_l with 2%Q; [discriminate|].
  rewrite Qmult_plus_distr_r, He2. ring.
Qed.

Lemma AUC_label_flip_witness :
  exists a1 a2 : Q,
    @AUC insertion_numpy example_tied
    = Ok (Finite (a1 / inject_Z (n_inactives example_tied * n_actives example_tied))) /\
    @AUC insertion_numpy example_tied_swapped
    = Ok (Finite (a2 / inject_Z (n_inactives example_tied_swapped
                                 * n_actives example_tied_swapped))) /\
    (a1 + a2 == inject_Z (n_inactives example_tied * n_actives example_tied))%Q.
Proof.
  destruct (@AUC_label_flip insertion_numpy example_tied example_tied_swapped [0; 1])
    as (a1 & a2 & H1 & H2 & _ & _ & H3).
  - exact example_tied_fully_scored.
  - exact example_tied_swapped_fully_scored.
  - reflexivity.
  - vm_compute. discriminate.
  - vm_compute. discriminate.
  - exists a1, a2. split; [assumption|]. split; assumption.
Defined.

(** * The shape of the ROC curve *)

Lemma sorted_snoc (l : list Z) (k : Z) :
  StronglySorted Z.le l -> Forall (fun x => x <= k) l ->
  StronglySorted Z.le (l ++ [k]).
Proof.
  intros Hs Hk. apply StronglySorted_app; [assumption | repeat constructor |].
  intros x y Hx [<- | []]. rewrite Forall_forall in Hk. now apply Hk.
Qed.

Lemma roc_inv_step N Pn P st x :
  roc_inv N Pn P st ->
  roc_inv N Pn (P ++ [x]) (roc_step N Pn (fst x) (snd x) st).
Proof.
  intros (kx & ky & Hx & Hy & Hlen & Hsx & Hsy & Hbx & Hby & Hfp & Htp).
  pose proof (negatives_nonneg P) as HnP. pose proof (positives_nonneg P) as HpP.
  assert (Hn : negatives (P ++ [x]) = negatives P + (if snd x =? 1 then 0 else 1)).
  { rewrite negatives_app. cbn [negatives]. lia. }
  assert (Hp : positives (P ++ [x]) = positives P + (if snd x =? 1 then 1 else 0)).
  { rewrite positives_app. cbn [positives]. lia. }
  assert (Hbx' : Forall (fun k => 0 <= k <= negatives (P ++ [x])) kx).
  { eapply Forall_impl; [|exact Hbx]. cbv beta. intros k Hk.
    rewrite Hn. destruct (snd x =? 1); lia. }
  assert (Hby' : Forall (fun k => 0 <= k <= positives (P ++ [x])) ky).
  { eapply Forall_impl; [|exact Hby]. cbv beta. intros k Hk.
    rewrite Hp. destruct (snd x =? 1); lia. }
  unfold roc_step. destruct (py_ne (fst x) (roc_score_prev st)).
  - exists (kx ++ [negatives P]), (ky ++ [positives P]).
    destruct (snd x =? 1);
      cbn [roc_x roc_y roc_false_positives roc_true_positives];
      rewrite !map_app, Hx, Hy, Hfp, Htp, !length_app, Hlen;
      (split; [reflexivity|]); (split; [reflexivity|]); (split; [reflexivity|]);
      (split; [apply sorted_snoc; [assumption|];
               eapply Forall_impl; [|exact Hbx]; cbv beta; intros; lia|]);
      (split; [apply sorted_snoc; [assumption|];
               eapply Forall_impl; [|exact Hby]; cbv beta; intros; lia|]);
      (split; [apply Forall_app; split; [assumption|];
               constructor; [lia | constructor]|]);
      (split; [apply Forall_app; split; [assumption|];
               constructor; [lia | constructor]|]);
      split; lia.
  - exists kx, ky.
    destruct (snd x =? 1);
      cbn [roc_x roc_y roc_false_positives roc_true_positives];
      do 7 (split; [assumption|]); split; lia.
Qed.

Lemma roc_over_inv N Pn l :
  forall P st, roc_inv N Pn P st -> roc_inv N Pn (P ++ l) (roc_over N Pn l st).
Proof.
  induction l as [|x l IH]; intros P st H.
  - now rewrite app_nil_r.
  - change (roc_over N Pn (x :: l) st)
      with (roc_over N Pn l (roc_step N Pn (fst x) (snd x) st)).
    replace (P ++ x :: l) with ((P ++ [x]) ++ l) by now rewrite <- app_assoc.
    apply IH. now apply roc_inv_step.
Qed.

Lemma roc_inv_start N Pn : roc_inv N Pn [] roc_start.
Proof.
  exists [], []. cbn. repeat split; constructor.
Qed.

(** The loop only ever appends to the two series. *)
Lemma roc_over_appends N Pn l :
  forall st, exists ex ey,
    roc_x (roc_over N Pn l st) = roc_x st ++ ex /\
    roc_y (roc_over N Pn l st) = roc_y st ++ ey.
Proof.
  induction l as [|x l IH]; intros st.
  - exists [], []. cbn. now rewrite !app_nil_r.
  - change (roc_over N Pn (x :: l) st)
      with (roc_over N Pn l (roc_step N Pn (fst x) (snd x) st)).
    destruct (IH (roc_step N Pn (fst x) (snd x) st)) as (ex & ey & Hx & Hy).
    rewrite Hx, Hy. unfold roc_step.
    destruct (py_ne (fst x) (roc_score_prev st)), (snd x =? 1); cbn [roc_x roc_y];
      rewrite <- ?app_assoc; eexists; eexists; split; reflexivity.
Qed.

Lemma ratio_finite N k : 1 <= N -> ratio N k = Finite (inject_Z k / inject_Z N).
Proof.
  intros HN. unfold ratio, true_divide.
  destruct (Qeq_bool (inject_Z N) 0) eqn:E; [|reflexivity].
  apply Qeq_bool_iff in E. change 0%Q with (inject_Z 0) in E.
  apply (proj1 (inject_Z_injective _ _)) in E. lia.
Qed.

Lemma last_snoc {A} (l : list A) (x d : A) : last (l ++ [x]) d = x.
Proof.
  induction l as [|y l IH]; [reflexivity|].
  cbn [app]. destruct (l ++ [x]) eqn:E; [now destruct l | exact IH].
Qed.

Lemma ranked_cons_inv {numpy : Numpy} scores labels :
  scores <> [] -> exists p L, ranked scores labels = p :: L.
Proof.
  intros H. destruct (ranked scores labels) as [|p L] eqn:E; [|eauto].
  exfalso. apply H. apply length_zero_iff_nil.
  rewrite <- (ranked_length scores labels), E. reflexivity.
Qed.

Lemma ROC_curve {numpy : Numpy} (s : session) (labels : list Z) :
  fully_scored s labels ->
  1 <= n_actives s -> 1 <= n_inactives s ->
  exists kx ky : list Z,
    ROC_plot s
    = Ok (map (fun k => Finite (inject_Z k / inject_Z (n_inactives s))) kx,
          map (fun k => Finite (inject_Z k / inject_Z (n_actives s))) ky) /\
    length kx = length ky /\
    StronglySorted Z.le kx /\ StronglySorted Z.le ky /\
    Forall (fun k => 0 <= k <= n_inactives s) kx /\
    Forall (fun k => 0 <= k <= n_actives s) ky /\
    last kx 0 = n_inactives s /\ last ky 0 = n_actives s /\
    (Forall (fun r => ~ (score r == -10000000)%Q) (molecules s) ->
     hd 1 kx = 0 /\ hd 1 ky = 0).
Proof.
  intros [Hlab Heq] Hact Hinact.
  pose proof Hlab as (Hb & Hbin & Ha & Hi & Hlen).
  set (L := ranked (scores_of s) labels).
  set (N := n_inactives s) in *. set (Pn := n_actives s) in *.
  assert (Hperm : Permutation L (combine (scores_of s) labels)).
  { apply ranked_perm. unfold scores_of. now rewrite length_map. }
  destruct (combine_totals_paired (scores_of s) labels Hbin) as [Hp Hn].
  { unfold scores_of. now rewrite length_map. }
  assert (HnL : negatives L = N) by (rewrite (negatives_perm _ _ Hperm); unfold N; lia).
  assert (HpL : positives L = Pn) by (rewrite (positives_perm _ _ Hperm); unfold Pn; lia).
  pose proof (roc_over_inv N Pn L [] roc_start (roc_inv_start N Pn)) as Hinv.
  cbn [app] in Hinv.
  destruct Hinv as (kx & ky & Hx & Hy & Hl & Hsx & Hsy & Hbx & Hby & Hfp & Htp).
  rewrite HnL in Hbx, Hfp. rewrite HpL in Hby, Htp.
  exists (kx ++ [N]), (ky ++ [Pn]).
  split.
  { rewrite (ROC_plot_ranked s labels Hlab). cbv zeta. fold L N Pn.
    rewrite Hx, Hy, Hfp, Htp. f_equal. f_equal.
    - rewrite map_app. cbn [map]. rewrite (ratio_finite N N Hinact). f_equal.
      apply map_ext. intros k. now apply ratio_finite.
    - rewrite map_app. cbn [map]. rewrite (ratio_finite Pn Pn Hact). f_equal.
      apply map_ext. intros k. now apply ratio_finite. }
  split; [rewrite !length_app, Hl; reflexivity|].
  split; [apply sorted_snoc; [assumption|];
          eapply Forall_impl; [|exact Hbx]; cbv beta; intros; lia|].
  split; [apply sorted_snoc; [assumption|];
          eapply Forall_impl; [|exact Hby]; cbv beta; intros; lia|].
  split; [apply Forall_app; split; [assumption | constructor; [lia | constructor]]|].
  split; [apply Forall_app; split; [assumption | constructor; [lia | constructor]]|].
  split; [apply last_snoc|]. split; [apply last_snoc|].
  intros Hsent.
  destruct (ranked_cons_inv (scores_of s) labels) as (p & L' & HL).
  { unfold scores_of. intros E. apply map_eq_nil in E.
    rewrite E in Heq. destruct labels; [cbn in Ha; unfold Pn in Hact; lia | discriminate]. }
  fold L in HL.
  assert (Hp1 : py_ne (fst p) (-10000000) = true).
  { apply py_ne_true.
    destruct (ranked_scores_in s labels p) as (r & Hr & ->).
    { fold L. rewrite HL. now left. }
    rewrite Forall_forall in Hsent. now apply Hsent. }
  assert (Hfirst : exists ex ey,
             roc_x (roc_over N Pn L roc_start) = ratio N 0 :: ex /\
             roc_y (roc_over N Pn L roc_start) = ratio Pn 0 :: ey).
  { rewrite HL.
    change (roc_over N Pn (p :: L') roc_start)
      with (roc_over N Pn L' (roc_step N Pn (fst p) (snd p) roc_start)).
    destruct (roc_over_appends N Pn L' (roc_step N Pn (fst p) (snd p) roc_start))
      as (ex & ey & Ex & Ey).
    rewrite Ex, Ey. unfold roc_step. cbn [roc_score_prev roc_start].
    rewrite Hp1. destruct (snd p =? 1); cbn; eexists; eexists; split; reflexivity. }
  destruct Hfirst as (ex & ey & Ex & Ey).
  rewrite Hx in Ex. rewrite Hy in Ey.
  assert (Hinj : forall T k, 1 <= T -> ratio T k = ratio T 0 -> k = 0).
  { intros T k HT E. rewrite !ratio_finite in E by assumption.
    destruct T as [|t|t]; try lia.
    unfold Qdiv, Qmult, Qinv, inject_Z in E. cbn [Qnum Qden] in E.
    injection E as E'. lia. }
  destruct kx as [|k0 kx']; [discriminate|].
  destruct ky as [|k1 ky']; [discriminate|].
  cbn [map] in Ex, Ey. injection Ex as E0 _. injection Ey as E1 _.
  cbn [app hd]. split; [apply (Hinj N) | apply (Hinj Pn)]; assumption.
Qed.

(** On a fully scored session with an active and an inactive the ROC
    points are [(fp / n_negatives, tp / n_positives)] for two
    non-decreasing sequences of counts: every point lies in the unit
    square, the series are non-decreasing and of equal length, the
    last point is exactly (1, 1), and the first point is (0, 0) unless
    a score equals the initial [score_prev], -10000000. *)
Theorem ROC_plot_shape {numpy : Numpy} (s : session) (labels : list Z) :
  fully_scored s labels ->
  1 <= n_actives s -> 1 <= n_inactives s ->
  exists kx ky : list Z,
    ROC_plot s
    = Ok (map (fun k => Finite (inject_Z k / inject_Z (n_inactives s))) kx,
          map (fun k => Finite (inject_Z k / inject_Z (n_actives s))) ky) /\
    length kx = length ky /\
    StronglySorted Z.le kx /\ StronglySorted Z.le ky /\
    Forall (fun k => 0 <= k <= n_inactives s) kx /\
    Forall (fun k => 0 <= k <= n_actives s) ky /\
    last kx 0 = n_inactives s /\ last ky 0 = n_actives s /\
    (Forall (fun r => ~ (score r == -10000000)%Q) (molecules s) ->
     hd 1 kx = 0 /\ hd 1 ky = 0).
Proof. exact (ROC_curve s labels). Qed.

Lemma ROC_plot_shape_witness :
  exists kx ky : list Z,
    @ROC_plot insertion_numpy example_screen
    = Ok (map (fun k => Finite (inject_Z k / inject_Z (n_inactives example_screen))) kx,
          map (fun k => Finite (inject_Z k / inject_Z (n_actives example_screen))) ky) /\
    last kx 0 = n_inactives example_screen /\
    last ky 0 = n_actives example_screen.
Proof.
  destruct (@ROC_plot_shape insertion_numpy example_screen example_labels)
    as (kx & ky & H & _ & _ & _ & _ & _ & Hx & Hy & _).
  - exact example_screen_fully_scored.
  - vm_compute. discriminate.
  - vm_compute. discriminate.
  - exists kx, ky. repeat split; assumption.
Defined.

(** * The enrichment series and the enrichment factor *)

Lemma actives_in_nonneg l : 0 <= actives_in l.
Proof. induction l as [|b l IH]; cbn [actives_in]; [lia | destruct (b =? 1); lia]. Qed.

Lemma actives_in_firstn_le l :
  forall k k', (k <= k')%nat -> actives_in (firstn k l) <= actives_in (firstn k' l).
Proof.
  induction l as [|b l IH]; intros k k' Hk.
  - rewrite !firstn_nil. lia.
  - destruct k as [|k]; destruct k' as [|k']; cbn [firstn actives_in]; try lia.
    + pose proof (actives_in_nonneg (firstn k' l)). destruct (b =? 1); lia.
    + specialize (IH k k' ltac:(lia)). lia.
Qed.

Lemma actives_in_firstn_all l k : actives_in (firstn k l) <= actives_in l.
Proof.
  rewrite <- (firstn_all l) at 2.
  destruct (Nat.le_ge_cases k (length l)) as [H | H].
  - now apply actives_in_firstn_le.
  - rewrite (firstn_all2 l H), firstn_all. lia.
Qed.

Lemma sorted_map_seq {A} (R : A -> A -> Prop) (g : nat -> A) a m :
  (forall i j, (i <= j)%nat -> R (g i) (g j)) ->
  StronglySorted R (map g (seq a m)).
Proof.
  intros Hg. revert a. induction m as [|m IH]; intros a; cbn [seq map]; constructor.
  - apply IH.
  - rewrite Forall_forall. intros x Hx. apply in_map_iff in Hx.
    destruct Hx as [j [<- Hj]]. apply in_seq in Hj. apply Hg. lia.
Qed.

Lemma sorted_labels_actives {numpy : Numpy} s labels L :
  labelled s labels -> sorted_labels s = Ok L ->
  actives_in L <= n_actives s /\
  (length (molecules s) = length labels -> actives_in L = n_actives s).
Proof.
  intros (Hb & Hbin & Ha & Hi & Hle) HL.
  rewrite (sorted_labels_ranked s labels Hb Hle) in HL. inversion HL; subst L.
  rewrite actives_in_positives.
  rewrite (positives_perm _ _ (ranked_perm (scores_of s) labels
             ltac:(unfold scores_of; rewrite length_map; lia))).
  split.
  - destruct (combine_totals (scores_of s) labels Hbin) as [Hp _]. lia.
  - intros Heq.
    destruct (combine_totals_paired (scores_of s) labels Hbin) as [Hp _].
    { unfold scores_of. now rewrite length_map. }
    lia.
Qed.

Lemma true_divide_finite a d :
  1 <= d ->
  true_divide (inject_Z a) (inject_Z d) = Finite (inject_Z a / inject_Z d).
Proof. intros Hd. exact (ratio_finite d a Hd). Qed.

Lemma enrichment_series {numpy : Numpy} s labels :
  labelled s labels ->
  1 <= n_actives s ->
  exists (L : list Z) (xs : list Q) (cs : list Z),
    sorted_labels s = Ok L /\
    length L = length (molecules s) /\
    _enrichment_data s
    = Ok (xs, Finite 0 ::
              map (fun c => Finite (inject_Z c / inject_Z (n_actives s))) cs) /\
    xs = 0%Q :: map (fun i => (inject_Z (Z.of_nat i) / inject_Z (Z.of_nat (length L)))%Q)
                    (seq 0 (length L)) /\
    cs = map (fun i => actives_in (firstn (S i) L)) (seq 0 (length L)) /\
    StronglySorted Qle xs /\
    Forall (fun x => (0 <= x)%Q /\ (x < 1)%Q) xs /\
    StronglySorted Z.le cs /\
    Forall (fun c => 0 <= c <= n_actives s) cs /\
    (length (molecules s) = length labels -> molecules s <> [] ->
     last cs 0 = n_actives s).
Proof.
  intros Hlab Hact.
  destruct (enrichment_data_points s labels Hlab) as (L & HL & HlenL & Hdata).
  cbv zeta in Hdata.
  destruct (sorted_labels_actives s labels L Hlab HL) as [HaL HaL'].
  eexists L, _, _. split; [exact HL|]. split; [exact HlenL|].
  split.
  { rewrite Hdata. f_equal. f_equal. f_equal. rewrite map_map.
    apply map_ext. intros i. now apply true_divide_finite. }
  split; [reflexivity|]. split; [reflexivity|].
  split; [apply screened_sorted|].
  split.
  { constructor; [split; [apply Qle_refl | reflexivity]|].
    rewrite Forall_forall. intros x Hx. apply in_map_iff in Hx.
    destruct Hx as [i [<- Hi]]. apply in_seq in Hi.
    assert (HD : (0 < inject_Z (Z.of_nat (length L)))%Q).
    { change 0%Q with (inject_Z 0). rewrite <- Zlt_Qlt. lia. }
    split.
    - apply Qle_shift_div_l; [assumption|]. rewrite Qmult_0_l.
      change 0%Q with (inject_Z 0). rewrite <- Zle_Qle. lia.
    - apply Qlt_shift_div_r; [assumption|]. rewrite Qmult_1_l, <- Zlt_Qlt. lia. }
  split.
  { apply sorted_map_seq. intros i j Hij. apply actives_in_firstn_le. lia. }
  split.
  { rewrite Forall_forall. intros c Hc. apply in_map_iff in Hc.
    destruct Hc as [i [<- _]].
    pose proof (actives_in_nonneg (firstn (S i) L)).
    pose proof (actives_in_firstn_all L (S i)). lia. }
  intros Heq Hne.
  destruct (length L) as [|k] eqn:Ek.
  { exfalso. apply Hne. apply length_zero_iff_nil. lia. }
  rewrite seq_S, map_app. cbn [map Nat.add]. rewrite last_snoc.
  rewrite <- Ek, firstn_all. now apply HaL'.
Qed.

(** [_enrichment_data] on a labelled session with an active: the
    screened fractions are [0, 0/n, 1/n, ..., (n-1)/n], ascending and
    all strictly below 1; the fractions of actives are
    [0, c_1/n_actives, ..., c_n/n_actives] where [c_k] counts the
    actives among the first [k] molecules of the sweep, ascending,
    within [0, n_actives] and ending in [n_actives] when every
    molecule was scored. *)
Theorem enrichment_data_series {numpy : Numpy} (s : session) (labels : list Z) :
  labelled s labels ->
  1 <= n_actives s ->
  exists (L : list Z) (xs : list Q) (cs : list Z),
    sorted_labels s = Ok L /\
    length L = length (molecules s) /\
    _enrichment_data s
    = Ok (xs, Finite 0 ::
              map (fun c => Finite (inject_Z c / inject_Z (n_actives s))) cs) /\
    xs = 0%Q :: map (fun i => (inject_Z (Z.of_nat i) / inject_Z (Z.of_nat (length L)))%Q)
                    (seq 0 (length L)) /\
    cs = map (fun i => actives_in (firstn (S i) L)) (seq 0 (length L)) /\
    StronglySorted Qle xs /\
    Forall (fun x => (0 <= x)%Q /\ (x < 1)%Q) xs /\
    StronglySorted Z.le cs /\
    Forall (fun c => 0 <= c <= n_actives s) cs /\
    (length (molecules s) = length labels -> molecules s <> [] ->
     last cs 0 = n_actives s).
Proof. exact (enrichment_series s labels). Qed.

Lemma example_screen_labelled : labelled example_screen example_labels.
Proof. exact (proj1 example_screen_fully_scored). Qed.

Lemma enrichment_data_series_witness :
  exists (L : list Z) (xs : list Q) (cs : list Z),
    @sorted_labels insertion_numpy example_screen = Ok L /\
    @_enrichment_data insertion_numpy example_screen
    = Ok (xs, Finite 0 ::
              map (fun c => Finite (inject_Z c / inject_Z (n_actives example_screen))) cs) /\
    Forall (fun x => (0 <= x)%Q /\ (x < 1)%Q) xs /\
    StronglySorted Z.le cs.
Proof.
  destruct (@enrichment_data_series insertion_numpy example_screen example_labels)
    as (L & xs & cs & H1 & _ & H2 & _ & _ & _ & H3 & H4 & _).
  - exact example_screen_labelled.
  - vm_compute. discriminate.
  - exists L, xs, cs. repeat split; assumption.
Defined.

Lemma StronglySorted_filter {A} (R : A -> A -> Prop) (f : A -> bool) l :
  StronglySorted R l -> StronglySorted R (filter f l).
Proof.
  induction 1 as [|x l Hs IH Hx]; cbn [filter]; [constructor|].
  destruct (f x); [|assumption]. constructor; [assumption|].
  rewrite Forall_forall in *. intros y Hy. apply filter_In in Hy. now apply Hx.
Qed.

Lemma filter_map_comm {A B} (f : A -> B) (g : B -> bool) l :
  filter g (map f l) = map f (filter (fun x => g (f x)) l).
Proof.
  induction l as [|x l IH]; cbn [map filter]; [reflexivity|].
  destruct (g (f x)); cbn [map]; now rewrite IH.
Qed.

(** A predicate that holds below every index at which it holds selects
    an initial segment of [range(n)]. *)
Lemma filter_seq_downward (f : nat -> bool) :
  (forall i i', (i <= i')%nat -> f i' = true -> f i = true) ->
  forall n a, filter f (seq a n) = seq a (length (filter f (seq a n))).
Proof.
  intros Hf. induction n as [|n IH]; intros a; [reflexivity|].
  cbn [seq filter]. destruct (f a) eqn:E.
  - cbn [length seq]. now rewrite <- IH.
  - rewrite filter_none; [reflexivity|].
    rewrite Forall_forall. intros i Hi. apply in_seq in Hi.
    apply not_true_iff_false. intros Hfi.
    rewrite (Hf a i) in E by (lia || assumption). discriminate.
Qed.

Lemma percentage_in_range p :
  (0 <= p)%Q -> (p <= 100)%Q ->
  py_lt p 0 || py_gt p 100 = false /\ (0 <= p / 100)%Q.
Proof.
  intros H0 H1. split.
  - apply orb_false_iff. split; apply not_true_iff_false; intros E.
    + apply py_lt_iff in E. now apply (Qlt_not_le _ _ E).
    + apply py_gt_iff in E. now apply (Qlt_not_le _ _ E).
  - apply Qle_shift_div_l; [reflexivity|]. now rewrite Qmult_0_l.
Qed.

(** The value of [enrichment_factor] in terms of the number [j] of
    indices [i < n] with [i / n <= percentage / 100] and of the index
    [k] that the sort puts last among the selected fractions. *)
Lemma enrichment_factor_core {numpy : Numpy} s labels p :
  labelled s labels ->
  (0 <= p)%Q -> (p <= 100)%Q ->
  exists L,
    sorted_labels s = Ok L /\
    length L = length (molecules s) /\
    let n := length L in
    let below := fun i : nat =>
      py_le (inject_Z (Z.of_nat i) / inject_Z (Z.of_nat n)) (p / 100) in
    let j := length (filter below (seq 0 n)) in
    filter below (seq 0 n) = seq 0 j /\
    exists k,
      last_index
        (argsort (0%Q :: map (fun i => (inject_Z (Z.of_nat i)
                                        / inject_Z (Z.of_nat n))%Q) (seq 0 j)))
      = Some k /\
      (k <= j)%nat /\ ((2 <= j)%nat -> k = j) /\
      enrichment_factor s p
      = Ok (np_mul
              match k with
              | O => Finite 0
              | S _ => true_divide (inject_Z (actives_in (firstn k L)))
                                   (inject_Z (n_actives s))
              end 100).
Proof.
  intros Hlab H0 H1.
  destruct (enrichment_data_points s labels Hlab) as (L & HL & HlenL & Hdata).
  cbv zeta in Hdata.
  destruct (percentage_in_range p H0 H1) as [Hrange Hpos].
  exists L. split; [exact HL|]. split; [exact HlenL|]. cbv zeta.
  set (n := length L) in *.
  set (below := fun i : nat =>
         py_le (inject_Z (Z.of_nat i) / inject_Z (Z.of_nat n)) (p / 100)).
  set (g := fun i : nat => (inject_Z (Z.of_nat i) / inject_Z (Z.of_nat n))%Q) in *.
  assert (Hdown : filter below (seq 0 n) = seq 0 (length (filter below (seq 0 n)))).
  { apply filter_seq_downward. intros i i' Hi Hb. unfold below in *.
    apply py_le_iff. apply py_le_iff in Hb.
    eapply Qle_trans; [|exact Hb]. now apply fraction_monotone. }
  split; [exact Hdown|].
  set (j := length (filter below (seq 0 n))) in *.
  assert (Hj : (j <= n)%nat).
  { unfold j. etransitivity; [apply filter_length_le|]. now rewrite length_seq. }
  assert (Hsel : filter (fun x => py_le x (p / 100)) (0%Q :: map g (seq 0 n))
                 = 0%Q :: map g (seq 0 j)).
  { cbn [filter]. replace (py_le 0 (p / 100)) with true
      by (symmetry; now apply py_le_iff).
    f_equal. rewrite filter_map_comm.
    change (filter (fun x : nat => py_le (g x) (p / 100)) (seq 0 n))
      with (filter below (seq 0 n)).
    now rewrite Hdown. }
  destruct (argsort_nonempty (0%Q :: map g (seq 0 j))) as [k Hk]; [discriminate|].
  destruct (screened_last n j k Hj Hk) as [Hkj Hk2].
  exists k. split; [exact Hk|]. split; [exact Hkj|]. split; [exact Hk2|].
  unfold enrichment_factor. rewrite Hrange, Hdata. cbn [bind].
  rewrite Hsel, Hk.
  destruct k as [|k']; [reflexivity|].
  cbn [nth_error]. rewrite nth_error_map_seq by lia. reflexivity.
Qed.

(** [enrichment_factor] on a labelled session with an active, for a
    percentage in [0, 100]: the result is the fraction of the actives
    found among the first [k] molecules of the sweep, times 100, for
    some [k].  At 0 percent [k] is at most 1; at 100 percent, with two
    molecules or more, [k] is the length of the store, and the result
    is 100 when every molecule was scored. *)
Theorem enrichment_factor_value {numpy : Numpy}
    (s : session) (labels : list Z) (p : Q) :
  labelled s labels ->
  1 <= n_actives s ->
  (0 <= p)%Q -> (p <= 100)%Q ->
  exists (L : list Z) (k : nat) (v : Q),
    sorted_labels s = Ok L /\
    (k <= length L)%nat /\
    enrichment_factor s p = Ok (Finite v) /\
    (v == inject_Z (actives_in (firstn k L)) / inject_Z (n_actives s) * 100)%Q /\
    ((p == 0)%Q -> (k <= 1)%nat) /\
    ((p == 100)%Q -> (2 <= length L)%nat ->
     k = length L /\
     (length (molecules s) = length labels -> (v == 100)%Q)).
Proof.
  intros Hlab Hact H0 H1.
  destruct (enrichment_factor_core s labels p Hlab H0 H1)
    as (L & HL & HlenL & Hdown & k & Hk & Hkj & Hk2 & Hval).
  cbv zeta in Hdown, Hk, Hval.
  set (n := length L) in *.
  set (below := fun i : nat =>
         py_le (inject_Z (Z.of_nat i) / inject_Z (Z.of_nat n)) (p / 100)) in *.
  set (j := length (filter below (seq 0 n))) in *.
  assert (Hj : (j <= n)%nat).
  { unfold j. etransitivity; [apply filter_length_le|]. now rewrite length_seq. }
  assert (Hna : ~ (inject_Z (n_actives s) == 0)%Q).
  { change 0%Q with (inject_Z 0). rewrite inject_Z_injective. lia. }
  exists L, k,
    (match k with
     | O => 0 * 100
     | S _ => inject_Z (actives_in (firstn k L)) / inject_Z (n_actives s) * 100
     end)%Q.
  split; [exact HL|]. split; [lia|].
  split.
  { rewrite Hval. destruct k as [|k']; [reflexivity|].
    now rewrite true_divide_finite by assumption. }
  assert (Hv : (match k with
                | O => 0 * 100
                | S _ => inject_Z (actives_in (firstn k L))
                         / inject_Z (n_actives s) * 100
                end
                == inject_Z (actives_in (firstn k L)) / inject_Z (n_actives s) * 100)%Q).
  { destruct k as [|k']; [|reflexivity].
    cbn [firstn actives_in]. unfold Qdiv. rewrite !Qmult_0_l. reflexivity. }
  split; [exact Hv|]. split.
  - intros Hp. destruct (Nat.le_gt_cases j 1) as [H | H]; [lia|]. exfalso.
    assert (Hin : In 1%nat (filter below (seq 0 n))).
    { rewrite Hdown. apply in_seq. lia. }
    apply filter_In in Hin. destruct Hin as [_ Hb]. unfold below in Hb.
    apply py_le_iff in Hb. rewrite Hp in Hb.
    unfold Qdiv at 2 in Hb. rewrite Qmult_0_l in Hb.
    assert (Hpos : (0 < inject_Z (Z.of_nat 1) / inject_Z (Z.of_nat n))%Q).
    { apply Qlt_shift_div_l.
      - change 0%Q with (inject_Z 0). rewrite <- Zlt_Qlt. lia.
      - rewrite Qmult_0_l. reflexivity. }
    now apply (Qlt_not_le _ _ Hpos).
  - intros Hp Hn2.
    assert (Hjn : j = n).
    { unfold j. rewrite filter_all; [apply length_seq|].
      rewrite Forall_forall. intros i Hi. apply in_seq in Hi. unfold below.
      apply py_le_iff. rewrite Hp.
      apply Qle_trans with 1%Q; [|unfold Qle; simpl; lia].
      apply Qle_shift_div_r.
      - change 0%Q with (inject_Z 0). rewrite <- Zlt_Qlt. lia.
      - rewrite Qmult_1_l, <- Zle_Qle. lia. }
    assert (Hkn : k = n) by (rewrite <- Hjn; apply Hk2; lia).
    split; [exact Hkn|]. intros Heq. rewrite Hv, Hkn.
    unfold n. rewrite firstn_all.
    destruct (sorted_labels_actives s labels L Hlab HL) as [_ HaL].
    rewrite (HaL Heq). field. exact Hna.
Qed.

Lemma enrichment_factor_value_witness :
  exists (L : list Z) (k : nat) (v : Q),
    @sorted_labels insertion_numpy example_screen = Ok L /\
    k = length L /\
    @enrichment_factor insertion_numpy example_screen 100 = Ok (Finite v) /\
    (v == 100)%Q.
Proof.
  destruct (@enrichment_factor_value insertion_numpy example_screen example_labels 100)
    as (L & k & v & H1 & _ & H3 & _ & _ & H6).
  - exact example_screen_labelled.
  - vm_compute. discriminate.
  - vm_compute. discriminate.
  - vm_compute. discriminate.
  - pose proof H1 as H1'. vm_compute in H1'. injection H1' as <-.
    destruct H6 as [Hk Hv]; [reflexivity | simpl; lia |].
    exists [1; 1; 0], k, v. split; [assumption|]. split; [assumption|].
    split; [assumption|]. apply Hv. reflexivity.
Defined.

(** [enrichment_factor] is non-decreasing in the percentage and stays
    within [0, 100]. *)
Theorem enrichment_factor_monotone {numpy : Numpy}
    (s : session) (labels : list Z) (p1 p2 : Q) :
  labelled s labels ->
  1 <= n_actives s ->
  (0 <= p1)%Q -> (p1 <= p2)%Q -> (p2 <= 100)%Q ->
  exists v1 v2 : Q,
    enrichment_factor s p1 = Ok (Finite v1) /\
    enrichment_factor s p2 = Ok (Finite v2) /\
    (0 <= v1)%Q /\ (v1 <= v2)%Q /\ (v2 <= 100)%Q.
Proof.
  intros Hlab Hact H0 H12 H2.
  assert (H1 : (p1 <= 100)%Q) by now apply Qle_trans with p2.
  assert (H0' : (0 <= p2)%Q) by now apply Qle_trans with p1.
  destruct (enrichment_factor_core s labels p1 Hlab H0 H1)
    as (L & HL & HlenL & Hdown1 & k1 & Hk1 & Hkj1 & Hkk1 & Hval1).
  destruct (enrichment_factor_core s labels p2 Hlab H0' H2)
    as (L' & HL' & _ & Hdown2 & k2 & Hk2 & Hkj2 & Hkk2 & Hval2).
  rewrite HL in HL'. inversion HL'; subst L'. clear HL'.
  cbv zeta in Hdown1, Hk1, Hval1, Hdown2, Hk2, Hval2.
  set (n := length L) in *.
  set (below1 := fun i : nat =>
         py_le (inject_Z (Z.of_nat i) / inject_Z (Z.of_nat n)) (p1 / 100)) in *.
  set (below2 := fun i : nat =>
         py_le (inject_Z (Z.of_nat i) / inject_Z (Z.of_nat n)) (p2 / 100)) in *.
  set (j1 := length (filter below1 (seq 0 n))) in *.
  set (j2 := length (filter below2 (seq 0 n))) in *.
  assert (Hj : (j1 <= j2)%nat).
  { destruct (Nat.le_gt_cases j1 j2) as [H | H]; [assumption|]. exfalso.
    assert (Hin : In j2 (seq 0 j1)) by (apply in_seq; lia).
    rewrite <- Hdown1 in Hin. apply filter_In in Hin. destruct Hin as [Hin Hb].
    assert (Hin2 : In j2 (filter below2 (seq 0 n))).
    { apply filter_In. split; [assumption|]. unfold below1 in Hb. unfold below2.
      apply py_le_iff. apply py_le_iff in Hb.
      eapply Qle_trans; [exact Hb|].
      unfold Qdiv. apply Qmult_le_compat_r; [assumption | discriminate]. }
    rewrite Hdown2 in Hin2. apply in_seq in Hin2. lia. }
  assert (Hk : (k1 <= k2)%nat).
  { destruct (Nat.le_gt_cases 2 j2) as [H | H]; [rewrite (Hkk2 H); lia|].
    destruct (Nat.eq_dec j1 j2) as [E | E]; [|lia].
    clearbody j1 j2. subst j2. rewrite Hk1 in Hk2. injection Hk2 as <-. lia. }
  assert (Hkn : (k2 <= n)%nat).
  { assert (j2 <= n)%nat; [|lia].
    unfold j2. etransitivity; [apply filter_length_le|]. now rewrite length_seq. }
  destruct (sorted_labels_actives s labels L Hlab HL) as [HaL _].
  pose proof (actives_in_firstn_le L k1 k2 Hk) as Hmono.
  pose proof (actives_in_nonneg (firstn k1 L)) as Hnn.
  pose proof (actives_in_firstn_all L k2) as Hall.
  set (a1 := actives_in (firstn k1 L)) in *.
  set (a2 := actives_in (firstn k2 L)) in *.
  set (na := n_actives s) in *.
  assert (Hna : (0 < inject_Z na)%Q).
  { change 0%Q with (inject_Z 0). rewrite <- Zlt_Qlt. lia. }
  assert (Hfrac : forall a, 0 <= a <= na ->
            (0 <= inject_Z a / inject_Z na * 100)%Q /\
            (inject_Z a / inject_Z na * 100 <= 100)%Q).
  { intros a Ha. split.
    - apply Qmult_le_0_compat; [|discriminate].
      apply Qle_shift_div_l; [assumption|]. rewrite Qmult_0_l.
      change 0%Q with (inject_Z 0). rewrite <- Zle_Qle. lia.
    - rewrite <- (Qmult_1_l 100) at 2. apply Qmult_le_compat_r; [|discriminate].
      apply Qle_shift_div_r; [assumption|]. rewrite Qmult_1_l, <- Zle_Qle. lia. }
  assert (Hle : (inject_Z a1 / inject_Z na * 100 <= inject_Z a2 / inject_Z na * 100)%Q).
  { apply Qmult_le_compat_r; [|discriminate].
    unfold Qdiv. apply Qmult_le_compat_r.
    - rewrite <- Zle_Qle. lia.
    - apply Qinv_le_0_compat. now apply Qlt_le_weak. }
  assert (Hv : forall k a, a = actives_in (firstn k L) ->
            exists v, np_mul match k with
                             | O => Finite 0
                             | S _ => true_divide (inject_Z a) (inject_Z na)
                             end 100 = Finite v /\
                      (v == inject_Z a / inject_Z na * 100)%Q).
  { intros k a Ea. destruct k as [|k'].
    - cbn [firstn actives_in] in Ea. subst a. eexists. split; [reflexivity|].
      unfold Qdiv. rewrite !Qmult_0_l. reflexivity.
    - rewrite true_divide_finite by (unfold na; lia).
      eexists. split; reflexivity. }
  destruct (Hv k1 a1 eq_refl) as (v1 & E1 & Q1).
  destruct (Hv k2 a2 eq_refl) as (v2 & E2 & Q2).
  exists v1, v2.
  split; [rewrite Hval1; f_equal; exact E1|].
  split; [rewrite Hval2; f_equal; exact E2|].
  rewrite Q1, Q2.
  split; [apply Hfrac; lia|]. split; [exact Hle | apply Hfrac; lia].
Qed.

Lemma enrichment_factor_monotone_witness :
  exists v1 v2 : Q,
    @enrichment_factor insertion_numpy example_screen 10 = Ok (Finite v1) /\
    @enrichment_factor insertion_numpy example_screen 90 = Ok (Finite v2) /\
    (0 <= v1)%Q /\ (v1 <= v2)%Q /\ (v2 <= 100)%Q.
Proof.
  apply (@enrichment_factor_monotone insertion_numpy example_screen example_labels 10 90).
  - exact example_screen_labelled.
  - vm_compute. discriminate.
  - vm_compute. discriminate.
  - vm_compute. discriminate.
  - vm_compute. discriminate.
Defined.

(** * The ideal enrichment factor *)

(** [ideal_enrichment_factor] where there is nothing to divide by.
    Before labels are loaded it raises [AttributeError].  With labels
    but no active the ratio of actives is 0: the value is 100 for a
    positive percentage, [nan] at 0 and minus infinity below 0; with
    an empty label array the ratio is [nan] and the value is 100. *)
Theorem ideal_enrichment_factor_edges (s : session) (p : Q) :
  (bioactivities s = None ->
   ideal_enrichment_factor s p = Raise AttributeError) /\
  (forall labels,
     bioactivities s = Some labels -> n_actives s = 0 ->
     (labels = [] -> ideal_enrichment_factor s p = Ok (Finite 100)) /\
     (labels <> [] ->
      ((0 < p)%Q -> ideal_enrichment_factor s p = Ok (Finite 100)) /\
      ((p == 0)%Q -> ideal_enrichment_factor s p = Ok NaN) /\
      ((p < 0)%Q -> ideal_enrichment_factor s p = Ok (Inf true)))).
Proof.
  split.
  - intros Hb. unfold ideal_enrichment_factor. now rewrite Hb.
  - intros labels Hb Ha. unfold ideal_enrichment_factor.
    rewrite Hb, Ha. cbn [shape0 bind]. split.
    + intros ->. reflexivity.
    + intros Hne.
      assert (Hn : 1 <= Z.of_nat (length labels)).
      { destruct labels; [contradiction | simpl length; lia]. }
      rewrite true_divide_finite by assumption.
      set (r := (inject_Z 0 / inject_Z (Z.of_nat (length labels)))%Q).
      assert (Hr : (r == 0)%Q) by (unfold r, Qdiv; apply Qmult_0_l).
      cbn [np_ge np_rdiv].
      assert (Hdiv : Qle_bool (p / 100) r = true <-> (p <= 0)%Q).
      { rewrite Qle_bool_iff, Hr. split; intros H.
        - apply (Qmult_le_r _ _ (/ 100)); [reflexivity|].
          now rewrite Qmult_0_l.
        - apply Qle_shift_div_r; [reflexivity|]. now rewrite Qmult_0_l. }
      assert (Hinf : true_divide 100 r = Inf false).
      { unfold true_divide. apply Qeq_bool_iff in Hr. now rewrite Hr. }
      split; [|split].
      * intros Hp.
        assert (E : Qle_bool (p / 100) r = false).
        { apply not_true_iff_false. intros E. apply Hdiv in E.
          now apply (Qlt_not_le _ _ Hp). }
        now rewrite E.
      * intros Hp.
        assert (E : Qle_bool (p / 100) r = true).
        { apply Hdiv. rewrite Hp. apply Qle_refl. }
        rewrite E, Hinf. cbn [np_mul].
        assert (E0 : Qeq_bool (p / 100) 0 = true).
        { apply Qeq_bool_iff. rewrite Hp. reflexivity. }
        now rewrite E0.
      * intros Hp.
        assert (E : Qle_bool (p / 100) r = true).
        { apply Hdiv. now apply Qlt_le_weak. }
        rewrite E, Hinf. cbn [np_mul].
        assert (Hneg : (p / 100 < 0)%Q).
        { apply Qlt_shift_div_r; [reflexivity|]. now rewrite Qmult_0_l. }
        assert (E0 : Qeq_bool (p / 100) 0 = false).
        { apply not_true_iff_false. intros E0. apply Qeq_bool_iff in E0.
          rewrite E0 in Hneg. now apply Qlt_irrefl in Hneg. }
        apply py_lt_iff in Hneg. now rewrite E0, Hneg.
Qed.

Lemma ideal_enrichment_factor_edges_witness :
  ideal_enrichment_factor fresh_ssd 50 = Raise AttributeError.
Proof.
  destruct (ideal_enrichment_factor_edges fresh_ssd 50) as [H _].
  apply H. reflexivity.
Defined.

(** * Loading labels and scoring *)

Section Loading.

Context {T : Toolkit}.

Lemma align_loop_total mols :
  Forall (fun m => ~ zero_fit m) mols ->
  forall s, exists s', align_loop mols s = (Ok tt, s').
Proof.
  induction 1 as [|m mols Hm _ IH]; intros s; cbn [align_loop]; [eauto|].
  destruct (align_outcome m) as [[Hz _] | [_ [r Hr]]]; [contradiction|].
  rewrite Hr. destruct r; apply IH.
Qed.

(** The loop stops at the first molecule whose best fit has a zero
    SSD, with the records of the molecules before it in the store. *)
Lemma align_loop_stops before m after :
  Forall (fun m => ~ zero_fit m) before -> zero_fit m ->
  forall s, exists s',
    align_loop (before ++ m :: after) s = (Raise ZeroDivisionError, s') /\
    molecules s' = molecules s ++ aligned_records before /\
    bioactivities s' = bioactivities s /\
    n_actives s' = n_actives s /\
    n_inactives s' = n_inactives s /\
    n_molecules s' = n_molecules s.
Proof.
  intros Hb Hz. induction Hb as [|m0 before Hm0 _ IH]; intros s.
  - cbn [app align_loop].
    destruct (align_outcome m) as [[_ Ha] | [Hn _]]; [|contradiction].
    rewrite Ha. exists s. cbn. rewrite app_nil_r. repeat split.
  - cbn [app align_loop]. unfold aligned_records. cbn [flat_map].
    fold (aligned_records before).
    destruct (align_outcome m0) as [[Hz0 _] | [_ [r Hr]]]; [contradiction|].
    rewrite Hr. destruct r as [r|].
    + destruct (IH (append s r)) as (s' & H1 & H2 & H3 & H4 & H5 & H6).
      exists s'. split; [exact H1|].
      cbn [append molecules bioactivities n_actives n_inactives n_molecules] in *.
      rewrite H2, <- app_assoc. repeat split; assumption.
    + destruct (IH s) as (s' & H1 & H2 & H3). exists s'. now split.
Qed.

(** When [from_bioactivity_data] fails and when it succeeds.  An array
    of rank above 1 and a length mismatch are rejected before anything
    is changed.  A SMILES that does not parse raises [AttributeError]
    after the labels and their totals were replaced, with the store
    and [n_molecules] untouched.  With every SMILES parsed, the
    fingerprint strategy succeeds; the geometric strategy succeeds
    unless the best fit of a molecule has an SSD of zero: the division
    raises [ZeroDivisionError] there, after the labels were replaced,
    [n_molecules] was increased and the molecules before that one were
    scored. *)
Theorem from_bioactivity_data_outcomes
    (smiles : list (string * string)) (s : session) :
  well_formed s ->
  from_bioactivity_data smiles HigherRank s = (Raise BadShapeError, s) /\
  forall labels,
    (length smiles <> length labels ->
     from_bioactivity_data smiles (Rank1 labels) s
     = (Raise OpenPharmacophoreValueError, s)) /\
    (length smiles = length labels -> binary labels ->
     (Exists (fun entry => MolFromSmiles (snd entry) = None) smiles ->
      from_bioactivity_data smiles (Rank1 labels) s
      = (Raise AttributeError, set_labels s labels)) /\
     (Forall (fun entry => MolFromSmiles (snd entry) <> None) smiles ->
      exists mols,
        traverse parse smiles = Ok mols /\
        (scoring_metric s = Similarity \/ Forall (fun m => ~ zero_fit m) mols ->
         exists s', from_bioactivity_data smiles (Rank1 labels) s = (Ok tt, s')) /\
        (scoring_metric s = SSD ->
         forall before m after,
           mols = before ++ m :: after ->
           Forall (fun m => ~ zero_fit m) before -> zero_fit m ->
           exists s',
             from_bioactivity_data smiles (Rank1 labels) s
             = (Raise ZeroDivisionError, s') /\
             molecules s' = molecules s ++ aligned_records before /\
             bioactivities s' = Some labels /\
             n_actives s' = np_sum labels /\
             n_molecules s' = n_molecules s + Z.of_nat (length labels)))).
Proof.
  intros Hwf. split; [reflexivity|]. intros labels. split.
  - intros Hne. unfold from_bioactivity_data.
    apply Nat.eqb_neq in Hne. now rewrite Hne.
  - intros Heq _. split.
    + intros Hbad. unfold from_bioactivity_data.
      apply Nat.eqb_eq in Heq. rewrite Heq. cbn [negb].
      now rewrite (traverse_parse_fails smiles Hbad).
    + intros Hgood.
      destruct (traverse_parse_ok smiles Hgood) as [mols Hm].
      pose proof (traverse_length _ _ _ Hm) as Hlen.
      exists mols. split; [exact Hm|].
      unfold from_bioactivity_data.
      apply Nat.eqb_eq in Heq. rewrite Heq. cbn [negb]. rewrite Hm.
      apply Nat.eqb_eq in Heq.
      cbn [set_labels scoring_metric]. split.
      * intros Hcase. destruct (scoring_metric s) eqn:Em.
        -- destruct Hcase as [Hcase | Hcase]; [discriminate|].
           unfold _align_molecules. now apply align_loop_total.
        -- unfold _fingerprint_similarity. cbn [set_labels similarity_fn].
           destruct (Hwf Em) as [k Hk]. rewrite Hk. eauto.
      * intros Em before m after -> Hb Hz. rewrite Em.
        unfold _align_molecules.
        destruct (align_loop_stops before m after Hb Hz
                    (set_n_molecules (set_labels s labels)
                       (n_molecules (set_labels s labels)
                        + Z.of_nat (length (before ++ m :: after)))))
          as (s' & H1 & H2 & H3 & H4 & _ & H6).
        exists s'. split; [exact H1|].
        cbn [set_n_molecules set_labels molecules bioactivities n_actives
             n_molecules] in *.
        repeat split; try assumption. lia.
Qed.

(** The store of a fingerprint session after one call on a fresh
    session: one record per molecule, in input order, carrying the
    similarity of the molecule, its identifier and the molecule
    itself; all counters agree. *)
Theorem fingerprint_store
    (s0 s : session) (smiles : list (string * string)) (labels : list Z) :
  fresh s0 -> scoring_metric s0 = Similarity ->
  from_bioactivity_data smiles (Rank1 labels) s0 = (Ok tt, s) ->
  exists kind mols,
    similarity_fn s0 = Some kind /\
    traverse parse smiles = Ok mols /\
    map prop_Name mols = map fst smiles /\
    molecules s = map (fingerprint_record kind) mols /\
    map id (molecules s) = map fst smiles /\
    n_molecules s = Z.of_nat (length (molecules s)) /\
    n_actives s + n_inactives s = n_molecules s /\
    length (molecules s) = length labels.
Proof.
  intros Hf Hsim H.
  destruct (fresh_fields s0 Hf) as (Hm0 & Hn0 & _ & _ & _ & Hk).
  destruct (Hk Hsim) as [kind Hkind].
  unfold from_bioactivity_data in H.
  destruct (length smiles =? length labels)%nat eqn:El; cbn [negb] in H;
    [|discriminate].
  apply Nat.eqb_eq in El.
  destruct (traverse parse smiles) as [mols|e] eqn:Ep; [|discriminate].
  pose proof (traverse_length _ _ _ Ep) as Hlen.
  pose proof (traverse_parse_names _ _ Ep) as Hnames.
  cbn [set_labels scoring_metric] in H. rewrite Hsim in H.
  unfold _fingerprint_similarity in H. cbn [set_labels similarity_fn] in H.
  rewrite Hkind in H. injection H as Hs.
  match type of Hs with
  | fold_left (fun self m => append self (@?g m)) _ ?a = _ =>
      pose proof (similarity_loop_fields g mols a) as F
  end.
  cbv zeta in F. cbv beta in F. rewrite Hs in F.
  destruct F as (F1 & _ & _ & F4 & F5 & _ & F7).
  cbn [set_n_molecules set_labels molecules n_actives n_inactives n_molecules] in *.
  rewrite Hm0 in F1. cbn [app] in F1.
  assert (F1' : molecules s = map (fingerprint_record kind) mols).
  { rewrite F1. apply map_ext. intros m. unfold fingerprint_record.
    now destruct kind. }
  exists kind, mols. split; [assumption|]. split; [reflexivity|].
  split; [assumption|]. split; [assumption|].
  split; [rewrite F1, map_map; cbn [id]; exact Hnames|].
  rewrite F1, length_map, F4, F5, F7.
  split; [reflexivity|]. split; lia.
Qed.

(** The store of a geometric session after one call on a fresh
    session: the records of the molecules that were not skipped, in
    input order; [n_molecules] counts the skipped molecules too, so
    the store is short of it by their number. *)
Theorem align_store
    (s0 s : session) (smiles : list (string * string)) (labels : list Z) :
  fresh s0 -> scoring_metric s0 = SSD ->
  from_bioactivity_data smiles (Rank1 labels) s0 = (Ok tt, s) ->
  exists mols,
    traverse parse smiles = Ok mols /\
    map prop_Name mols = map fst smiles /\
    molecules s = aligned_records mols /\
    map id (molecules s) = map prop_Name (filter is_scored mols) /\
    n_actives s + n_inactives s = n_molecules s /\
    n_molecules s = Z.of_nat (length labels) /\
    Z.of_nat (length (molecules s)) + Z.of_nat (length (filter is_skipped mols))
    = n_molecules s.
Proof.
  intros Hf Hssd H.
  destruct (fresh_fields s0 Hf) as (Hm0 & Hn0 & _).
  unfold from_bioactivity_data in H.
  destruct (length smiles =? length labels)%nat eqn:El; cbn [negb] in H;
    [|discriminate].
  apply Nat.eqb_eq in El.
  destruct (traverse parse smiles) as [mols|e] eqn:Ep; [|discriminate].
  pose proof (traverse_length _ _ _ Ep) as Hlen.
  pose proof (traverse_parse_names _ _ Ep) as Hnames.
  cbn [set_labels scoring_metric] in H. rewrite Hssd in H.
  unfold _align_molecules in H.
  pose proof (align_loop_records _ _ _ H) as Hrec.
  pose proof (align_loop_succeeds _ _ _ H) as Hok.
  apply align_loop_fields in H.
  destruct H as (_ & _ & _ & H4 & H5 & _ & H7).
  cbn [set_n_molecules set_labels molecules n_actives n_inactives n_molecules] in *.
  rewrite Hm0 in Hrec. cbn [app] in Hrec.
  exists mols. split; [reflexivity|]. split; [assumption|]. split; [assumption|].
  assert (Hids : map id (aligned_records mols) = map prop_Name (filter is_scored mols)).
  { clear. induction mols as [|m mols IH]; [reflexivity|].
    unfold aligned_records. cbn [flat_map filter]. fold (aligned_records mols).
    unfold is_scored at 1.
    destruct (align m) as [[r|]|e] eqn:Ea; cbn [app map]; try assumption.
    f_equal; [|assumption].
    unfold align in Ea.
    destruct (MatchPharmacophoreToMol m); [|inversion Ea; reflexivity].
    destruct (MatchPharmacophore m); [inversion Ea; reflexivity|].
    destruct (EmbedPharmacophore m) as [embs|]; [|discriminate].
    destruct (argmin (transform_embeddings embs)) as [i|];
      [|inversion Ea; reflexivity].
    destruct (nth_error (transform_embeddings embs) i) as [ssd|]; [|discriminate].
    destruct (nth_error embs i); [|discriminate].
    destruct (Qeq_bool ssd 0); [discriminate|].
    inversion Ea; reflexivity. }
  assert (Hcount : (length (aligned_records mols) + length (filter is_skipped mols)
                    = length mols)%nat).
  { clear - Hok. induction Hok as [|m mols Hm _ IH]; [reflexivity|].
    unfold aligned_records. cbn [flat_map filter]. fold (aligned_records mols).
    unfold is_skipped at 1.
    destruct (align_outcome m) as [[Hz _] | [_ [[r|] Hr]]]; [contradiction| |];
      rewrite Hr; rewrite length_app; cbn [length]; lia. }
  rewrite Hrec. split; [assumption|].
  rewrite H4, H5, H7, Hn0. split; [lia|]. split; lia.
Qed.

End Loading.

Lemma fresh_well_formed s : fresh s -> well_formed s.
Proof. intros Hf. exact (proj2 (proj2 (proj2 (proj2 (proj2 (fresh_fields s Hf)))))). Qed.

Lemma from_bioactivity_data_outcomes_witness :
  @from_bioactivity_data example_toolkit
    [("a", "CC")]%string (Rank1 [1; 0]) fresh_similarity
  = (Raise OpenPharmacophoreValueError, fresh_similarity) /\
  @from_bioactivity_data example_toolkit
    [("a", "CC"); ("b", EmptyString)]%string (Rank1 [1; 0]) fresh_similarity
  = (Raise AttributeError, set_labels fresh_similarity [1; 0]) /\
  (exists s',
     @from_bioactivity_data example_toolkit
       [("a", "CC"); ("b", "C")]%string (Rank1 [1; 0]) fresh_ssd = (Ok tt, s')) /\
  (exists s',
     @from_bioactivity_data exact_fit_toolkit
       [("a", "C"); ("b", "CCO")]%string (Rank1 [1; 0]) fresh_ssd
     = (Raise ZeroDivisionError, s') /\
     molecules s' = [] /\ n_molecules s' = 2).
Proof.
  assert (Hbin : binary [1; 0])
    by (unfold binary; repeat (constructor; [lia|]); constructor).
  split; [|split; [|split]].
  - destruct (@from_bioactivity_data_outcomes example_toolkit
                [("a", "CC")]%string fresh_similarity
                (fresh_well_formed _ fresh_similarity_fresh)) as [_ H].
    destruct (H [1; 0]) as (H1 & _). apply H1. discriminate.
  - destruct (@from_bioactivity_data_outcomes example_toolkit
                [("a", "CC"); ("b", EmptyString)]%string fresh_similarity
                (fresh_well_formed _ fresh_similarity_fresh)) as [_ H].
    destruct (H [1; 0]) as (_ & H2).
    destruct (H2 eq_refl Hbin) as [H3 _]. apply H3.
    apply Exists_cons_tl, Exists_cons_hd. reflexivity.
  - destruct (@from_bioactivity_data_outcomes example_toolkit
                [("a", "CC"); ("b", "C")]%string fresh_ssd
                (fresh_well_formed _ fresh_ssd_fresh)) as [_ H].
    destruct (H [1; 0]) as (_ & H2).
    destruct (H2 eq_refl Hbin) as [_ H3].
    destruct H3 as (mols & Hm & Hok & _); [repeat constructor; discriminate|].
    apply Hok. right. cbn in Hm. injection Hm as <-.
    repeat constructor; intros (_ & _ & embs & e & He & Hin & Hz & _);
      cbn in He; try discriminate.
    injection He as <-. destruct Hin.
  - destruct (@from_bioactivity_data_outcomes exact_fit_toolkit
                [("a", "C"); ("b", "CCO")]%string fresh_ssd
                (fresh_well_formed _ fresh_ssd_fresh)) as [_ H].
    destruct (H [1; 0]) as (_ & H2).
    destruct (H2 eq_refl Hbin) as [_ H3].
    destruct H3 as (mols & Hm & _ & Hstop); [repeat constructor; discriminate|].
    cbn in Hm. injection Hm as <-.
    destruct (Hstop eq_refl
                [ {| mol_block := "C"; prop_Name := "a" |} ]
                {| mol_block := "CCO"; prop_Name := "b" |} [] eq_refl)
      as (s' & H4 & H5 & _ & _ & H6).
    + repeat constructor. intros (_ & _ & embs & e & He & _). discriminate He.
    + split; [reflexivity|]. split; [reflexivity|].
      eexists. eexists. split; [reflexivity|].
      split; [left; reflexivity|]. split; [reflexivity|].
      repeat constructor; apply Qle_refl.
    + exists s'. split; [exact H4|]. split; [exact H5 | exact H6].
Defined.

Lemma fingerprint_store_witness :
  exists kind mols,
    molecules example_screen = map (@fingerprint_record example_toolkit kind) mols /\
    map id (molecules example_screen) = ["a"; "b"; "c"]%string /\
    n_molecules example_screen = Z.of_nat (length (molecules example_screen)).
Proof.
  destruct (@fingerprint_store example_toolkit fresh_similarity example_screen
              [("a", "CC"); ("b", "NN"); ("c", "C")]%string [0; 1; 1])
    as (kind & mols & _ & _ & _ & H1 & H2 & H3 & _).
  - exact fresh_similarity_fresh.
  - reflexivity.
  - reflexivity.
  - exists kind, mols. repeat split; assumption.
Defined.

Lemma align_store_witness :
  exists mols,
    molecules example_misaligned = @aligned_records example_toolkit mols /\
    Z.of_nat (length (molecules example_misaligned))
    + Z.of_nat (length (filter (@is_skipped example_toolkit) mols))
    = n_molecules example_misaligned.
Proof.
  destruct (@align_store example_toolkit fresh_ssd example_misaligned
              [("a", "C"); ("b", "CCO")]%string [0; 1])
    as (mols & _ & _ & H1 & _ & _ & _ & H2).
  - exact fresh_ssd_fresh.
  - reflexivity.
  - reflexivity.
  - exists mols. split; assumption.
Defined.

(** * Further properties of the confusion matrix *)

(** A store that is longer than the label array, as a second
    [from_bioactivity_data] leaves it, makes every metric raise
    [IndexError]. *)
Theorem metrics_on_overlong_store {numpy : Numpy} (s : session) (labels : list Z) :
  bioactivities s = Some labels ->
  (length labels < length (molecules s))%nat ->
  (forall t, confusion_matrix s (Some t) = Raise IndexError) /\
  (scoring_metric s = SSD -> confusion_matrix s None = Raise IndexError) /\
  AUC s = Raise IndexError /\
  ROC_plot s = Raise IndexError /\
  _enrichment_data s = Raise IndexError /\
  (forall p, (0 <= p)%Q -> (p <= 100)%Q ->
             enrichment_factor s p = Raise IndexError).
Proof.
  intros Hb Hover.
  assert (Ht : forall t, tally_and_check s t = Raise IndexError).
  { intros t. unfold tally_and_check. rewrite Hb.
    rewrite tally_loop_overrun by (simpl; lia). reflexivity. }
  pose proof (sorted_labels_overrun s labels Hb Hover) as HL.
  assert (Hdata : _enrichment_data s = Raise IndexError).
  { unfold _enrichment_data. now rewrite HL. }
  split; [intros t; unfold confusion_matrix; destruct (scoring_metric s); apply Ht|].
  split; [intros Hm; unfold confusion_matrix; rewrite Hm; apply Ht|].
  split; [unfold AUC; now rewrite HL|].
  split; [unfold ROC_plot; now rewrite HL|].
  split; [exact Hdata|].
  intros p H0 H1. unfold enrichment_factor.
  rewrite (proj1 (percentage_in_range p H0 H1)), Hdata. reflexivity.
Qed.

Lemma metrics_on_overlong_store_witness :
  let s2 := snd (@from_bioactivity_data example_toolkit
                   [("c", "C")]%string (Rank1 [1]) example_tied) in
  confusion_matrix s2 (Some (1 # 2)) = Raise IndexError /\
  @AUC insertion_numpy s2 = Raise IndexError /\
  @_enrichment_data insertion_numpy s2 = Raise IndexError.
Proof.
  intros s2.
  destruct (@metrics_on_overlong_store insertion_numpy s2 [1]) as (H1 & _ & H2 & _ & H3 & _).
  - reflexivity.
  - vm_compute. lia.
  - split; [apply H1 | split; assumption].
Defined.

Lemma cell_nonneg label predicted threshold l : 0 <= cell label predicted threshold l.
Proof. unfold cell. lia. Qed.

Lemma labelled_as_cons label p l :
  labelled_as label (p :: l)
  = (if fst p =? label then 1 else 0) + labelled_as label l.
Proof.
  unfold labelled_as. cbn [filter].
  destruct (fst p =? label); cbn [length]; lia.
Qed.

Lemma cell_split label threshold l :
  cell label true threshold l + cell label false threshold l = labelled_as label l.
Proof.
  induction l as [|p l IH]; [reflexivity|].
  rewrite !cell_cons, labelled_as_cons.
  destruct (fst p =? label), (predicted_active threshold (snd p));
    cbn [andb Bool.eqb]; lia.
Qed.

Lemma labelled_as_totals labels (store : list MolScore) :
  binary labels -> length store = length labels ->
  labelled_as 1 (combine labels store) = np_sum labels /\
  labelled_as 0 (combine labels store) = Z.of_nat (length labels) - np_sum labels.
Proof.
  intros Hb. revert store.
  induction Hb as [|b labels Hb Hbs IH]; intros store Hlen.
  - destruct store; [split; reflexivity | discriminate].
  - destruct store as [|r store]; [discriminate|].
    injection Hlen as Hlen. destruct (IH store Hlen) as [H1 H0].
    cbn [combine]. rewrite !labelled_as_cons, H1, H0. cbn [fst].
    cbn [np_sum fold_right length]. fold (np_sum labels). rewrite Nat2Z.inj_succ.
    destruct Hb as [-> | ->]; cbn [Z.eqb Pos.eqb]; split; lia.
Qed.

Lemma predicted_active_antitone t1 t2 r :
  (t1 <= t2)%Q -> predicted_active t2 r = true -> predicted_active t1 r = true.
Proof.
  intros Ht H. apply predicted_active_iff. apply predicted_active_iff in H.
  now apply Qle_lt_trans with t2.
Qed.

Lemma cell_true_antitone label t1 t2 l :
  (t1 <= t2)%Q -> cell label true t2 l <= cell label true t1 l.
Proof.
  intros Ht. induction l as [|p l IH]; [reflexivity|].
  rewrite !cell_cons.
  pose proof (predicted_active_antitone t1 t2 (snd p) Ht) as Ha.
  destruct (fst p =? label); cbn [andb]; [|lia].
  destruct (predicted_active t2 (snd p)).
  - rewrite (Ha eq_refl). lia.
  - destruct (predicted_active t1 (snd p)); cbn [Bool.eqb]; lia.
Qed.

Lemma cell_true_none label t l :
  Forall (fun p => (score (snd p) <= t)%Q) l -> cell label true t l = 0.
Proof.
  induction 1 as [|p l Hp _ IH]; [reflexivity|].
  rewrite cell_cons, IH.
  assert (E : predicted_active t (snd p) = false).
  { apply not_true_iff_false. intros E. apply predicted_active_iff in E.
    now apply (Qlt_not_le _ _ E). }
  rewrite E. destruct (fst p =? label); reflexivity.
Qed.

Lemma cell_false_none label t l :
  Forall (fun p => (t < score (snd p))%Q) l -> cell label false t l = 0.
Proof.
  induction 1 as [|p l Hp _ IH]; [reflexivity|].
  rewrite cell_cons, IH.
  apply predicted_active_iff in Hp. rewrite Hp.
  destruct (fst p =? label); reflexivity.
Qed.

(** The matrix returned on a fully scored session. *)
Lemma confusion_matrix_returned s labels t :
  fully_scored s labels ->
  n_molecules s = Z.of_nat (length labels) ->
  confusion_matrix s (Some t)
  = Ok (expected_matrix labels (molecules s) (effective_threshold s t)).
Proof.
  intros [(Hb & Hbin & _ & _ & Hle) Heq] Hn.
  rewrite (confusion_matrix_cells s labels t Hb Hle). cbv zeta.
  rewrite expected_matrix_sum by assumption.
  rewrite Hn, Heq, Z.eqb_refl. reflexivity.
Qed.

(** On a fully scored session the rows of labels are split by the
    prediction: [TP + FN] is the number of actives and [FP + TN] the
    number of inactives, at every threshold. *)
Theorem confusion_matrix_marginals (s : session) (labels : list Z) (t : Q) :
  fully_scored s labels ->
  n_molecules s = Z.of_nat (length labels) ->
  exists tp fp fn tn,
    confusion_matrix s (Some t) = Ok ((tp, fp), (fn, tn)) /\
    0 <= tp /\ 0 <= fp /\ 0 <= fn /\ 0 <= tn /\
    tp + fn = n_actives s /\
    fp + tn = n_inactives s.
Proof.
  intros Hfs Hn.
  pose proof Hfs as [(Hb & Hbin & Ha & Hi & Hle) Heq].
  rewrite (confusion_matrix_returned s labels t Hfs Hn).
  unfold expected_matrix.
  set (l := combine labels (molecules s)).
  set (e := effective_threshold s t).
  destruct (labelled_as_totals labels (molecules s) Hbin Heq) as [H1 H0].
  fold l in H1, H0.
  exists (cell 1 true e l), (cell 0 true e l), (cell 1 false e l), (cell 0 false e l).
  split; [reflexivity|].
  do 4 (split; [apply cell_nonneg|]).
  rewrite !cell_split, H1, H0, Ha, Hi. split; reflexivity.
Qed.

Lemma confusion_matrix_marginals_witness :
  exists tp fp fn tn,
    confusion_matrix example_screen (Some (1 # 2)) = Ok ((tp, fp), (fn, tn)) /\
    tp + fn = n_actives example_screen /\
    fp + tn = n_inactives example_screen.
Proof.
  destruct (confusion_matrix_marginals example_screen example_labels (1 # 2))
    as (tp & fp & fn & tn & H & _ & _ & _ & _ & H1 & H2).
  - exact example_screen_fully_scored.
  - reflexivity.
  - exists tp, fp, fn, tn. split; [assumption | split; assumption].
Defined.

(** On a fully scored fingerprint session, raising the threshold
    moves molecules from the predicted-active to the predicted-inactive
    column and never back; a threshold at or above every score
    predicts no active, one below every score predicts no inactive. *)
Theorem confusion_matrix_monotone (s : session) (labels : list Z) (t1 t2 : Q) :
  fully_scored s labels ->
  n_molecules s = Z.of_nat (length labels) ->
  scoring_metric s = Similarity ->
  (t1 <= t2)%Q ->
  exists tp1 fp1 fn1 tn1 tp2 fp2 fn2 tn2,
    confusion_matrix s (Some t1) = Ok ((tp1, fp1), (fn1, tn1)) /\
    confusion_matrix s (Some t2) = Ok ((tp2, fp2), (fn2, tn2)) /\
    tp2 <= tp1 /\ fp2 <= fp1 /\ fn1 <= fn2 /\ tn1 <= tn2 /\
    (Forall (fun r => (score r <= t2)%Q) (molecules s) -> tp2 = 0 /\ fp2 = 0) /\
    (Forall (fun r => (t1 < score r)%Q) (molecules s) -> fn1 = 0 /\ tn1 = 0).
Proof.
  intros Hfs Hn Hsim Ht.
  rewrite (confusion_matrix_returned s labels t1 Hfs Hn).
  rewrite (confusion_matrix_returned s labels t2 Hfs Hn).
  unfold effective_threshold. rewrite Hsim. unfold expected_matrix.
  set (l := combine labels (molecules s)).
  do 8 eexists. split; [reflexivity|]. split; [reflexivity|].
  pose proof (cell_true_antitone 1 t1 t2 l Ht) as A1.
  pose proof (cell_true_antitone 0 t1 t2 l Ht) as A0.
  pose proof (cell_split 1 t1 l) as S11. pose proof (cell_split 1 t2 l) as S12.
  pose proof (cell_split 0 t1 l) as S01. pose proof (cell_split 0 t2 l) as S02.
  split; [assumption|]. split; [assumption|]. split; [lia|]. split; [lia|].
  assert (Hsnd : forall P : MolScore -> Prop,
            Forall P (molecules s) -> Forall (fun p => P (snd p)) l).
  { intros P HP. rewrite Forall_forall in *. intros [b r] Hin.
    apply in_combine_r in Hin. now apply HP. }
  split; intros Hall.
  - split; apply cell_true_none; apply (Hsnd _ Hall).
  - split; apply cell_false_none; apply (Hsnd _ Hall).
Qed.

Lemma confusion_matrix_monotone_witness :
  exists tp1 fp1 fn1 tn1 tp2 fp2 fn2 tn2,
    confusion_matrix example_screen (Some (1 # 4)) = Ok ((tp1, fp1), (fn1, tn1)) /\
    confusion_matrix example_screen (Some (3 # 4)) = Ok ((tp2, fp2), (fn2, tn2)) /\
    tp2 <= tp1 /\ fp2 <= fp1 /\ fn1 <= fn2 /\ tn1 <= tn2.
Proof.
  destruct (confusion_matrix_monotone example_screen example_labels (1 # 4) (3 # 4))
    as (tp1 & fp1 & fn1 & tn1 & tp2 & fp2 & fn2 & tn2 & H1 & H2 & H3 & H4 & H5 & H6 & _).
  - exact example_screen_fully_scored.
  - reflexivity.
  - reflexivity.
  - vm_compute. discriminate.
  - exists tp1, fp1, fn1, tn1, tp2, fp2, fn2, tn2.
    split; [assumption|]. split; [assumption|]. split; [assumption|].
    split; [assumption|]. split; assumption.
Defined.
